(** * The forecast-discussion widget (src/js/widgets/discussion.js)

    A shallow embedding of the [Discussion] class: the renderer, the text
    formatter with its paragraph heuristics, the date formatter, and the
    life cycle of the widget (construction, loading, update and clear).

    JavaScript strings are sequences of UTF-16 code units; they are modelled
    as lists of [N].  The regular expressions of the source are kept as
    syntax trees and run by a small backtracking matcher that follows the
    ECMAScript semantics (leftmost match, alternatives in order, greedy and
    lazy quantifiers, lookahead, [\b], [^] and [$], the flags i, m and s). *)

From Stdlib Require Import String Ascii.
From Stdlib Require Import List NArith ZArith Bool Arith Lia.
Import ListNotations.

Set Implicit Arguments.

(** ** Strings and the character predicates of ECMAScript *)

Module JS.
Local Open Scope N_scope.

Abbreviation char := N.
Abbreviation str := (list N).

(** An ASCII literal as a string of code units. *)
Definition lit (x : string) : str :=
  List.map N_of_ascii (list_ascii_of_string x).

(** Line feed and the double quote. *)
Definition NL : char := 10.
Definition QUOTE : char := 34.

Definition between (lo hi c : char) : bool := (lo <=? c) && (c <=? hi).

Definition oneOf (l : list char) (c : char) : bool := existsb (N.eqb c) l.

(** LineTerminator: LF, CR, LS, PS. *)
Definition isLineTerminator (c : char) : bool :=
  oneOf [10; 13; 8232; 8233] c.

(** WhiteSpace and LineTerminator code units: what [\s] matches and what
    [String.prototype.trim] removes. *)
Definition isSpace (c : char) : bool :=
  oneOf [9; 10; 11; 12; 13; 32; 160; 5760; 8232; 8233; 8239; 8287; 12288; 65279] c
  || between 8192 8202 c.

(** [\d]. *)
Definition isDigit (c : char) : bool := between 48 57 c.

(** [\w] without the u flag: [A-Za-z0-9_]. *)
Definition isWordChar (c : char) : bool :=
  between 65 90 c || between 97 122 c || isDigit c || N.eqb c 95.

(** Canonicalize of the i flag (no u flag).  ECMAScript maps a code unit to
    its one-unit upper case, and never maps a unit above 127 to one below
    128; so against the pattern characters of this file (Basic Latin and the
    degree sign, which has no case) it acts as below. *)
Definition canon (c : char) : char :=
  if between 97 122 c then c - 32 else c.

(** [String.prototype.startsWith]. *)
Fixpoint startsWith (s p : str) {struct p} : bool :=
  match p with
  | [] => true
  | x :: p' =>
      match s with
      | [] => false
      | y :: s' => N.eqb x y && startsWith s' p'
      end
  end.

Fixpoint dropWhile (f : char -> bool) (s : str) : str :=
  match s with
  | [] => []
  | c :: s' => if f c then dropWhile f s' else s
  end.

(** [trimStart] and [trimEnd]. *)
Definition trimStart (s : str) : str := dropWhile isSpace s.
Definition trimEnd (s : str) : str := rev (dropWhile isSpace (rev s)).

(** [String.prototype.trim]. *)
Definition trim (s : str) : str := trimEnd (trimStart s).

(** [Array.prototype.join] of strings. *)
Fixpoint join (sep : str) (l : list str) : str :=
  match l with
  | [] => []
  | [x] => x
  | x :: l' => x ++ sep ++ join sep l'
  end.

End JS.

(** ** Regular expressions *)

Module Regex.
Import JS.

(** The members of a character class. *)
Inductive citem :=
| CChr (c : char)    (* a class member *)
| CSpace             (* \s *)
| CDigit.            (* \d *)

(** One-character terms. *)
Inductive atom :=
| AChr (c : char)                       (* a pattern character *)
| ASet (neg : bool) (items : list citem) (* [...] and [^...], \s, \d *)
| ADot.                                 (* . *)

(** Every quantifier of the source is applied to a one-character term, so
    [Rep] carries an atom. *)
Inductive regex :=
| Eps
| One (a : atom)
| Seq (r1 r2 : regex)
| Alt (r1 r2 : regex)
| Rep (greedy : bool) (lo : nat) (hi : option nat) (a : atom)
| Bol                 (* ^ *)
| Eol                 (* $ *)
| WordB               (* \b *)
| Ahead (r : regex).  (* (?=r) *)

(** The flags i, m and s; g is the choice of [replaceAll]. *)
Record flags := Flags { ignoreCase : bool; multiline : bool; dotAll : bool }.

Definition itemMatch (fl : flags) (c : char) (i : citem) : bool :=
  match i with
  | CChr x => if ignoreCase fl then N.eqb (canon c) (canon x) else N.eqb c x
  | CSpace => isSpace c
  | CDigit => isDigit c
  end.

Definition atomMatch (fl : flags) (a : atom) (c : char) : bool :=
  match a with
  | AChr x => if ignoreCase fl then N.eqb (canon c) (canon x) else N.eqb c x
  | ASet neg items => xorb neg (existsb (itemMatch fl c) items)
  | ADot => dotAll fl || negb (isLineTerminator c)
  end.

(** A matcher state: the code unit before the current position (for [^]
    and [\b]) and the text from the current position on. *)
Definition state := (option char * str)%type.

(** The states reached by taking 0, 1, 2, ... code units accepted by [f],
    at most [hi] of them. *)
Fixpoint reps (f : char -> bool) (hi : option nat) (prev : option char) (s : str)
  : list state :=
  (prev, s) ::
  match s with
  | [] => []
  | c :: s' =>
      if f c then
        match hi with
        | None => reps f None (Some c) s'
        | Some 0 => []
        | Some (S h) => reps f (Some h) (Some c) s'
        end
      else []
  end.

(** IsWordChar at a position: false outside the text. *)
Definition isWordOpt (p : option char) : bool :=
  match p with Some c => isWordChar c | None => false end.

(** [^] and [$]: with the m flag also after and before a line terminator. *)
Definition atBol (fl : flags) (prev : option char) : bool :=
  match prev with
  | None => true
  | Some c => multiline fl && isLineTerminator c
  end.

Definition atEol (fl : flags) (s : str) : bool :=
  match s with
  | [] => true
  | c :: _ => multiline fl && isLineTerminator c
  end.

(** All the ways [r] matches at a position, in the order in which a
    backtracking matcher tries them; the head is the match ECMAScript
    reports. *)
Fixpoint run (fl : flags) (r : regex) (prev : option char) (s : str) : list state :=
  match r with
  | Eps => [(prev, s)]
  | One a =>
      match s with
      | c :: s' => if atomMatch fl a c then [(Some c, s')] else []
      | [] => []
      end
  | Seq r1 r2 => flat_map (fun st => run fl r2 (fst st) (snd st)) (run fl r1 prev s)
  | Alt r1 r2 => run fl r1 prev s ++ run fl r2 prev s
  | Rep greedy lo hi a =>
      let l := skipn lo (reps (atomMatch fl a) hi prev s) in
      if greedy then rev l else l
  | Bol => if atBol fl prev then [(prev, s)] else []
  | Eol => if atEol fl s then [(prev, s)] else []
  | WordB =>
      if xorb (isWordOpt prev) (isWordOpt (hd_error s)) then [(prev, s)] else []
  | Ahead r' =>
      match run fl r' prev s with
      | [] => []
      | _ :: _ => [(prev, s)]
      end
  end.

(** The length of the match at the current position, if there is one. *)
Definition matchLen (fl : flags) (r : regex) (prev : option char) (s : str) : option nat :=
  match run fl r prev s with
  | [] => None
  | (_, rest) :: _ => Some (length s - length rest)
  end.

(** [String.prototype.replace] with a g-flagged pattern; [repl] maps the
    matched text to its replacement.  [skip] counts the code units of the
    current match still to be passed over.  After an empty match the search
    resumes one unit further. *)
Fixpoint replaceFrom (fl : flags) (r : regex) (repl : str -> str)
         (prev : option char) (skip : nat) (s : str) {struct s} : str :=
  match skip with
  | S k =>
      match s with
      | [] => []
      | c :: s' => replaceFrom fl r repl (Some c) k s'
      end
  | 0 =>
      match matchLen fl r prev s with
      | Some (S n) =>
          repl (firstn (S n) s) ++
          match s with
          | [] => []
          | c :: s' => replaceFrom fl r repl (Some c) n s'
          end
      | Some 0 =>
          repl [] ++
          match s with
          | [] => []
          | c :: s' => c :: replaceFrom fl r repl (Some c) 0 s'
          end
      | None =>
          match s with
          | [] => []
          | c :: s' => c :: replaceFrom fl r repl (Some c) 0 s'
          end
      end
  end.

Definition replaceAll (fl : flags) (r : regex) (repl : str -> str) (s : str) : str :=
  replaceFrom fl r repl None 0 s.

(** [String.prototype.split] with a pattern that has no capture group.
    [acc] is the piece under construction, reversed.  No match is tried at
    the end of the text, and an empty match at the start of a piece is
    passed over. *)
Fixpoint splitFrom (fl : flags) (r : regex) (prev : option char) (skip : nat)
         (acc : str) (s : str) {struct s} : list str :=
  match s with
  | [] => [rev acc]
  | c :: s' =>
      match skip with
      | S k => splitFrom fl r (Some c) k acc s'
      | 0 =>
          match matchLen fl r prev s with
          | Some (S n) => rev acc :: splitFrom fl r (Some c) n [] s'
          | Some 0 =>
              match acc with
              | [] => splitFrom fl r (Some c) 0 [c] s'
              | _ :: _ => rev acc :: splitFrom fl r (Some c) 0 [c] s'
              end
          | None => splitFrom fl r (Some c) 0 (c :: acc) s'
          end
      end
  end.

Definition split (fl : flags) (r : regex) (s : str) : list str :=
  match s with
  | [] => match matchLen fl r None [] with Some _ => [] | None => [[]] end
  | _ :: _ => splitFrom fl r None 0 [] s
  end.

(** Pattern builders. *)
Definition chr (c : char) : regex := One (AChr c).

Fixpoint chars (s : str) : regex :=
  match s with
  | [] => Eps
  | [c] => chr c
  | c :: s' => Seq (chr c) (chars s')
  end.

Definition word (x : string) : regex := chars (lit x).

Fixpoint seqs (l : list regex) : regex :=
  match l with
  | [] => Eps
  | [r] => r
  | r :: l' => Seq r (seqs l')
  end.

Fixpoint alts (l : list regex) : regex :=
  match l with
  | [] => Eps
  | [r] => r
  | r :: l' => Alt r (alts l')
  end.

Definition star (a : atom) : regex := Rep true 0 None a.
Definition plus (a : atom) : regex := Rep true 1 None a.
Definition opt (c : char) : regex := Rep true 0 (Some 1) (AChr c).
Definition space : atom := ASet false [CSpace].
Definition digit : atom := ASet false [CDigit].

Definition fl_g : flags := Flags false false false.
Definition fl_gi : flags := Flags true false false.
Definition fl_gm : flags := Flags false true false.
Definition fl_gis : flags := Flags true false true.

End Regex.

(** ** The widget *)

Module Discussion.
Import JS Regex.

(** [!s] for a string [s]. *)
Definition isEmpty (s : str) : bool :=
  match s with [] => true | _ :: _ => false end.

Definition BULLET : char := 8226%N.        (* U+2022 *)
Definition MIDDOT : char := 183%N.         (* U+00B7 *)
Definition SMALL_SQUARE : char := 9642%N.  (* U+25AA *)
Definition WHITE_SQUARE : char := 9643%N.  (* U+25AB *)
Definition DEGREE : char := 176%N.         (* U+00B0 *)
Definition TAB : char := 9%N.
Definition SP : char := 32%N.

(** *** The patterns of [formatText], in source order *)

(** [/usa\.gov.*?(?=\n\n|\n\s*\n|$)/gis] *)
Definition re_usagov : regex :=
  seqs [word "usa.gov"; Rep false 0 None ADot;
        Ahead (alts [chars [NL; NL]; seqs [chr NL; star space; chr NL]; Eol])].

(** [/^\s*[\u2022\u00B7\-\*]\s*[^\n]*$/gm], the two bullets written here by
    their code points *)
Definition re_bulletLine : regex :=
  seqs [Bol; star space;
        One (ASet false [CChr BULLET; CChr MIDDOT; CChr 45%N; CChr 42%N]);
        star space; star (ASet true [CChr NL]); Eol].

(** [/\s*[\u2022\u00B7\u25AA\u25AB]\s*/g] *)
Definition re_bullet : regex :=
  seqs [star space;
        One (ASet false [CChr BULLET; CChr MIDDOT; CChr SMALL_SQUARE; CChr WHITE_SQUARE]);
        star space].

(** [[ \t]] *)
Definition blank : atom := ASet false [CChr SP; CChr TAB].

(** [/[ \t]+/g] *)
Definition re_blanks : regex := plus blank.

(** [/\n[ \t]+/g] *)
Definition re_nlBlanks : regex := Seq (chr NL) (plus blank).

(** [/\n{3,}/g] *)
Definition re_nl3 : regex := Rep true 3 None (AChr NL).

(** [/\n\n+|\.{3,}/] *)
Definition re_break : regex :=
  Alt (Seq (chr NL) (plus (AChr NL))) (Rep true 3 None (AChr 46%N)).

(** [/\.\s+/] *)
Definition re_sentence : regex := Seq (chr 46%N) (plus space).

(** [/\n/g] *)
Definition re_nl : regex := chr NL.

(** [\b(w1|w2|...)\b] *)
Definition wholeWord (l : list regex) : regex := seqs [WordB; alts l; WordB].

(** Lines 206-212: the time periods, the weather systems, the weather
    conditions and the marine conditions, each [/\b(...)\b/gi]. *)
Definition re_time : regex :=
  wholeWord [word "TODAY"; word "TONIGHT"; word "TOMORROW"; word "THIS EVENING";
             word "THIS MORNING"; word "THIS AFTERNOON"; word "SUNDAY"; word "MONDAY";
             word "TUESDAY"; word "WEDNESDAY"; word "THURSDAY"; word "FRIDAY";
             word "SATURDAY"].

Definition re_system : regex :=
  wholeWord [word "LOW PRESSURE"; word "HIGH PRESSURE"; word "FRONT"; word "TROUGH";
             word "RIDGE"; word "STORM SYSTEM"; word "WEATHER SYSTEM"; word "CYCLONE";
             word "ANTICYCLONE"].

Definition re_condition : regex :=
  wholeWord [word "RAIN"; word "SNOW"; word "THUNDERSTORMS"; word "FOG"; word "WIND";
             word "GALE"; word "STORM"; word "CLEAR"; word "CLOUDY"; word "PARTLY CLOUDY";
             word "OVERCAST"; word "SHOWERS"; word "DRIZZLE"; word "VISIBILITY";
             word "PRECIPITATION"].

Definition re_marine : regex :=
  wholeWord [word "SEAS"; word "WAVES"; word "SWELL"; word "CHOPPY"; word "ROUGH";
             word "CALM"; word "SURF"; word "BREAKERS"; word "SIGNIFICANT WAVE HEIGHT";
             word "COMBINED SEAS"].

(** [/\b([NSEW]|NE|NW|SE|SW|NORTH|SOUTH|EAST|WEST|NORTHEAST|NORTHWEST|SOUTHEAST|SOUTHWEST)\b/gi] *)
Definition re_direction : regex :=
  wholeWord [One (ASet false [CChr 78%N; CChr 83%N; CChr 69%N; CChr 87%N]);
             word "NE"; word "NW"; word "SE"; word "SW"; word "NORTH"; word "SOUTH";
             word "EAST"; word "WEST"; word "NORTHEAST"; word "NORTHWEST";
             word "SOUTHEAST"; word "SOUTHWEST"].

(** [/\b(\d+\s*(?:MPH|KT|KNOTS?|FT|FEET|INCHES?|IN|MILES?|NAUTICAL MILES?))\b/gi] *)
Definition re_measure : regex :=
  seqs [WordB; plus digit; star space;
        alts [word "MPH"; word "KT"; Seq (word "KNOT") (opt 83%N); word "FT";
              word "FEET"; Seq (word "INCHE") (opt 83%N); word "IN";
              Seq (word "MILE") (opt 83%N); Seq (word "NAUTICAL MILE") (opt 83%N)];
        WordB].

(** [/\b(\d+\s*(?:DEGREES?|\u00B0F?|\u00B0C?))\b/gi] *)
Definition re_degrees : regex :=
  seqs [WordB; plus digit; star space;
        alts [Seq (word "DEGREE") (opt 83%N); Seq (chr DEGREE) (opt 70%N);
              Seq (chr DEGREE) (opt 67%N)];
        WordB].

(** The replacement ['<tag>$1</tag>']: in each highlighting pattern group 1
    spans everything between the two zero-width [\b], so [$1] is the
    matched text. *)
Definition wrapWith (before after : str) (m : str) : str := before ++ m ++ after.

Definition strong : str -> str := wrapWith (lit "<strong>") (lit "</strong>").
Definition em : str -> str := wrapWith (lit "<em>") (lit "</em>").
Definition spanClass (cls : string) : str -> str :=
  wrapWith (lit "<span class=" ++ [QUOTE] ++ lit cls ++ [QUOTE] ++ lit ">") (lit "</span>").

Definition const (x : str) : str -> str := fun _ => x.

(** Lines 121-132: the cleaning chain. *)
Definition clean (text : str) : str :=
  trim
    (replaceAll fl_g re_nl3 (const [NL; NL])
    (replaceAll fl_g re_nlBlanks (const [NL])
    (replaceAll fl_g re_blanks (const [SP])
    (replaceAll fl_g re_bullet (const [SP])
    (replaceAll fl_gm re_bulletLine (const [])
    (replaceAll fl_gis re_usagov (const []) text)))))).

(** Lines 204-218: the highlighting chain. *)
Definition highlight (formatted : str) : str :=
  replaceAll fl_gi re_degrees (spanClass "weather-measurement")
  (replaceAll fl_gi re_measure (spanClass "weather-measurement")
  (replaceAll fl_gi re_direction (spanClass "wind-direction")
  (replaceAll fl_gi re_marine em
  (replaceAll fl_gi re_condition em
  (replaceAll fl_gi re_system strong
  (replaceAll fl_gi re_time strong formatted)))))).

(** [s.split(/\.\s+/)] *)
Definition splitSentences (s : str) : list str := split fl_g re_sentence s.

(** Lines 233-238. *)
Definition newSectionKeywords : list str :=
  List.map lit
    ["SYNOPSIS"; "DISCUSSION"; "TONIGHT"; "TOMORROW"; "SUNDAY"; "MONDAY";
     "TUESDAY"; "WEDNESDAY"; "THURSDAY"; "FRIDAY"; "SATURDAY";
     "MARINE"; "AVIATION"; "FIRE WEATHER"; "SHORT TERM"; "LONG TERM";
     "NEAR TERM"; "EXTENDED"; "FORECAST"; "OUTLOOK"; "UPDATE"]%string.

(** The template [`<p>${p}</p>`]. *)
Definition wrapP (p : str) : str := lit "<p>" ++ p ++ lit "</p>".

Section Formatter.

(** [String.prototype.toUpperCase].  The Unicode case tables belong to the
    platform; the formatter is defined over any such function. *)
Variable toUpperCase : str -> str.

(** Lines 229-245. *)
Definition shouldStartNewParagraph (sentence currentParagraph : str) : bool :=
  if isEmpty currentParagraph then false
  else
    let upperSentence := toUpperCase sentence in
    existsb (fun keyword =>
               startsWith upperSentence keyword
               || startsWith upperSentence (keyword ++ lit "..."))
            newSectionKeywords.

(** [sentences[i].trim()] with the period put back unless [i] is the last
    index; [None] for the [continue] of an empty sentence. *)
Definition nextSentence (raw : str) (rest : list str) : option str :=
  let sentence := trim raw in
  if isEmpty sentence then None
  else Some (match rest with [] => sentence | _ :: _ => sentence ++ lit "." end).

(** [paragraphs.push(p.trim())], without and with the test [if (p.trim())]. *)
Definition pushTrimmed (paragraphs : list str) (p : str) : list str :=
  paragraphs ++ [trim p].

Definition pushIfAny (paragraphs : list str) (p : str) : list str :=
  if isEmpty (trim p) then paragraphs else pushTrimmed paragraphs p.

(** [current += (current ? ' ' : '') + sentence] *)
Definition append (current sentence : str) : str :=
  current ++ (if isEmpty current then [] else [SP]) ++ sentence.

(** Lines 145-169: the loop over [sentences], from index [i] on; the state
    is [paragraphs] and [currentParagraph]. *)
Fixpoint sentenceLoop (sentences : list str) (paragraphs : list str)
         (currentParagraph : str) : list str * str :=
  match sentences with
  | [] => (paragraphs, currentParagraph)
  | raw :: rest =>
      match nextSentence raw rest with
      | None => sentenceLoop rest paragraphs currentParagraph
      | Some sentence =>
          let '(paragraphs1, current1) :=
            if shouldStartNewParagraph sentence currentParagraph
            then (pushIfAny paragraphs currentParagraph, sentence)
            else (paragraphs, append currentParagraph sentence) in
          if 3 <=? length (splitSentences current1)
          then sentenceLoop rest (pushTrimmed paragraphs1 current1) []
          else sentenceLoop rest paragraphs1 current1
      end
  end.

(** Lines 140-174: sentence-based breaking. *)
Definition sentenceParagraphs (cleanedText : str) : list str :=
  let '(paragraphs, currentParagraph) :=
    sentenceLoop (splitSentences cleanedText) [] [] in
  pushIfAny paragraphs currentParagraph.

(** Lines 135-180: the value of [paragraphs] after the first if/else. *)
Definition initialParagraphs (cleanedText : str) : list str :=
  let initialSplit := split fl_g re_break cleanedText in
  if length initialSplit =? 1
  then sentenceParagraphs cleanedText
  else filter (fun p => 15 <? length p) (List.map trim initialSplit).

(** Lines 257-273. *)
Fixpoint forceLoop (sentences : list str) (paragraphs : list str)
         (currentParagraph : str) : list str * str :=
  match sentences with
  | [] => (paragraphs, currentParagraph)
  | raw :: rest =>
      match nextSentence raw rest with
      | None => forceLoop rest paragraphs currentParagraph
      | Some sentence =>
          if negb (isEmpty currentParagraph)
             && (2 <=? length (splitSentences currentParagraph))
          then forceLoop rest (pushTrimmed paragraphs currentParagraph) sentence
          else forceLoop rest paragraphs (append currentParagraph sentence)
      end
  end.

(** Lines 252-281. *)
Definition forceParagraphBreaks (text : str) : list str :=
  let '(paragraphs, currentParagraph) := forceLoop (splitSentences text) [] [] in
  pushIfAny paragraphs currentParagraph.

(** Lines 293-312. *)
Fixpoint chunkLoop (sentences : list str) (chunks : list str)
         (currentChunk : str) : list str * str :=
  match sentences with
  | [] => (chunks, currentChunk)
  | raw :: rest =>
      match nextSentence raw rest with
      | None => chunkLoop rest chunks currentChunk
      | Some sentence =>
          if negb (isEmpty currentChunk)
             && ((350 <? length (currentChunk ++ [SP] ++ sentence))
                 || shouldStartNewParagraph sentence currentChunk)
          then chunkLoop rest (pushTrimmed chunks currentChunk) sentence
          else chunkLoop rest chunks (append currentChunk sentence)
      end
  end.

(** The array [chunks] of [breakLongParagraph] before it is mapped. *)
Definition longParagraphChunks (paragraph : str) : list str :=
  let '(chunks, currentChunk) := chunkLoop (splitSentences paragraph) [] [] in
  pushIfAny chunks currentChunk.

(** Lines 288-319. *)
Definition breakLongParagraph (paragraph : str) : str :=
  join [] (List.map wrapP (longParagraphChunks paragraph)).

(** Lines 183-185. *)
Definition ensureBreaks (paragraphs : list str) : list str :=
  match paragraphs with
  | [p] => if 600 <? length p then forceParagraphBreaks p else paragraphs
  | _ => paragraphs
  end.

(** Lines 135-185: the final value of [paragraphs]. *)
Definition segment (cleanedText : str) : list str :=
  ensureBreaks (initialParagraphs cleanedText).

(** Lines 189-195: the function mapped over [paragraphs]. *)
Definition formatParagraph (paragraph : str) : str :=
  if 700 <? length paragraph then breakLongParagraph paragraph else wrapP paragraph.

(** Lines 188-201: [formatted] before highlighting. *)
Definition assemble (cleanedText : str) (paragraphs : list str) : str :=
  let formatted := join [] (List.map formatParagraph paragraphs) in
  if isEmpty formatted || (length paragraphs =? 0)
  then wrapP (replaceAll fl_g re_nl (const (lit "<br>")) cleanedText)
  else formatted.

(** Lines 117-221. *)
Definition formatText (text : str) : str :=
  if isEmpty text then []
  else
    let cleanedText := clean text in
    highlight (assemble cleanedText (segment cleanedText)).

End Formatter.

(** *** Dates *)

(** A computation that returns or throws. *)
Inductive result (A : Type) :=
| Ok (a : A)
| Throw.
Arguments Ok {A} a.
Arguments Throw {A}.

(** Sequencing. *)
Definition bind {A B : Type} (m : result A) (f : A -> result B) : result B :=
  match m with
  | Ok a => f a
  | Throw => Throw
  end.

(** [try { body } catch (error) { handler }] *)
Definition tryCatch {A : Type} (body handler : result A) : result A :=
  match body with
  | Ok a => Ok a
  | Throw => handler
  end.

(** The values [formatDate] and [new Date] are applied to.  A time value is
    an integral number of milliseconds; [None] stands for NaN. *)
Inductive dateLike :=
| DUndefined
| DNull
| DString (s : str)
| DNumber (t : option Z)   (* an integral number, or NaN *)
| DDate (t : option Z)     (* a Date object; [DDate None] is an Invalid Date *)
| DSymbol.

(** [!date] *)
Definition falsy (d : dateLike) : bool :=
  match d with
  | DUndefined | DNull => true
  | DString s => isEmpty s
  | DNumber None => true
  | DNumber (Some t) => Z.eqb t 0
  | DDate _ => false
  | DSymbol => false
  end.

(** TimeClip: a time value beyond 8.64e15 ms is NaN. *)
Definition timeClip (t : option Z) : option Z :=
  match t with
  | Some z => if (Z.abs z <=? 8640000000000000)%Z then Some z else None
  | None => None
  end.

Section Dates.

(** [Date.parse] and the en-US rendering of a valid time value with the
    options of line 330 are the platform's. *)
Variable parseDate : str -> option Z.
Variable formatEnUS : Z -> str.

(** [new Date(value)]: the time value of the new object.  Converting a
    Symbol to a number throws a TypeError. *)
Definition newDate (value : dateLike) : result (option Z) :=
  match value with
  | DDate t => Ok t
  | DString s => Ok (timeClip (parseDate s))
  | DNumber t => Ok (timeClip t)
  | DUndefined => Ok None
  | DNull => Ok (Some 0%Z)
  | DSymbol => Throw
  end.

(** [Date.prototype.toLocaleDateString]: an Invalid Date gives the string
    "Invalid Date" and no exception. *)
Definition toLocaleDateString (t : option Z) : result str :=
  match t with
  | None => Ok (lit "Invalid Date")
  | Some z => Ok (formatEnUS z)
  end.

(** Lines 326-339. *)
Definition formatDate (date : dateLike) : result str :=
  if falsy date then Ok (lit "Unknown")
  else
    tryCatch
      (bind (newDate date) toLocaleDateString)
      (Ok (lit "Unknown")).

(** *** The renderer *)

(** The [properties] of a bulletin; an absent field is [None]. *)
Record properties := Properties {
  office : option str;
  officeName : option str;
  text : option str;
  updated : dateLike;
  issuedTime : option str
}.

Record bulletin := Bulletin { props : option properties }.

(** The widget: [currentData], [currentOffice] and the [innerHTML] of the
    content element. *)
Record widget := Widget {
  currentData : option bulletin;
  currentOffice : option str;
  content : str
}.

Definition setContent (w : widget) (html : str) : widget :=
  Widget (currentData w) (currentOffice w) html.

(** A line break of a template and the indentation after it. *)
Definition indent (n : nat) : str := NL :: repeat SP n.

Definition quoted (x : string) : str := [QUOTE] ++ lit x ++ [QUOTE].

(** Lines 344-346 and 352-358. *)
Definition loadingHtml : str :=
  lit "<div class=" ++ quoted "loading" ++ lit ">Loading discussion...</div>".

Definition showLoading (w : widget) : widget := setContent w loadingHtml.

Definition errorHtml (message : str) : str :=
  indent 12 ++ lit "<div class=" ++ quoted "status-message status-error" ++ lit ">" ++
  indent 16 ++ lit "<strong>Error:</strong> " ++ message ++
  indent 12 ++ lit "</div>" ++
  indent 8.

Definition showError (w : widget) (message : str) : widget :=
  setContent w (errorHtml message).

(** [a || b] on optional strings; the template prints an absent value as
    "undefined". *)
Definition orElse (a b : option str) : str :=
  match a with
  | Some x => if isEmpty x then
                match b with Some y => y | None => lit "undefined" end
              else x
  | None => match b with Some y => y | None => lit "undefined" end
  end.

Variable toUpperCase : str -> str.

(** The template of lines 97-107. *)
Definition bodyHtml (title time body : str) : str :=
  indent 12 ++ lit "<div class=" ++ quoted "forecast-period" ++ lit ">" ++
  indent 16 ++ lit "<div class=" ++ quoted "period-header" ++ lit ">" ++
  indent 20 ++ lit "<strong>Forecast Discussion - " ++ title ++ lit "</strong>" ++
  indent 20 ++ lit "<span class=" ++ quoted "period-time" ++ lit ">" ++ time ++ lit "</span>" ++
  indent 16 ++ lit "</div>" ++
  indent 16 ++ lit "<div class=" ++ quoted "forecast-text" ++ lit ">" ++
  indent 20 ++ body ++
  indent 16 ++ lit "</div>" ++
  indent 12 ++ lit "</div>" ++
  indent 8.

(** Lines 83-110. *)
Definition render (w : widget) : result widget :=
  match currentData w with
  | None => Ok (showLoading w)
  | Some data =>
      match props data with
      | None => Ok (showLoading w)
      | Some p =>
          match text p with
          | None => Ok (showError w (lit "No discussion available"))
          | Some t =>
              if isEmpty t || (length (trim t) =? 0)
              then Ok (showError w (lit "No discussion available"))
              else
                bind (match issuedTime p with
                      | Some i =>
                          if isEmpty i
                          then bind (newDate (updated p))
                                    (fun d => formatDate (DDate d))
                          else Ok i
                      | None => bind (newDate (updated p))
                                     (fun d => formatDate (DDate d))
                      end)
                     (fun time =>
                        Ok (setContent w
                              (bodyHtml (orElse (officeName p) (office p)) time
                                        (formatText toUpperCase t))))
          end
      end
  end.

End Dates.


(** [toUpperCase] on Basic Latin text, where it maps a-z to A-Z and keeps
    every other code unit. *)
Definition toUpperCaseLatin (s : str) : str := List.map canon s.

End Discussion.


(** ** The widget's life cycle: construction, loading, update and clear *)

Module Loader.
Import JS Regex Discussion.

(** [String.prototype.includes] *)
Fixpoint includes (t pat : str) : bool :=
  startsWith t pat
  || match t with
     | [] => false
     | _ :: t' => includes t' pat
     end.

(** The template of lines 65-77. *)
Definition placeholderHtml : str :=
  indent 12 ++ lit "<div class=" ++ quoted "forecast-period" ++ lit ">" ++
  indent 16 ++ lit "<div class=" ++ quoted "period-header" ++ lit ">" ++
  indent 20 ++ lit "<strong>Forecast Discussion</strong>" ++
  indent 20 ++ lit "<span class=" ++ quoted "period-time" ++
               lit ">Local Development Mode</span>" ++
  indent 16 ++ lit "</div>" ++
  indent 16 ++ lit "<div class=" ++ quoted "forecast-text" ++ lit ">" ++
  indent 20 ++ lit "Deploy to Netlify to see the real Area Forecast Discussion from meteorologists." ++
  indent 20 ++ lit "<br><br>" ++
  indent 20 ++ lit "This widget displays technical meteorological analysis and reasoning behind the forecast." ++
  indent 16 ++ lit "</div>" ++
  indent 12 ++ lit "</div>" ++
  indent 8.

(** Lines 64-78. *)
Definition showLocalDevPlaceholder (w : widget) : widget :=
  setContent w placeholderHtml.

(** Lines 363-366. *)
Definition clear (w : widget) : widget :=
  Widget None (currentOffice w)
         (lit "<div class=" ++ quoted "loading" ++ lit ">Loading discussion...</div>").

(** Line 42: [currentHost.includes('localhost') ||
    currentHost.includes('127.0.0.1')] *)
Definition isLocal (currentHost : str) : bool :=
  includes currentHost (lit "localhost") || includes currentHost (lit "127.0.0.1").

(** Line 48 *)
Definition proxyUrl (currentHost : str) : str :=
  currentHost ++ lit "/.netlify/functions/forecast-discussion".

(** The call [window.BoatSafe.http.get(url, { cacheTTL })] *)
Record request := Request { url : str; cacheTTL : nat }.

(** The default parameter [office = 'AJK'] stands in for an absent
    argument. *)
Definition officeOrDefault (office : option str) : str :=
  match office with
  | Some o => o
  | None => lit "AJK"
  end.

Section Load.

Variable parseDate : str -> option Z.
Variable formatEnUS : Z -> str.
Variable toUpperCase : str -> str.

(** Lines 26-29.  [data] is any value; a falsy one is [None]. *)
Definition update (data : option bulletin) (w : widget) : result widget :=
  render parseDate formatEnUS toUpperCase
         (Widget data (currentOffice w) (content w)).

(** [loadDiscussion] is an async function with one [await], on the answer
    of the proxy.  [loadStart] is what runs up to it (lines 36-50): the new
    widget and the request that is now pending, if one was sent.
    [loadResume] is what runs once the request has settled (lines 52-58), on
    the widget as it is at that moment: [Ok data] for the value the promise
    resolved to, [Throw] for a rejection.  The console output of lines 49,
    51 and 56 is left out. *)
Definition loadStart (office : option str) (currentHost : str) (w : widget)
  : widget * option request :=
  let w1 := Widget (currentData w) (Some (officeOrDefault office)) (content w) in
  let w2 := showLoading w1 in
  if isLocal currentHost
  then (showLocalDevPlaceholder w2, None)
  else (w2, Some (Request (proxyUrl currentHost) 30)).

Definition loadResume (response : result (option bulletin)) (w : widget) : widget :=
  match response with
  | Ok data =>
      let w1 := Widget data (currentOffice w) (content w) in
      match render parseDate formatEnUS toUpperCase w1 with
      | Ok w2 => w2
      | Throw => showError w1 (lit "Unable to load forecast discussion")
      end
  | Throw => showError w (lit "Unable to load forecast discussion")
  end.

(** Lines 35-59, when nothing else touches the widget while the request is
    pending.  [http] is the proxy. *)
Definition loadDiscussion (http : request -> result (option bulletin))
           (office : option str) (currentHost : str) (w : widget) : widget :=
  let '(w1, pending) := loadStart office currentHost w in
  match pending with
  | Some r => loadResume (http r) w1
  | None => w1
  end.

(** Lines 17-20. *)
Definition init (http : request -> result (option bulletin))
           (currentHost : str) (w : widget) : widget :=
  loadDiscussion http None currentHost (showLoading w).

(** Lines 5-12: the constructor, over the [innerHTML] the content element
    has in the page. *)
Definition construct (http : request -> result (option bulletin))
           (currentHost : str) (pageContent : str) : widget :=
  init http currentHost (Widget None None pageContent).

End Load.

End Loader.

(** ** Facts about the string primitives *)

Module JSFacts.
Import JS.

Definition allSpace (s : str) : Prop := Forall (fun c => isSpace c = true) s.

Lemma dropWhile_all (f : char -> bool) (s : str) :
  Forall (fun c => f c = true) s -> dropWhile f s = [].
Proof.
  induction 1 as [|c s Hc _ IH]; simpl; [reflexivity|].
  now rewrite Hc.
Qed.

Lemma Forall_take (A : Type) (P : A -> Prop) (l : list A) :
  Forall P l -> forall n, Forall P (firstn n l).
Proof.
  induction 1; intros [|n]; simpl; constructor; auto.
Qed.

Lemma trim_allSpace (s : str) : allSpace s -> trim s = [].
Proof.
  intros H. unfold trim, trimStart, trimEnd.
  rewrite (dropWhile_all _ H). reflexivity.
Qed.

End JSFacts.

(** ** Facts about the matcher *)

Module RegexFacts.
Import JS Regex JSFacts.

Section Preservation.

Variable P : char -> Prop.
Variable fl : flags.
Variable r : regex.
Variable repl : str -> str.
Hypothesis repl_P : forall m, Forall P m -> Forall P (repl m).

(** A replacement that maps [P]-texts to [P]-texts keeps a [P]-text one:
    every code unit of the result is copied from the input or produced by
    the replacement. *)
Lemma replaceFrom_Forall (s : str) :
  forall prev skip, Forall P s -> Forall P (replaceFrom fl r repl prev skip s).
Proof.
  induction s as [|c s IH]; intros prev skip Hs.
  - destruct skip; simpl; [|constructor].
    destruct (matchLen fl r prev []) as [[|n]|]; simpl;
      rewrite ?app_nil_r; try apply repl_P; constructor.
  - inversion Hs as [|? ? Hc Hs']; subst.
    destruct skip as [|k]; simpl; [|now apply IH].
    destruct (matchLen fl r prev (c :: s)) as [[|n]|].
    + apply Forall_app; split; [apply repl_P; constructor|].
      constructor; [assumption|now apply IH].
    + apply Forall_app; split; [|now apply IH].
      apply repl_P. constructor; [assumption|]. now apply Forall_take.
    + constructor; [assumption|now apply IH].
Qed.

Lemma replaceAll_Forall (s : str) :
  Forall P s -> Forall P (replaceAll fl r repl s).
Proof. apply replaceFrom_Forall. Qed.

End Preservation.

(** *** Greedy repetition *)

(** The number of leading code units accepted by [f]. *)
Fixpoint runLen (f : char -> bool) (s : str) : nat :=
  match s with
  | [] => 0
  | c :: s' => if f c then S (runLen f s') else 0
  end.

Lemma runLen_le (f : char -> bool) (s : str) : runLen f s <= length s.
Proof. induction s as [|c s IH]; simpl; [lia|destruct (f c); simpl; lia]. Qed.

Lemma runLen_ext (f g : char -> bool) (s : str) :
  (forall c, f c = g c) -> runLen f s = runLen g s.
Proof. intros E. induction s as [|c s IH]; simpl; [|rewrite E, IH]; reflexivity. Qed.

Lemma dropWhile_skipn (f : char -> bool) (s : str) :
  dropWhile f s = skipn (runLen f s) s.
Proof. induction s as [|c s IH]; simpl; [|destruct (f c); simpl]; auto. Qed.

Lemma firstn_runLen (f : char -> bool) (s : str) :
  Forall (fun c => f c = true) (firstn (runLen f s) s).
Proof.
  induction s as [|c s IH]; simpl; [constructor|].
  destruct (f c) eqn:E; simpl; constructor; assumption.
Qed.

(** Unbounded repetition reaches, last of all, the state after the longest
    run. *)
Lemma reps_unbounded (f : char -> bool) (s : str) :
  forall prev, exists l p,
    reps f None prev s = l ++ [(p, dropWhile f s)] /\ length l = runLen f s.
Proof.
  induction s as [|c s IH]; intros prev; simpl.
  - exists [], prev. split; reflexivity.
  - destruct (f c).
    + destruct (IH (Some c)) as (l & p & E & L).
      exists ((prev, c :: s) :: l), p. rewrite E. simpl. split; [reflexivity|lia].
    + exists [], prev. split; reflexivity.
Qed.

(** A greedy [{lo,}] at the end of a pattern takes the longest run, and
    fails when the run is shorter than [lo]. *)
Lemma run_greedy_unbounded (fl : flags) (lo : nat) (a : atom)
      (prev : option char) (s : str) :
  let n := runLen (atomMatch fl a) s in
  (lo <= n ->
     exists p tl, run fl (Rep true lo None a) prev s = (p, skipn n s) :: tl)
  /\ (n < lo -> run fl (Rep true lo None a) prev s = []).
Proof.
  intros n. simpl.
  destruct (reps_unbounded (atomMatch fl a) s prev) as (l & p & E & L).
  fold n in L. rewrite E, skipn_app, L. split; intros H.
  - replace (lo - n) with 0 by lia. simpl. rewrite rev_app_distr. simpl.
    rewrite dropWhile_skipn. fold n. eauto.
  - rewrite (skipn_all2 l) by lia.
    replace (lo - n) with (S (lo - n - 1)) by lia. simpl.
    now rewrite skipn_nil.
Qed.

Lemma length_skipn_sub (n : nat) (s : str) :
  n <= length s -> length s - length (skipn n s) = n.
Proof. intros H. rewrite length_skipn. lia. Qed.

Lemma run_Seq (fl : flags) (r1 r2 : regex) (prev : option char) (s : str) :
  run fl (Seq r1 r2) prev s
  = flat_map (fun st => run fl r2 (fst st) (snd st)) (run fl r1 prev s).
Proof. reflexivity. Qed.

Lemma run_Alt (fl : flags) (r1 r2 : regex) (prev : option char) (s : str) :
  run fl (Alt r1 r2) prev s = run fl r1 prev s ++ run fl r2 prev s.
Proof. reflexivity. Qed.

Lemma run_chr (fl : flags) (x : char) (prev : option char) (s : str) :
  run fl (chr x) prev s
  = match s with
    | c :: s' => if atomMatch fl (AChr x) c then [(Some c, s')] else []
    | [] => []
    end.
Proof. reflexivity. Qed.

(** *** Splitting *)

(** Pieces and the separators between them, put back together. *)
Fixpoint interleave (pieces seps : list str) : str :=
  match pieces with
  | [] => []
  | p :: ps =>
      p ++ match seps with
           | [] => []
           | sp :: ss => sp ++ interleave ps ss
           end
  end.

Section SplitFacts.

Variable fl : flags.
Variable r : regex.

Lemma matchLen_le (prev : option char) (s : str) (n : nat) :
  matchLen fl r prev s = Some n -> n <= length s.
Proof.
  unfold matchLen. destruct (run fl r prev s) as [|[p rest] tl]; [discriminate|].
  intros [= <-]. lia.
Qed.

(** Passing over the rest of a separator. *)
Lemma splitFrom_skip (s : str) :
  forall k prev acc, k <= length s ->
    exists prev',
      splitFrom fl r prev k acc s = splitFrom fl r prev' 0 acc (skipn k s).
Proof.
  induction s as [|c s IH]; intros k prev acc Hk.
  - simpl in Hk. replace k with 0 by lia. exists prev. reflexivity.
  - destruct k as [|k]; [exists prev; reflexivity|].
    simpl in Hk. simpl. apply IH. lia.
Qed.

(** A separator is a text the pattern matches, in some context. *)
Definition separator (m : str) : Prop :=
  exists prev rest, matchLen fl r prev (m ++ rest) = Some (length m).

(** The pieces are the text between the separators, in order. *)
Lemma splitFrom_interleave (n : nat) :
  forall s, length s <= n -> forall prev acc,
    exists seps,
      length (splitFrom fl r prev 0 acc s) = S (length seps)
      /\ interleave (splitFrom fl r prev 0 acc s) seps = rev acc ++ s
      /\ Forall separator seps.
Proof.
  induction n as [|n IH]; intros s Hn prev acc.
  - destruct s; [|simpl in Hn; lia].
    exists []. simpl. rewrite !app_nil_r. auto.
  - destruct s as [|c s].
    { exists []. simpl. rewrite !app_nil_r. auto. }
    simpl in Hn. simpl.
    destruct (matchLen fl r prev (c :: s)) as [[|k]|] eqn:M.
    + destruct acc as [|a acc].
      * destruct (IH s ltac:(lia) (Some c) [c]) as (seps & L & I & F).
        exists seps. auto.
      * destruct (IH s ltac:(lia) (Some c) [c]) as (seps & L & I & F).
        exists ([] :: seps). simpl. rewrite L, I. simpl.
        split; [reflexivity|split; [reflexivity|]].
        constructor; [|exact F]. exists prev, (c :: s). exact M.
    + pose proof (matchLen_le _ _ M) as Hk. simpl in Hk.
      destruct (splitFrom_skip s (Some c) [] (k := k) ltac:(lia)) as (prev' & E).
      rewrite E.
      destruct (IH (skipn k s) ltac:(rewrite length_skipn; lia) prev' [])
        as (seps & L & I & F).
      exists ((c :: firstn k s) :: seps). simpl. rewrite L, I. simpl.
      rewrite firstn_skipn.
      split; [reflexivity|split; [reflexivity|]].
      constructor; [|exact F]. exists prev, (skipn k s). simpl.
      rewrite firstn_skipn, length_firstn, Nat.min_l by lia. exact M.
    + destruct (IH s ltac:(lia) (Some c) (c :: acc)) as (seps & L & I & F).
      exists seps. simpl in I. rewrite <- app_assoc in I. auto.
Qed.

(** No match starts inside [p] when [p] is followed by [rest]. *)
Definition hitFree (p rest : str) : Prop :=
  forall a c b, p = a ++ c :: b ->
    exists prev,
      matchLen fl r prev (c :: b ++ rest) = None
      \/ matchLen fl r prev (c :: b ++ rest) = Some 0.

Lemma hitFree_nil (rest : str) : hitFree [] rest.
Proof. intros a c b E. destruct a; discriminate E. Qed.

Lemma nil_or_snoc (A : Type) (l : list A) :
  l = [] \/ exists l' x, l = l' ++ [x].
Proof.
  destruct l as [|a l]; [now left|right].
  destruct (@exists_last _ (a :: l)) as (l' & x & E); [discriminate|eauto].
Qed.

Lemma hitFree_snoc (p : str) (c : char) (rest : str) (prev : option char) :
  hitFree p (c :: rest) ->
  (matchLen fl r prev (c :: rest) = None
   \/ matchLen fl r prev (c :: rest) = Some 0) ->
  hitFree (p ++ [c]) rest.
Proof.
  intros H M a c' b E.
  destruct (nil_or_snoc b) as [->|(b' & x & ->)].
  - apply app_inj_tail in E. destruct E as [_ ->]. exists prev. exact M.
  - change (a ++ c' :: b' ++ [x]) with (a ++ (c' :: b') ++ [x]) in E.
    rewrite app_assoc in E. apply app_inj_tail in E. destruct E as [E ->].
    rewrite <- app_assoc. simpl. apply (H a c' b' E).
Qed.

(** No piece contains the start of a match. *)
Lemma splitFrom_hitFree (n : nat) :
  forall s, length s <= n -> forall prev acc,
    hitFree (rev acc) s ->
    Forall (fun p => exists rest, hitFree p rest) (splitFrom fl r prev 0 acc s).
Proof.
  induction n as [|n IH]; intros s Hn prev acc Hacc.
  - destruct s; [|simpl in Hn; lia].
    simpl. constructor; [|constructor]. eauto.
  - destruct s as [|c s].
    { simpl. constructor; [|constructor]. eauto. }
    simpl in Hn. simpl.
    destruct (matchLen fl r prev (c :: s)) as [[|k]|] eqn:M.
    + assert (H1 : hitFree (rev [c]) s).
      { apply (@hitFree_snoc [] c s prev); [apply hitFree_nil|now right]. }
      destruct acc as [|a acc].
      * apply IH; [lia|exact H1].
      * constructor; [eauto|]. apply IH; [lia|exact H1].
    + pose proof (matchLen_le _ _ M) as Hk. simpl in Hk.
      destruct (splitFrom_skip s (Some c) [] (k := k) ltac:(lia)) as (prev' & E).
      rewrite E. constructor; [eauto|].
      apply IH; [rewrite length_skipn; lia|apply hitFree_nil].
    + apply IH; [lia|]. simpl.
      apply (@hitFree_snoc (rev acc) c s prev); [exact Hacc|now left].
Qed.

Lemma split_interleave (s : str) :
  s <> [] ->
  exists seps,
    length (split fl r s) = S (length seps)
    /\ interleave (split fl r s) seps = s
    /\ Forall separator seps.
Proof.
  intros Hs. destruct s as [|c s]; [contradiction|].
  apply (@splitFrom_interleave (length (c :: s)) (c :: s) (Nat.le_refl _) None []).
Qed.

Lemma split_hitFree (s : str) :
  s <> [] ->
  Forall (fun p => exists rest, hitFree p rest) (split fl r s).
Proof.
  intros Hs. destruct s as [|c s]; [contradiction|].
  apply (@splitFrom_hitFree (length (c :: s)) (c :: s) (Nat.le_refl _) None []).
  apply hitFree_nil.
Qed.

End SplitFacts.

End RegexFacts.

(** ** The renderer and the date formatter *)

Module RenderFacts.
Import JS Regex Discussion JSFacts.

Section Render.

Variable parseDate : str -> option Z.
Variable formatEnUS : Z -> str.
Variable toUpperCase : str -> str.

Lemma errorHtml_not_body (message title time body : str) :
  errorHtml message <> bodyHtml title time body.
Proof.
  unfold errorHtml, bodyHtml. intros H.
  apply (f_equal (fun l => nth 25 l 0%N)) in H.
  vm_compute in H. discriminate H.
Qed.

(** C2: a bulletin whose text is empty or all white space puts the widget
    in the error state with the message "No discussion available"; the
    content is the error block and not the header and formatted body. *)
Theorem render_blank_text_is_error (w : widget) (data : bulletin)
        (p : properties) (t : str) :
  currentData w = Some data ->
  props data = Some p ->
  text p = Some t ->
  allSpace t ->
  render parseDate formatEnUS toUpperCase w
    = Ok (showError w (lit "No discussion available"))
  /\ content (showError w (lit "No discussion available"))
       = errorHtml (lit "No discussion available")
  /\ forall title time body,
       content (showError w (lit "No discussion available"))
         <> bodyHtml title time body.
Proof.
  intros Hd Hp Ht Hs. split; [|split; [reflexivity|]].
  - unfold render. rewrite Hd, Hp, Ht.
    rewrite (trim_allSpace Hs). simpl.
    now rewrite orb_true_r.
  - intros title time body. apply errorHtml_not_body.
Qed.

(** C9: with [currentData] null, or without a [properties] field, [render]
    shows the loading state and builds neither header nor body. *)
Theorem render_without_data_is_loading (w : widget) :
  (currentData w = None
   \/ exists data, currentData w = Some data /\ props data = None) ->
  render parseDate formatEnUS toUpperCase w = Ok (showLoading w)
  /\ content (showLoading w) = loadingHtml
  /\ (forall message, loadingHtml <> errorHtml message)
  /\ (forall title time body, loadingHtml <> bodyHtml title time body).
Proof.
  intros H. split; [|split; [reflexivity|split]].
  - unfold render.
    destruct H as [H|[data [H1 H2]]]; [now rewrite H|now rewrite H1, H2].
  - intros message E.
    apply (f_equal (fun l => nth 0 l 0%N)) in E. vm_compute in E. discriminate E.
  - intros title time body E.
    apply (f_equal (fun l => nth 0 l 0%N)) in E. vm_compute in E. discriminate E.
Qed.

(** C3 (the first half fails): an Invalid Date object is not falsy and
    [toLocaleDateString] does not throw for it, so [formatDate] returns
    "Invalid Date" and not "Unknown"; the same for a string that
    [Date.parse] rejects.  [render] calls [formatDate(new Date(updated))],
    so a bulletin with an unparseable [updated] and no [issuedTime] gets
    the header time "Invalid Date". *)
Theorem formatDate_invalid_date :
  formatDate parseDate formatEnUS (DDate None) = Ok (lit "Invalid Date")
  /\ lit "Invalid Date" <> lit "Unknown"
  /\ (forall s, isEmpty s = false -> parseDate s = None ->
        formatDate parseDate formatEnUS (DString s) = Ok (lit "Invalid Date"))
  /\ (forall w data o n t s,
        currentData w = Some data ->
        props data = Some (Properties o n (Some t) (DString s) None) ->
        isEmpty t || (length (trim t) =? 0) = false ->
        parseDate s = None ->
        render parseDate formatEnUS toUpperCase w
        = Ok (setContent w (bodyHtml (orElse n o) (lit "Invalid Date")
                                     (formatText toUpperCase t)))).
Proof.
  split; [reflexivity|split; [discriminate|split]].
  - intros s Hs Hp. unfold formatDate. simpl. rewrite Hs. simpl.
    now rewrite Hp.
  - intros w data o n t s Hd Hp Ht Hs. unfold render.
    rewrite Hd, Hp. cbn [text issuedTime updated officeName office].
    rewrite Ht. cbn [newDate bind]. rewrite Hs. reflexivity.
Qed.

(** The exception half of C3: [formatDate] returns a string for every
    input; what is thrown inside [try] is caught. *)
Lemma formatDate_never_throws (d : dateLike) :
  exists s, formatDate parseDate formatEnUS d = Ok s.
Proof.
  unfold formatDate.
  destruct (falsy d); [eexists; reflexivity|].
  destruct d as [| |s|t|t|]; simpl;
    try (eexists; reflexivity);
    match goal with
    | |- context [toLocaleDateString _ ?x] =>
        destruct x; simpl; eexists; reflexivity
    end.
Qed.

End Render.

(** A platform in which no string parses as a date, and one rendering. *)
Definition noParse : str -> option Z := fun _ => None.
Definition sampleFormat : Z -> str := fun _ => lit "Jan 1, 12:00 AM".

Definition blankBulletin : bulletin :=
  Bulletin (Some (Properties (Some (lit "AJK")) None (Some (lit "  "))
                             DUndefined None)).

Lemma render_blank_text_is_error_witness :
  let w := Widget (Some blankBulletin) None [] in
  (currentData w = Some blankBulletin
   /\ props blankBulletin
      = Some (Properties (Some (lit "AJK")) None (Some (lit "  ")) DUndefined None)
   /\ allSpace (lit "  "))
  /\ render noParse sampleFormat toUpperCaseLatin w
       = Ok (showError w (lit "No discussion available")).
Proof.
  intros w. split.
  - split; [reflexivity|split; [reflexivity|repeat constructor]].
  - apply (@render_blank_text_is_error noParse sampleFormat toUpperCaseLatin w
             blankBulletin
             (Properties (Some (lit "AJK")) None (Some (lit "  ")) DUndefined None)
             (lit "  ")); try reflexivity.
    repeat constructor.
Defined.

Lemma render_without_data_is_loading_witness :
  let w := Widget (Some (Bulletin None)) None [] in
  (exists data, currentData w = Some data /\ props data = None)
  /\ render noParse sampleFormat toUpperCaseLatin w = Ok (showLoading w).
Proof.
  intros w. split.
  - exists (Bulletin None). split; reflexivity.
  - apply (@render_without_data_is_loading noParse sampleFormat toUpperCaseLatin w).
    right. exists (Bulletin None). split; reflexivity.
Defined.

End RenderFacts.

(** ** The text formatter *)

Module FormatFacts.
Import JS Regex Discussion JSFacts RegexFacts.

(** *** The two splitting patterns *)

Definition isNL (c : char) : bool := N.eqb c NL.
Definition isDot (c : char) : bool := N.eqb c 46%N.

(** The match of [/\n\n+|\.{3,}/] at the start of [s]: a run of two or more
    newlines, else a run of three or more dots. *)
Definition breakLen (s : str) : option nat :=
  if 2 <=? runLen isNL s then Some (runLen isNL s)
  else if 3 <=? runLen isDot s then Some (runLen isDot s)
  else None.

(** The match of [/\.\s+/] at the start of [s]: a dot and the white space
    after it. *)
Definition sepLen (s : str) : option nat :=
  match s with
  | [] => None
  | c :: s' =>
      if isDot c && (1 <=? runLen isSpace s')
      then Some (S (runLen isSpace s'))
      else None
  end.

Lemma atomMatch_space (c : char) : atomMatch fl_g space c = isSpace c.
Proof. simpl. now rewrite orb_false_r. Qed.

Lemma matchLen_greedy (lo : nat) (a : atom) (prev : option char) (s : str) :
  matchLen fl_g (Rep true lo None a) prev s
  = if lo <=? runLen (atomMatch fl_g a) s
    then Some (runLen (atomMatch fl_g a) s) else None.
Proof.
  unfold matchLen.
  destruct (run_greedy_unbounded fl_g lo a prev s) as [H1 H2].
  destruct (Nat.leb_spec lo (runLen (atomMatch fl_g a) s)) as [H|H].
  - destruct (H1 H) as (p & tl & ->).
    rewrite length_skipn_sub; [reflexivity|apply runLen_le].
  - now rewrite (H2 H).
Qed.

Lemma matchLen_break (prev : option char) (s : str) :
  matchLen fl_g re_break prev s = breakLen s.
Proof.
  unfold breakLen, re_break, plus.
  destruct s as [|c s]; [reflexivity|].
  unfold matchLen. rewrite run_Alt, run_Seq, run_chr.
  change (atomMatch fl_g (AChr NL) c) with (isNL c).
  simpl runLen at 1 2.
  destruct (isNL c) eqn:Ec.
  - cbn [flat_map fst snd]. rewrite app_nil_r.
    destruct (run_greedy_unbounded fl_g 1 (AChr NL) (Some c) s) as [H1 H2].
    change (atomMatch fl_g (AChr NL)) with isNL in *.
    destruct (Nat.leb_spec 1 (runLen isNL s)) as [H|H].
    + destruct (H1 H) as (p & tl & ->). cbn [app length].
      pose proof (runLen_le isNL s). rewrite length_skipn.
      destruct (Nat.leb_spec 2 (S (runLen isNL s))); [f_equal; lia|lia].
    + rewrite (H2 H). cbn [app].
      destruct (Nat.leb_spec 2 (S (runLen isNL s))); [lia|].
      fold (matchLen fl_g (Rep true 3 None (AChr 46%N)) prev (c :: s)).
      rewrite matchLen_greedy. reflexivity.
  - cbn [flat_map app].
    fold (matchLen fl_g (Rep true 3 None (AChr 46%N)) prev (c :: s)).
    rewrite matchLen_greedy. reflexivity.
Qed.

Lemma matchLen_sentence (prev : option char) (s : str) :
  matchLen fl_g re_sentence prev s = sepLen s.
Proof.
  unfold sepLen, re_sentence, plus.
  destruct s as [|c s]; [reflexivity|].
  unfold matchLen. rewrite run_Seq, run_chr.
  change (atomMatch fl_g (AChr 46%N) c) with (isDot c).
  destruct (isDot c) eqn:Ec; [|reflexivity].
  cbn [flat_map fst snd]. rewrite app_nil_r.
  destruct (run_greedy_unbounded fl_g 1 space (Some c) s) as [H1 H2].
  rewrite (runLen_ext _ isSpace s atomMatch_space) in *.
  destruct (Nat.leb_spec 1 (runLen isSpace s)) as [H|H].
  - destruct (H1 H) as (p & tl & ->). cbn [app length andb].
    pose proof (runLen_le isSpace s). rewrite length_skipn. f_equal. lia.
  - rewrite (H2 H). reflexivity.
Qed.

Lemma const_allSpace (x : str) :
  allSpace x -> forall m, allSpace m -> allSpace (const x m).
Proof. intros H m _. exact H. Qed.

(** Cleaning an all-white-space text leaves nothing: every step replaces
    white space by white space and [trim] removes what is left. *)
Lemma clean_allSpace (t : str) : allSpace t -> clean t = [].
Proof.
  intros H. unfold clean. apply trim_allSpace.
  repeat (apply replaceAll_Forall;
          [apply const_allSpace; repeat constructor|]).
  exact H.
Qed.

(** C10: a non-empty text of white space only is formatted as the empty
    paragraph "<p></p>", while the empty text gives the empty string. *)
Theorem formatText_blank (toUpperCase : str -> str) (t : str) :
  t <> [] ->
  allSpace t ->
  formatText toUpperCase t = lit "<p></p>"
  /\ formatText toUpperCase [] = []
  /\ formatText toUpperCase t <> formatText toUpperCase [].
Proof.
  intros Hne Hs.
  assert (E : formatText toUpperCase t = lit "<p></p>").
  { unfold formatText. destruct t as [|c t]; [contradiction|].
    simpl isEmpty. cbv iota. rewrite (clean_allSpace Hs).
    vm_compute. reflexivity. }
  split; [exact E|split; [reflexivity|]].
  rewrite E. discriminate.
Qed.

Lemma formatText_blank_witness :
  ([SP; NL; TAB] <> [] /\ allSpace [SP; NL; TAB])
  /\ formatText toUpperCaseLatin [SP; NL; TAB] = lit "<p></p>".
Proof.
  split.
  - split; [discriminate|repeat constructor].
  - apply (@formatText_blank toUpperCaseLatin [SP; NL; TAB]);
      [discriminate|repeat constructor].
Defined.

(** C7: the sample sentence.  "LOW PRESSURE" and "TONIGHT" are wrapped in
    strong emphasis and "25 KT" in a weather-measurement span; "WINDS" is
    left as it is, since [\bWIND\b] does not match inside it. *)
Theorem formatText_sample (toUpperCase : str -> str) :
  formatText toUpperCase
    (lit "LOW PRESSURE moves through TONIGHT with WINDS to 25 KT.")
  = lit "<p><strong>LOW PRESSURE</strong> moves through <strong>TONIGHT</strong>"
    ++ lit " with WINDS to <span class=" ++ quoted "weather-measurement"
    ++ lit ">25 KT</span>.</p>".
Proof. vm_compute. reflexivity. Qed.

(** [t] has [pat] as a substring. *)
Definition contains (t pat : str) : Prop := exists a b, t = a ++ pat ++ b.

Lemma firstn_app_length (A : Type) (a b : list A) : firstn (length a) (a ++ b) = a.
Proof. induction a; simpl; [now destruct b|now f_equal]. Qed.

Lemma run_prefix (f : char -> bool) (m rest : str) :
  length m = runLen f (m ++ rest) -> Forall (fun c => f c = true) m.
Proof.
  intros E. rewrite <- (firstn_app_length m rest). rewrite E. apply firstn_runLen.
Qed.

Lemma Forall_eqb (x : char) (m : str) :
  Forall (fun c => N.eqb c x = true) m -> Forall (fun c => c = x) m.
Proof. apply Forall_impl. intros c. apply N.eqb_eq. Qed.

(** *** Counting sentence boundaries *)

(** The number of positions at which a dot is followed by white space. *)
Fixpoint countDS (s : str) : nat :=
  match s with
  | [] => 0
  | c :: s' =>
      match s' with
      | d :: _ => if isDot c && isSpace d then 1 else 0
      | [] => 0
      end + countDS s'
  end.

(** A boundary at the seam of [a] and [b]: [a] ends with a dot and [b]
    starts with white space. *)
Fixpoint endsWithDot (a : str) : bool :=
  match a with
  | [] => false
  | c :: a' => match a' with [] => isDot c | _ :: _ => endsWithDot a' end
  end.

Definition headIsSpace (b : str) : bool :=
  match b with d :: _ => isSpace d | [] => false end.

Definition junction (a b : str) : nat :=
  if endsWithDot a && headIsSpace b then 1 else 0.

Lemma countDS_app (a b : str) :
  countDS (a ++ b) = countDS a + junction a b + countDS b.
Proof.
  induction a as [|c a IH]; [reflexivity|].
  destruct a as [|c2 a].
  - unfold junction. simpl. destruct b as [|d b]; simpl.
    + now rewrite andb_false_r.
    + destruct (isDot c && isSpace d); reflexivity.
  - change (countDS ((c :: c2 :: a) ++ b))
      with ((if isDot c && isSpace c2 then 1 else 0) + countDS ((c2 :: a) ++ b)).
    rewrite IH.
    change (countDS (c :: c2 :: a))
      with ((if isDot c && isSpace c2 then 1 else 0) + countDS (c2 :: a)).
    change (junction (c :: c2 :: a) b) with (junction (c2 :: a) b). lia.
Qed.

Lemma space_not_dot (c : char) : isSpace c = true -> isDot c = false.
Proof.
  intros H. destruct (isDot c) eqn:E; [|reflexivity].
  apply N.eqb_eq in E. subst c. discriminate H.
Qed.

Lemma countDS_noDot (w : str) :
  Forall (fun c => isDot c = false) w -> countDS w = 0.
Proof.
  induction 1 as [|c w Hc _ IH]; [reflexivity|].
  simpl. rewrite Hc, IH. now destruct w.
Qed.

Lemma endsWithDot_noDot (w : str) :
  Forall (fun c => isDot c = false) w -> endsWithDot w = false.
Proof.
  induction 1 as [|c w Hc _ IH]; [reflexivity|].
  simpl. now destruct w.
Qed.

(** A dot and the white space after it. *)
Definition dotSpaces (m : str) : Prop :=
  exists w, m = 46%N :: w /\ w <> [] /\ allSpace w.

Lemma separator_sentence (m : str) : separator fl_g re_sentence m -> dotSpaces m.
Proof.
  intros (prev & rest & M). rewrite matchLen_sentence in M. unfold sepLen in M.
  destruct m as [|c w]; cbn [app length] in M.
  - destruct rest as [|c s]; [discriminate M|].
    destruct (isDot c && (1 <=? runLen isSpace s)); discriminate M.
  - destruct (isDot c) eqn:Ec; [|discriminate M]. cbn [andb] in M.
    destruct (Nat.leb_spec 1 (runLen isSpace (w ++ rest))) as [H|H];
      [|discriminate M].
    injection M as M. apply N.eqb_eq in Ec. subst c.
    exists w. split; [reflexivity|split].
    + intros ->. simpl in *. lia.
    + apply (run_prefix isSpace w rest). auto.
Qed.

Lemma hitFree_sentence (p rest : str) :
  hitFree fl_g re_sentence p rest -> countDS p = 0.
Proof.
  induction p as [|c p IH]; intros H; [reflexivity|].
  assert (Hp : hitFree fl_g re_sentence p rest).
  { intros a c' b E. apply (H (c :: a) c' b). simpl. now rewrite E. }
  simpl. rewrite (IH Hp). destruct p as [|d p]; [reflexivity|].
  destruct (H [] c (d :: p) eq_refl) as (prev & M).
  rewrite matchLen_sentence in M. simpl in M.
  destruct (isDot c); [|reflexivity].
  destruct (isSpace d); [|reflexivity].
  simpl in M. destruct M; discriminate.
Qed.

Lemma countDS_interleave (seps : list str) :
  forall pieces,
    Forall (fun p => countDS p = 0) pieces ->
    Forall dotSpaces seps ->
    length pieces = S (length seps) ->
    countDS (interleave pieces seps) = length seps.
Proof.
  induction seps as [|sp ss IH]; intros pieces Hp Hs L.
  - destruct pieces as [|p [|q ps]]; try discriminate L.
    simpl. rewrite app_nil_r. now inversion Hp.
  - destruct pieces as [|p ps]; [discriminate L|].
    inversion Hp as [|? ? Hp1 Hp2]; subst.
    inversion Hs as [|? ? (w & -> & Hw & Sw) Hs2]; subst.
    simpl in L. injection L as L.
    cbn [interleave].
    set (I := interleave ps ss) in *.
    assert (Hnd : Forall (fun c => isDot c = false) w).
    { revert Sw. apply Forall_impl. exact space_not_dot. }
    assert (J1 : junction p ((46%N :: w) ++ I) = 0).
    { unfold junction. cbn [app headIsSpace]. now rewrite andb_false_r. }
    assert (J2 : junction (46%N :: w) I = 0).
    { unfold junction. destruct w as [|d w]; [contradiction|].
      change (endsWithDot (46%N :: d :: w)) with (endsWithDot (d :: w)).
      now rewrite (endsWithDot_noDot Hnd). }
    assert (C : countDS (46%N :: w) = 1).
    { destruct w as [|d w]; [contradiction|].
      inversion Sw as [|? ? Sd Sw']; subst.
      change (countDS (46%N :: d :: w))
        with ((if isDot 46%N && isSpace d then 1 else 0) + countDS (d :: w)).
      rewrite Sd, (countDS_noDot Hnd). reflexivity. }
    rewrite countDS_app, Hp1. rewrite J1, countDS_app, J2, C.
    unfold I. rewrite (IH ps Hp2 Hs2 L). reflexivity.
Qed.

(** The number of sentences is one more than the number of dots followed by
    white space. *)
Lemma splitSentences_length (t : str) :
  length (splitSentences t) = S (countDS t).
Proof.
  destruct t as [|c t]; [reflexivity|].
  assert (Hne : c :: t <> []) by discriminate.
  unfold splitSentences.
  destruct (split_interleave fl_g re_sentence Hne) as (seps & L & I & F).
  rewrite L. f_equal. rewrite <- I at 1. symmetry.
  apply countDS_interleave; [| |exact L].
  - generalize (split_hitFree fl_g re_sentence Hne). apply Forall_impl.
    intros p (rest & H). apply (hitFree_sentence H).
  - revert F. apply Forall_impl. exact separator_sentence.
Qed.

(** No sentence contains a dot followed by white space. *)
Lemma splitSentences_pieces (t : str) :
  Forall (fun p => countDS p = 0) (splitSentences t).
Proof.
  destruct t as [|c t]; [repeat constructor|].
  assert (Hne : c :: t <> []) by discriminate.
  generalize (split_hitFree fl_g re_sentence Hne). apply Forall_impl.
  intros p (rest & H). apply (hitFree_sentence H).
Qed.

(** *** Trimming *)

Unset Implicit Arguments.

(** The first code unit, if any, is not white space. *)
Definition headOk (s : str) : Prop :=
  match s with
  | [] => True
  | c :: _ => isSpace c = false
  end.

(** Neither end of [s] is white space. *)
Definition noSpaceEnds (s : str) : Prop := headOk s /\ headOk (rev s).

Lemma headOk_dropWhile (s : str) : headOk (dropWhile isSpace s).
Proof.
  induction s as [|c s IH]; simpl; [exact I|].
  destruct (isSpace c) eqn:E; [exact IH|exact E].
Qed.

Lemma dropWhile_headOk (s : str) : headOk s -> dropWhile isSpace s = s.
Proof. destruct s as [|c s]; simpl; [reflexivity|]. now intros ->. Qed.

Lemma dropWhile_app_keep (b : str) :
  headOk b -> b <> [] -> forall a, exists z, dropWhile isSpace (a ++ b) = z ++ b.
Proof.
  intros Hb Hne a. induction a as [|d a IH].
  - exists []. simpl. now apply dropWhile_headOk.
  - simpl. destruct (isSpace d); [exact IH|]. now exists (d :: a).
Qed.

Lemma rev_not_nil (A : Type) (s : list A) : s <> [] -> rev s <> [].
Proof.
  intros H E. apply H. rewrite <- (rev_involutive s), E. reflexivity.
Qed.

Lemma trimEnd_keep (s : str) :
  headOk (rev s) -> s <> [] -> forall x, exists y, trimEnd (s ++ x) = s ++ y.
Proof.
  intros H Hne x. unfold trimEnd. rewrite rev_app_distr.
  destruct (dropWhile_app_keep (rev s) H (rev_not_nil _ s Hne) (rev x)) as (z & ->).
  exists (rev z). now rewrite rev_app_distr, rev_involutive.
Qed.

Lemma headOk_app (s x : str) : headOk s -> s <> [] -> headOk (s ++ x).
Proof. destruct s; [contradiction|auto]. Qed.

(** A text with solid ends stays a prefix under [trim], whatever follows. *)
Lemma trim_keep (s : str) :
  noSpaceEnds s -> s <> [] -> forall x, exists y, trim (s ++ x) = s ++ y.
Proof.
  intros [H1 H2] Hne x. unfold trim, trimStart.
  rewrite (dropWhile_headOk _ (headOk_app s x H1 Hne)).
  now apply trimEnd_keep.
Qed.

Lemma trim_fixed (s : str) : noSpaceEnds s -> trim s = s.
Proof.
  intros [H1 H2]. unfold trim, trimStart, trimEnd.
  rewrite (dropWhile_headOk _ H1), (dropWhile_headOk _ H2). apply rev_involutive.
Qed.

Lemma trimEnd_headOk (y : str) : headOk y -> headOk (trimEnd y).
Proof.
  destruct y as [|c y]; [intros _; exact I|]. intros Hc.
  destruct (trimEnd_keep [c] Hc ltac:(discriminate) y) as (z & E).
  simpl in E. rewrite E. exact Hc.
Qed.

Lemma trim_noSpaceEnds (x : str) : noSpaceEnds (trim x).
Proof.
  split.
  - apply trimEnd_headOk, headOk_dropWhile.
  - unfold trim, trimEnd. rewrite rev_involutive. apply headOk_dropWhile.
Qed.

Lemma dropWhile_suffix (f : char -> bool) (x : str) :
  exists a, x = a ++ dropWhile f x.
Proof.
  induction x as [|c x (a & IH)]; [now exists []|].
  simpl. destruct (f c); [|now exists []].
  exists (c :: a). simpl. now f_equal.
Qed.

(** [trim x] is a substring of [x]. *)
Lemma trim_substring (x : str) : exists a b, x = a ++ trim x ++ b.
Proof.
  destruct (dropWhile_suffix isSpace x) as (a & Ea).
  destruct (dropWhile_suffix isSpace (rev (trimStart x))) as (b & Eb).
  exists a, (rev b). unfold trim, trimEnd. rewrite <- rev_app_distr, <- Eb.
  now rewrite rev_involutive.
Qed.

Lemma countDS_trim (x : str) : countDS (trim x) <= countDS x.
Proof.
  destruct (trim_substring x) as (a & b & E).
  rewrite E at 2. rewrite !countDS_app. lia.
Qed.

Lemma isEmpty_true (s : str) : isEmpty s = true -> s = [].
Proof. destruct s; [reflexivity|discriminate]. Qed.

Lemma isEmpty_false (s : str) : isEmpty s = false -> s <> [].
Proof. destruct s; [discriminate|discriminate]. Qed.

(** *** Sentences as the loops see them *)

(** What the three loops require of a sentence: not empty, no white space
    at either end, and no sentence boundary inside. *)
Definition goodSentence (s : str) : Prop :=
  s <> [] /\ noSpaceEnds s /\ countDS s = 0.

Lemma startsWith_app (s x : str) : startsWith (s ++ x) s = true.
Proof. induction s as [|c s IH]; simpl; [reflexivity|]. now rewrite N.eqb_refl. Qed.

Lemma startsWith_split (s k : str) :
  startsWith s k = true -> exists r, s = k ++ r.
Proof.
  revert s. induction k as [|x k IH]; intros s H; [now exists s|].
  destruct s as [|y s]; [discriminate H|]. simpl in H.
  apply andb_prop in H. destruct H as [E H]. apply N.eqb_eq in E. subst y.
  destruct (IH s H) as (r & ->). now exists r.
Qed.

Lemma nextSentence_spec (raw : str) (rest : list str) (s : str) :
  countDS raw = 0 ->
  nextSentence raw rest = Some s ->
  goodSentence s
  /\ s = trim raw ++ match rest with [] => [] | _ :: _ => lit "." end.
Proof.
  intros Hc. unfold nextSentence.
  destruct (isEmpty (trim raw)) eqn:E; [discriminate|].
  apply isEmpty_false in E. intros [= <-].
  destruct (trim_noSpaceEnds raw) as [H1 H2].
  pose proof (countDS_trim raw) as Ht.
  destruct rest as [|r rest].
  - rewrite app_nil_r. repeat split; auto. lia.
  - split; [|reflexivity]. split; [|split].
    + intros H. apply app_eq_nil in H. destruct H as [_ H]. discriminate H.
    + split; [now apply headOk_app|].
      rewrite rev_app_distr. reflexivity.
    + rewrite countDS_app. unfold junction. simpl headIsSpace.
      rewrite andb_false_r. simpl. lia.
Qed.

Lemma countDS_append (cur s : str) :
  countDS s = 0 -> countDS (append cur s) <= countDS cur + 1.
Proof.
  intros Hs. unfold append. destruct cur as [|c cur]; simpl isEmpty; cbv iota.
  - simpl. lia.
  - rewrite !countDS_app, Hs. unfold junction.
    simpl (endsWithDot [SP]). simpl (countDS [SP]).
    destruct (endsWithDot (c :: cur) && headIsSpace ([SP] ++ s)); simpl; lia.
Qed.

Lemma pushIfAny_app (ps : list str) (c : str) :
  pushIfAny ps c = ps ++ pushIfAny [] c.
Proof.
  unfold pushIfAny, pushTrimmed. destruct (isEmpty (trim c)); simpl;
    [now rewrite app_nil_r|reflexivity].
Qed.

Lemma pushIfAny_good (s x : str) :
  goodSentence s -> exists y, pushIfAny [] (s ++ x) = [s ++ y].
Proof.
  intros (Hne & Hs & _). destruct (trim_keep s Hs Hne x) as (y & E).
  exists y. unfold pushIfAny, pushTrimmed. rewrite E.
  destruct s; [contradiction|reflexivity].
Qed.

Section SentenceLoop.

Variable toUpperCase : str -> str.

(** Lines 154-162: where the sentence goes. *)
Definition place (sentence cur : str) : list str * str :=
  if shouldStartNewParagraph toUpperCase sentence cur
  then (pushIfAny [] cur, sentence)
  else ([], append cur sentence).

(** The paragraphs pushed from a loop state on, the final push included. *)
Definition paragraphsFrom (l : list str) (cur : str) : list str :=
  pushIfAny (fst (sentenceLoop toUpperCase l [] cur))
            (snd (sentenceLoop toUpperCase l [] cur)).

Lemma sentenceLoop_acc (l : list str) :
  forall ps cur,
    sentenceLoop toUpperCase l ps cur
    = (ps ++ fst (sentenceLoop toUpperCase l [] cur),
       snd (sentenceLoop toUpperCase l [] cur)).
Proof.
  induction l as [|raw rest IH]; intros ps cur; cbn [sentenceLoop].
  - cbn [fst snd]. now rewrite app_nil_r.
  - destruct (nextSentence raw rest) as [s|]; [|apply IH].
    destruct (shouldStartNewParagraph toUpperCase s cur); cbv beta iota.
    + destruct (3 <=? length (splitSentences s)).
      * rewrite IH. rewrite (IH (pushTrimmed (pushIfAny [] cur) s)). cbn [fst snd].
        unfold pushTrimmed. rewrite (pushIfAny_app ps cur).
        now rewrite <- !app_assoc.
      * rewrite IH. rewrite (IH (pushIfAny [] cur)). cbn [fst snd].
        rewrite (pushIfAny_app ps cur). now rewrite <- !app_assoc.
    + destruct (3 <=? length (splitSentences (append cur s))).
      * rewrite IH. rewrite (IH (pushTrimmed [] (append cur s))). cbn [fst snd].
        unfold pushTrimmed. now rewrite <- !app_assoc.
      * apply IH.
Qed.

Lemma paragraphsFrom_nil (cur : str) : paragraphsFrom [] cur = pushIfAny [] cur.
Proof. reflexivity. Qed.

Lemma paragraphsFrom_cons (raw : str) (rest : list str) (cur : str) :
  paragraphsFrom (raw :: rest) cur
  = match nextSentence raw rest with
    | None => paragraphsFrom rest cur
    | Some s =>
        if 3 <=? length (splitSentences (snd (place s cur)))
        then fst (place s cur) ++ trim (snd (place s cur)) :: paragraphsFrom rest []
        else fst (place s cur) ++ paragraphsFrom rest (snd (place s cur))
    end.
Proof.
  unfold paragraphsFrom, place. cbn [sentenceLoop].
  destruct (nextSentence raw rest) as [s|]; [|reflexivity].
  destruct (shouldStartNewParagraph toUpperCase s cur); cbv beta iota; cbn [fst snd].
  - destruct (3 <=? length (splitSentences s)).
    + rewrite sentenceLoop_acc. cbn [fst snd].
      rewrite (pushIfAny_app (_ ++ _)), (pushIfAny_app (fst _)).
      unfold pushTrimmed. now rewrite <- !app_assoc.
    + rewrite sentenceLoop_acc. cbn [fst snd].
      rewrite (pushIfAny_app (_ ++ _)), (pushIfAny_app (fst _)).
      now rewrite <- !app_assoc.
  - destruct (3 <=? length (splitSentences (append cur s))).
    + rewrite sentenceLoop_acc. cbn [fst snd].
      rewrite (pushIfAny_app (_ ++ _)), (pushIfAny_app (fst _)).
      unfold pushTrimmed. now rewrite <- !app_assoc.
    + reflexivity.
Qed.

Lemma sentenceParagraphs_from (t : str) :
  sentenceParagraphs toUpperCase t = paragraphsFrom (splitSentences t) [].
Proof.
  unfold sentenceParagraphs, paragraphsFrom.
  now destruct (sentenceLoop toUpperCase (splitSentences t) [] []).
Qed.

(** Every pushed paragraph has at most three sentences. *)
Lemma paragraphsFrom_atMost3 (l : list str) :
  forall cur,
    Forall (fun p => countDS p = 0) l ->
    countDS cur <= 1 ->
    Forall (fun p => length (splitSentences p) <= 3) (paragraphsFrom l cur).
Proof.
  assert (P : forall c, countDS c <= 2 ->
                Forall (fun p => length (splitSentences p) <= 3) (pushIfAny [] c)).
  { intros c Hc. unfold pushIfAny, pushTrimmed.
    destruct (isEmpty (trim c)); [constructor|].
    constructor; [|constructor]. rewrite splitSentences_length.
    pose proof (countDS_trim c). lia. }
  induction l as [|raw rest IH]; intros cur Hl Hcur.
  - rewrite paragraphsFrom_nil. apply P. lia.
  - inversion Hl as [|? ? Hraw Hrest]; subst.
    rewrite paragraphsFrom_cons.
    destruct (nextSentence raw rest) as [s|] eqn:N; [|now apply IH].
    destruct (nextSentence_spec raw rest s Hraw N) as ((_ & _ & Hs) & _).
    unfold place.
    destruct (shouldStartNewParagraph toUpperCase s cur); cbn [fst snd].
    + rewrite splitSentences_length, Hs. cbn [Nat.leb].
      apply Forall_app. split; [apply P; lia|apply IH; [exact Hrest|lia]].
    + pose proof (countDS_append cur s Hs) as Ha.
      rewrite splitSentences_length.
      destruct (Nat.leb_spec 3 (S (countDS (append cur s)))) as [H|H]; cbn [app].
      * constructor; [|apply IH; [exact Hrest|simpl; lia]].
        rewrite splitSentences_length.
        pose proof (countDS_trim (append cur s)). lia.
      * apply IH; [exact Hrest|lia].
Qed.

(** Whatever the state, the paragraphs of a prefix come first. *)
Lemma paragraphsFrom_app (pre rest : list str) :
  rest <> [] ->
  forall cur, exists A cur',
    paragraphsFrom (pre ++ rest) cur = A ++ paragraphsFrom rest cur'.
Proof.
  intros Hrest. induction pre as [|raw pre IH]; intros cur.
  - now exists [], cur.
  - cbn [app]. rewrite paragraphsFrom_cons.
    destruct (nextSentence raw (pre ++ rest)) as [s|]; [|apply IH].
    destruct (3 <=? length (splitSentences (snd (place s cur)))).
    + destruct (IH []) as (A & cur' & ->).
      exists (fst (place s cur) ++ trim (snd (place s cur)) :: A), cur'.
      now rewrite <- app_assoc.
    + destruct (IH (snd (place s cur))) as (A & cur' & ->).
      exists (fst (place s cur) ++ A), cur'. now rewrite <- app_assoc.
Qed.

(** A paragraph that begins with [s] and is still open is pushed, beginning
    with [s], before the loop reaches [rest], or is still open there. *)
Lemma paragraphsFrom_pending (s : str) (mid rest : list str) :
  goodSentence s ->
  rest <> [] ->
  forall x, exists A cur',
    paragraphsFrom (mid ++ rest) (s ++ x) = A ++ paragraphsFrom rest cur'
    /\ ((A = [] /\ exists x', cur' = s ++ x')
        \/ exists P A', A = P :: A' /\ startsWith P s = true).
Proof.
  intros Hs Hrest. induction mid as [|raw mid IH]; intros x.
  - exists [], (s ++ x). split; [reflexivity|]. left. eauto.
  - cbn [app]. rewrite paragraphsFrom_cons.
    destruct (nextSentence raw (mid ++ rest)) as [s'|]; [|apply IH].
    unfold place.
    assert (Hne : isEmpty (s ++ x) = false).
    { destruct Hs as (Hne & _). destruct s; [contradiction|reflexivity]. }
    destruct (shouldStartNewParagraph toUpperCase s' (s ++ x)); cbn [fst snd].
    + destruct (pushIfAny_good s x Hs) as (y & ->).
      destruct (3 <=? length (splitSentences s')).
      * destruct (paragraphsFrom_app mid rest Hrest []) as (A & cur' & ->).
        exists ((s ++ y) :: trim s' :: A), cur'. split; [reflexivity|].
        right. exists (s ++ y), (trim s' :: A). split; [reflexivity|].
        apply startsWith_app.
      * destruct (paragraphsFrom_app mid rest Hrest s') as (A & cur' & ->).
        exists ((s ++ y) :: A), cur'. split; [reflexivity|].
        right. exists (s ++ y), A. split; [reflexivity|apply startsWith_app].
    + assert (E : append (s ++ x) s' = s ++ (x ++ [SP] ++ s')).
      { unfold append. rewrite Hne. now rewrite <- app_assoc. }
      rewrite E. cbn [app].
      destruct (3 <=? length (splitSentences (s ++ x ++ SP :: s'))).
      * destruct (paragraphsFrom_app mid rest Hrest []) as (A & cur' & ->).
        destruct Hs as (Hne' & Hends & _).
        destruct (trim_keep s Hends Hne' (x ++ SP :: s')) as (y & ->).
        exists ((s ++ y) :: A), cur'. split; [reflexivity|].
        right. exists (s ++ y), A. split; [reflexivity|apply startsWith_app].
      * apply IH.
Qed.

(** An open paragraph that begins with [s] is pushed beginning with [s]. *)
Lemma paragraphsFrom_open (s : str) (l : list str) :
  goodSentence s ->
  forall x, exists P more,
    paragraphsFrom l (s ++ x) = P :: more /\ startsWith P s = true.
Proof.
  intros Hs. induction l as [|raw l IH]; intros x.
  - rewrite paragraphsFrom_nil. destruct (pushIfAny_good s x Hs) as (y & ->).
    exists (s ++ y), []. split; [reflexivity|apply startsWith_app].
  - rewrite paragraphsFrom_cons.
    destruct (nextSentence raw l) as [s'|]; [|apply IH].
    unfold place.
    assert (Hne : isEmpty (s ++ x) = false).
    { destruct Hs as (Hne & _). destruct s; [contradiction|reflexivity]. }
    destruct (shouldStartNewParagraph toUpperCase s' (s ++ x)); cbn [fst snd].
    + destruct (pushIfAny_good s x Hs) as (y & ->).
      destruct (3 <=? length (splitSentences s')); cbn [app];
        eexists; eexists; (split; [reflexivity|apply startsWith_app]).
    + assert (E : append (s ++ x) s' = s ++ (x ++ [SP] ++ s')).
      { unfold append. rewrite Hne. now rewrite <- app_assoc. }
      rewrite E. cbn [app].
      destruct (3 <=? length (splitSentences (s ++ x ++ SP :: s'))).
      * destruct Hs as (Hne' & Hends & _).
        destruct (trim_keep s Hends Hne' (x ++ SP :: s')) as (y & ->).
        eexists; eexists; (split; [reflexivity|apply startsWith_app]).
      * apply IH.
Qed.

(** A sentence set off by the keyword test. *)
Definition keywordStart (s : str) : Prop :=
  forall cur, cur <> [] -> shouldStartNewParagraph toUpperCase s cur = true.

(** A keyword sentence closes the open paragraph and opens its own. *)
Lemma paragraphsFrom_keyword (raw : str) (rest : list str) (s cur : str) :
  nextSentence raw rest = Some s ->
  goodSentence s ->
  keywordStart s ->
  paragraphsFrom (raw :: rest) cur = pushIfAny [] cur ++ paragraphsFrom rest s.
Proof.
  intros N (Hne & Hends & Hc) K.
  rewrite paragraphsFrom_cons, N.
  assert (E : place s cur = (pushIfAny [] cur, s)).
  { unfold place. destruct cur as [|c cur]; [reflexivity|].
    rewrite K by discriminate. reflexivity. }
  rewrite E. cbn [fst snd]. rewrite splitSentences_length, Hc. reflexivity.
Qed.

End SentenceLoop.

(** *** Sentence-based breaking *)

Lemma splitFrom_noMatch (fl : flags) (r : regex) (s : str) :
  forall prev acc,
    (forall a c b prev', s = a ++ c :: b -> matchLen fl r prev' (c :: b) = None) ->
    splitFrom fl r prev 0 acc s = [rev acc ++ s].
Proof.
  induction s as [|c s IH]; intros prev acc H; cbn [splitFrom].
  - now rewrite app_nil_r.
  - rewrite (H [] c s prev eq_refl).
    rewrite IH; [cbn [rev]; now rewrite <- app_assoc|].
    intros a c' b prev' E. apply (H (c :: a) c' b prev'). now rewrite E.
Qed.

Lemma breakLen_None (x : str) :
  (forall x', x <> NL :: NL :: x') ->
  (forall x', x <> 46%N :: 46%N :: 46%N :: x') ->
  breakLen x = None.
Proof.
  intros H1 H2. unfold breakLen.
  destruct (Nat.leb_spec 2 (runLen isNL x)) as [H|_].
  { exfalso. destruct x as [|c [|d x]]; simpl in H;
      [lia|destruct (isNL c); simpl in H; lia|].
    destruct (isNL c) eqn:Ec; [|lia].
    destruct (isNL d) eqn:Ed; [|lia].
    apply N.eqb_eq in Ec, Ed. subst. now apply (H1 x). }
  destruct (Nat.leb_spec 3 (runLen isDot x)) as [H|_]; [|reflexivity].
  exfalso. destruct x as [|c [|d [|e x]]]; simpl in H;
    [lia|destruct (isDot c); simpl in H; lia
    |destruct (isDot c); [destruct (isDot d)|]; simpl in H; lia|].
  destruct (isDot c) eqn:Ec; [|lia].
  destruct (isDot d) eqn:Ed; [|lia].
  destruct (isDot e) eqn:Ee; [|lia].
  apply N.eqb_eq in Ec, Ed, Ee. subst. now apply (H2 x).
Qed.

(** Without a double newline and without three dots in a row, the first
    split gives one piece. *)
Lemma split_break_single (t : str) :
  ~ contains t [NL; NL] ->
  ~ contains t (lit "...") ->
  split fl_g re_break t = [t].
Proof.
  intros H1 H2. destruct t as [|c t]; [reflexivity|].
  unfold split. apply (splitFrom_noMatch fl_g re_break (c :: t) None []).
  intros a c' b prev' E. rewrite matchLen_break. apply breakLen_None.
  - intros x' Hx. apply H1. exists a, x'. now rewrite E, Hx.
  - intros x' Hx. apply H2. exists a, x'. now rewrite E, Hx.
Qed.

(** [toUpperCase] keeps a section keyword at the start of a text. *)
Definition keepsKeywords (toUpperCase : str -> str) : Prop :=
  forall k r, In k newSectionKeywords -> startsWith (toUpperCase (k ++ r)) k = true.

Lemma keywordStart_intro (toUpperCase : str -> str) (k s : str) :
  keepsKeywords toUpperCase ->
  In k newSectionKeywords ->
  startsWith s k = true ->
  keywordStart toUpperCase s.
Proof.
  intros Hup Hk Hs cur Hcur. unfold shouldStartNewParagraph.
  destruct cur as [|c cur]; [contradiction|]. cbn [isEmpty].
  apply existsb_exists. exists k. split; [exact Hk|].
  destruct (startsWith_split s k Hs) as (r & ->).
  now rewrite (Hup k r Hk).
Qed.

Lemma startsWith_trans (p s k : str) :
  startsWith p s = true -> startsWith s k = true -> startsWith p k = true.
Proof.
  intros H1 H2.
  destruct (startsWith_split p s H1) as (r & ->).
  destruct (startsWith_split s k H2) as (r' & ->).
  rewrite <- app_assoc. apply startsWith_app.
Qed.

(** *** What closes a paragraph *)

Section SizeRule.

Variable toUpperCase : str -> str.

(** [q] begins with a sentence that the keyword test sets off. *)
Definition keywordHead (q : str) : Prop :=
  exists s, goodSentence s /\ keywordStart toUpperCase s /\ startsWith q s = true.

(** Every paragraph but the last was closed by the size rule, and then it
    has three sentences, or by a keyword sentence, which begins the next
    paragraph. *)
Fixpoint closedInTurn (l : list str) : Prop :=
  match l with
  | [] => True
  | p :: l' =>
      match l' with
      | [] => True
      | q :: _ => length (splitSentences p) = 3 \/ keywordHead q
      end
      /\ closedInTurn l'
  end.

Lemma shouldStart_keywordStart (s cur : str) :
  shouldStartNewParagraph toUpperCase s cur = true -> keywordStart toUpperCase s.
Proof.
  unfold keywordStart, shouldStartNewParagraph.
  destruct cur as [|c cur]; [discriminate|]. cbn [isEmpty].
  intros H cur' Hne. destruct cur' as [|c' cur']; [contradiction|exact H].
Qed.

Lemma append_noSpaceEnds (cur s : str) :
  noSpaceEnds cur -> goodSentence s -> noSpaceEnds (append cur s).
Proof.
  intros [H1 H2] (Hne & [K1 K2] & _). unfold append.
  destruct cur as [|c cur]; [exact (conj K1 K2)|]. cbn [isEmpty].
  split.
  - exact H1.
  - rewrite !rev_app_distr. rewrite <- app_assoc.
    apply headOk_app; [exact K2|now apply rev_not_nil].
Qed.

Lemma closedInTurn_adjacent (l : list str) :
  closedInTurn l ->
  forall A P Q C, l = A ++ P :: Q :: C ->
    length (splitSentences P) = 3 \/ keywordHead Q.
Proof.
  intros H A. revert l H. induction A as [|x A IH]; intros l H P Q C ->.
  - exact (proj1 H).
  - destruct H as [_ H]. exact (IH _ H P Q C eq_refl).
Qed.

(** The size rule closes a paragraph when it has three sentences and not
    before. *)
Lemma paragraphsFrom_closed (l : list str) :
  forall cur,
    Forall (fun p => countDS p = 0) l ->
    noSpaceEnds cur ->
    countDS cur <= 1 ->
    closedInTurn (paragraphsFrom toUpperCase l cur).
Proof.
  induction l as [|raw rest IH]; intros cur Hl Hends Hcur.
  - rewrite paragraphsFrom_nil. unfold pushIfAny, pushTrimmed.
    destruct (isEmpty (trim cur)); cbn; auto.
  - inversion Hl as [|? ? Hraw Hrest]; subst.
    rewrite paragraphsFrom_cons.
    destruct (nextSentence raw rest) as [s|] eqn:N; [|now apply IH].
    destruct (nextSentence_spec raw rest s Hraw N) as (Hs & _).
    pose proof Hs as (Hne & Hse & Hsc).
    unfold place.
    destruct (shouldStartNewParagraph toUpperCase s cur) eqn:K; cbn [fst snd].
    + rewrite splitSentences_length, Hsc. cbn [Nat.leb].
      assert (R : closedInTurn (paragraphsFrom toUpperCase rest s)).
      { apply IH; [exact Hrest|exact Hse|lia]. }
      unfold pushIfAny, pushTrimmed.
      destruct (isEmpty (trim cur)); cbn [app]; [exact R|].
      destruct (paragraphsFrom_open toUpperCase s rest Hs []) as (P & more & E & HP).
      rewrite app_nil_r in E. rewrite E in R |- *.
      split; [|exact R]. right. exists s.
      split; [exact Hs|]. split; [|exact HP].
      exact (shouldStart_keywordStart s cur K).
    + pose proof (countDS_append cur s Hsc) as Ha.
      pose proof (append_noSpaceEnds cur s Hends Hs) as He.
      rewrite splitSentences_length.
      destruct (Nat.leb_spec 3 (S (countDS (append cur s)))) as [H|H]; cbn [app].
      * assert (R : closedInTurn (paragraphsFrom toUpperCase rest [])).
        { apply IH; [exact Hrest|split; exact I|simpl; lia]. }
        split; [|exact R].
        destruct (paragraphsFrom toUpperCase rest []); [exact I|].
        left. rewrite (trim_fixed _ He), splitSentences_length. lia.
      * apply IH; [exact Hrest|exact He|lia].
Qed.

End SizeRule.

(** C4: in a text without double newlines and without three dots in a row,
    where a sentence begins with SYNOPSIS and a later one with TONIGHT, the
    sentence-based breaking pushes a paragraph that begins with the first
    of them and, later, another that begins with the second.  No paragraph
    it pushes has more than three sentences, and none is closed early: a
    paragraph that is followed by another has three sentences exactly,
    unless the one after it begins with a sentence that the keyword test
    sets off. *)
Theorem sentence_breaking (toUpperCase : str -> str) (t : str)
        (pre mid post : list str) (r1 r2 : str) :
  keepsKeywords toUpperCase ->
  ~ contains t [NL; NL] ->
  ~ contains t (lit "...") ->
  splitSentences t = pre ++ r1 :: mid ++ r2 :: post ->
  startsWith (trim r1) (lit "SYNOPSIS") = true ->
  startsWith (trim r2) (lit "TONIGHT") = true ->
  length (split fl_g re_break t) = 1
  /\ (exists A P1 B P2 C,
        initialParagraphs toUpperCase t = A ++ P1 :: B ++ P2 :: C
        /\ startsWith P1 (trim r1 ++ lit ".") = true
        /\ startsWith P1 (lit "SYNOPSIS") = true
        /\ startsWith P2 (trim r2) = true
        /\ startsWith P2 (lit "TONIGHT") = true)
  /\ Forall (fun p => length (splitSentences p) <= 3)
            (initialParagraphs toUpperCase t)
  /\ (forall A P Q C,
        initialParagraphs toUpperCase t = A ++ P :: Q :: C ->
        length (splitSentences P) = 3 \/ keywordHead toUpperCase Q).
Proof.
  intros Hup Hnl Hdots Hsplit Hk1 Hk2.
  assert (Hone : split fl_g re_break t = [t]) by now apply split_break_single.
  assert (Hinit : initialParagraphs toUpperCase t
                  = paragraphsFrom toUpperCase (splitSentences t) []).
  { unfold initialParagraphs. rewrite Hone. cbn [length Nat.eqb].
    apply sentenceParagraphs_from. }
  pose proof (splitSentences_pieces t) as Hpieces.
  split; [now rewrite Hone|]. rewrite Hinit.
  assert (Hsize : Forall (fun p => length (splitSentences p) <= 3)
                    (paragraphsFrom toUpperCase (splitSentences t) [])
                  /\ (forall A P Q C,
                        paragraphsFrom toUpperCase (splitSentences t) []
                        = A ++ P :: Q :: C ->
                        length (splitSentences P) = 3
                        \/ keywordHead toUpperCase Q)).
  { split.
    - apply paragraphsFrom_atMost3; [exact Hpieces|simpl; lia].
    - apply closedInTurn_adjacent.
      apply paragraphsFrom_closed; [exact Hpieces|split; exact I|simpl; lia]. }
  split; [|exact Hsize]. clear Hsize.
  rewrite Hsplit in Hpieces |- *.
  apply Forall_app in Hpieces. destruct Hpieces as [_ Hp].
  inversion Hp as [|? ? Hr1 Hp']; subst.
  apply Forall_app in Hp'. destruct Hp' as [_ Hp'].
  inversion Hp' as [|? ? Hr2 _]; subst.
  (* the two keyword sentences as the loop sees them *)
  set (s1 := trim r1 ++ lit ".").
  set (s2 := trim r2 ++ match post with [] => [] | _ :: _ => lit "." end).
  assert (N1 : nextSentence r1 (mid ++ r2 :: post) = Some s1).
  { unfold nextSentence.
    replace (isEmpty (trim r1)) with false
      by (destruct (trim r1); [discriminate Hk1|reflexivity]).
    now destruct mid. }
  assert (N2 : nextSentence r2 post = Some s2).
  { unfold nextSentence.
    replace (isEmpty (trim r2)) with false
      by (destruct (trim r2); [discriminate Hk2|reflexivity]).
    unfold s2. destruct post; [now rewrite app_nil_r|reflexivity]. }
  destruct (nextSentence_spec r1 _ s1 Hr1 N1) as (G1 & _).
  destruct (nextSentence_spec r2 _ s2 Hr2 N2) as (G2 & _).
  assert (S1 : startsWith s1 (lit "SYNOPSIS") = true).
  { apply (startsWith_trans _ (trim r1)); [apply startsWith_app|exact Hk1]. }
  assert (S2 : startsWith s2 (lit "TONIGHT") = true).
  { apply (startsWith_trans _ (trim r2)); [apply startsWith_app|exact Hk2]. }
  assert (K1 : keywordStart toUpperCase s1).
  { apply (keywordStart_intro toUpperCase (lit "SYNOPSIS")); auto.
    vm_compute. auto. }
  assert (K2 : keywordStart toUpperCase s2).
  { apply (keywordStart_intro toUpperCase (lit "TONIGHT")); auto.
    vm_compute. auto 10. }
  (* up to the first keyword sentence, then up to the second *)
  destruct (paragraphsFrom_app toUpperCase pre (r1 :: mid ++ r2 :: post)
              ltac:(discriminate) []) as (A0 & c0 & ->).
  rewrite (paragraphsFrom_keyword toUpperCase r1 _ s1 c0 N1 G1 K1).
  destruct (paragraphsFrom_pending toUpperCase s1 mid (r2 :: post) G1
              ltac:(discriminate) []) as (A1 & c1 & E1 & Hpend).
  rewrite app_nil_r in E1. rewrite E1.
  rewrite (paragraphsFrom_keyword toUpperCase r2 _ s2 c1 N2 G2 K2).
  destruct (paragraphsFrom_open toUpperCase s2 post G2 []) as (P2 & C & E2 & HP2).
  rewrite app_nil_r in E2. rewrite E2.
  assert (T1 : forall P, startsWith P s1 = true ->
                 startsWith P (trim r1 ++ lit ".") = true
                 /\ startsWith P (lit "SYNOPSIS") = true).
  { intros P HP. split; [exact HP|now apply (startsWith_trans P s1)]. }
  assert (T2 : startsWith P2 (trim r2) = true
               /\ startsWith P2 (lit "TONIGHT") = true).
  { split; [|now apply (startsWith_trans P2 s2)].
    apply (startsWith_trans P2 s2); [exact HP2|apply startsWith_app]. }
  destruct Hpend as [(-> & x' & ->)|(P1 & A1' & -> & HP1)].
  - destruct (pushIfAny_good s1 x' G1) as (y & ->).
    exists (A0 ++ pushIfAny [] c0), (s1 ++ y), [], P2, C.
    split; [now rewrite <- !app_assoc|].
    destruct (T1 (s1 ++ y) (startsWith_app s1 y)). tauto.
  - exists (A0 ++ pushIfAny [] c0), P1, (A1' ++ pushIfAny [] c1), P2, C.
    split; [cbn [app]; now rewrite <- !app_assoc|].
    destruct (T1 P1 HP1). tauto.
Qed.

(** [String.prototype.includes]. *)
Fixpoint includes (t pat : str) : bool :=
  startsWith t pat
  || match t with
     | [] => false
     | _ :: t' => includes t' pat
     end.

Lemma contains_includes (t pat : str) : contains t pat -> includes t pat = true.
Proof.
  intros (a & b & ->). induction a as [|c a IH].
  - cbn [app]. destruct (pat ++ b) eqn:E; cbn [includes];
      rewrite <- E, startsWith_app; reflexivity.
  - cbn [app includes]. rewrite IH. apply orb_true_r.
Qed.

Lemma keepsKeywords_latin : keepsKeywords toUpperCaseLatin.
Proof.
  intros k r Hk. unfold toUpperCaseLatin. rewrite map_app.
  assert (F : Forall (fun k => List.map canon k = k) newSectionKeywords)
    by (vm_compute; repeat constructor).
  rewrite Forall_forall in F. rewrite (F k Hk). apply startsWith_app.
Qed.

Definition synopsis_sample : str :=
  lit "SYNOPSIS. A low approaches. Winds rise. Seas build. TONIGHT. Rain develops.".

Lemma sentence_breaking_witness :
  (keepsKeywords toUpperCaseLatin
   /\ ~ contains synopsis_sample [NL; NL]
   /\ ~ contains synopsis_sample (lit "...")
   /\ splitSentences synopsis_sample
      = [] ++ lit "SYNOPSIS"
           :: [lit "A low approaches"; lit "Winds rise"; lit "Seas build"]
           ++ lit "TONIGHT" :: [lit "Rain develops."])
  /\ initialParagraphs toUpperCaseLatin synopsis_sample
     = [lit "SYNOPSIS. A low approaches. Winds rise."; lit "Seas build.";
        lit "TONIGHT. Rain develops."]
  /\ length (splitSentences (lit "SYNOPSIS. A low approaches. Winds rise.")) = 3
  /\ length (splitSentences (lit "Seas build.")) = 1
  /\ (length (splitSentences (lit "Seas build.")) = 3
      \/ keywordHead toUpperCaseLatin (lit "TONIGHT. Rain develops.")).
Proof.
  assert (H1 : ~ contains synopsis_sample [NL; NL]).
  { intros H. apply contains_includes in H. vm_compute in H. discriminate H. }
  assert (H2 : ~ contains synopsis_sample (lit "...")).
  { intros H. apply contains_includes in H. vm_compute in H. discriminate H. }
  assert (H3 : splitSentences synopsis_sample
               = [] ++ lit "SYNOPSIS"
                    :: [lit "A low approaches"; lit "Winds rise"; lit "Seas build"]
                    ++ lit "TONIGHT" :: [lit "Rain develops."])
    by (vm_compute; reflexivity).
  assert (H4 : initialParagraphs toUpperCaseLatin synopsis_sample
               = [lit "SYNOPSIS. A low approaches. Winds rise."] ++
                 lit "Seas build." :: lit "TONIGHT. Rain develops." :: [])
    by (vm_compute; reflexivity).
  split; [exact (conj keepsKeywords_latin (conj H1 (conj H2 H3)))|].
  split; [vm_compute; reflexivity|].
  split; [vm_compute; reflexivity|].
  split; [vm_compute; reflexivity|].
  exact (proj2 (proj2 (proj2
           (sentence_breaking toUpperCaseLatin synopsis_sample
              [] [lit "A low approaches"; lit "Winds rise"; lit "Seas build"]
              [lit "Rain develops."]
              (lit "SYNOPSIS") (lit "TONIGHT")
              keepsKeywords_latin H1 H2 H3 eq_refl eq_refl)))
           _ _ _ _ H4).
Defined.

(** *** The long-paragraph splitter *)



Section Chunks.

Variable toUpperCase : str -> str.

(** The paragraph texts that [formatted] wraps in p elements (lines
    188-196): the chunks of a paragraph longer than 700 code units, the
    paragraph itself otherwise. *)
Definition fragments (paragraphs : list str) : list str :=
  flat_map (fun p => if 700 <? length p
                     then longParagraphChunks toUpperCase p
                     else [p])
           paragraphs.

Lemma join_nil_concat (l : list str) : join [] l = concat l.
Proof.
  induction l as [|x l IH]; [reflexivity|].
  destruct l as [|y l].
  - cbn [join concat]. now rewrite app_nil_r.
  - change (join [] (x :: y :: l)) with (x ++ [] ++ join [] (y :: l)).
    rewrite IH. reflexivity.
Qed.

Lemma join_wrapP_app (a b : list str) :
  join [] (List.map wrapP (a ++ b))
  = join [] (List.map wrapP a) ++ join [] (List.map wrapP b).
Proof. now rewrite !join_nil_concat, map_app, concat_app. Qed.

(** [formatted] before the fallback is the fragments, each in a p element. *)
Lemma formatted_fragments (paragraphs : list str) :
  join [] (List.map (formatParagraph toUpperCase) paragraphs)
  = join [] (List.map wrapP (fragments paragraphs)).
Proof.
  rewrite !join_nil_concat.
  induction paragraphs as [|p ps IH]; [reflexivity|].
  unfold fragments. cbn [flat_map List.map concat]. fold (fragments ps).
  rewrite map_app, concat_app, <- IH. f_equal.
  unfold formatParagraph, breakLongParagraph. rewrite join_nil_concat.
  destruct (700 <? length p); [reflexivity|].
  cbn [List.map concat]. now rewrite app_nil_r.
Qed.





End Chunks.

(** *** Texts with short sentences *)














Section Joined.

Variable toUpperCase : str -> str.
Variable K : nat.





End Joined.





Section Segments.

Variable toUpperCase : str -> str.






(** Lines 199-201: is the fallback taken? *)
Definition fallbackTaken (cleanedText : str) : bool :=
  let paragraphs := segment toUpperCase cleanedText in
  isEmpty (join [] (List.map (formatParagraph toUpperCase) paragraphs))
  || (length paragraphs =? 0).

(** The texts of the p elements of [formatted] before highlighting. *)
Definition emitted (cleanedText : str) : list str :=
  if fallbackTaken cleanedText
  then [replaceAll fl_g re_nl (const (lit "<br>")) cleanedText]
  else fragments toUpperCase (segment toUpperCase cleanedText).

Lemma assemble_emitted (cleanedText : str) :
  assemble toUpperCase cleanedText (segment toUpperCase cleanedText)
  = join [] (List.map wrapP (emitted cleanedText)).
Proof.
  unfold assemble, emitted, fallbackTaken.
  destruct (isEmpty _ || _); [reflexivity|].
  apply formatted_fragments.
Qed.

End Segments.

Section ChunkShape.

Variable toUpperCase : str -> str.








End ChunkShape.










(** *** What is left of the text *)

(** [a] is [b] with some code units left out. *)
Inductive subseq : str -> str -> Prop :=
| subseq_nil : subseq [] []
| subseq_keep (c : char) (a b : str) : subseq a b -> subseq (c :: a) (c :: b)
| subseq_drop (c : char) (a b : str) : subseq a b -> subseq a (c :: b).

Lemma subseq_refl (a : str) : subseq a a.
Proof. induction a; constructor; assumption. Qed.

Lemma subseq_nil_l (b : str) : subseq [] b.
Proof. induction b; constructor; assumption. Qed.

Lemma subseq_trans (a b c : str) : subseq a b -> subseq b c -> subseq a c.
Proof.
  intros Hab Hbc. revert a Hab.
  induction Hbc as [|x b c Hbc IH|x b c Hbc IH]; intros a Hab.
  - exact Hab.
  - inversion Hab as [|y a' b' H|y a' b' H]; subst.
    + constructor. now apply IH.
    + apply subseq_drop. now apply IH.
  - apply subseq_drop. now apply IH.
Qed.

Lemma subseq_app (a b c d : str) :
  subseq a b -> subseq c d -> subseq (a ++ c) (b ++ d).
Proof.
  intros Hab Hcd. induction Hab; cbn [app]; try constructor; assumption.
Qed.

Lemma subseq_app_drop_l (x a b : str) : subseq a b -> subseq a (x ++ b).
Proof. intros H. apply (subseq_app [] x a b (subseq_nil_l x) H). Qed.

Lemma subseq_filter (f : char -> bool) (a b : str) :
  subseq a b -> subseq (filter f a) (filter f b).
Proof.
  induction 1 as [|c a b H IH|c a b H IH]; cbn [filter].
  - constructor.
  - destruct (f c); [constructor|]; exact IH.
  - destruct (f c); [apply subseq_drop|]; exact IH.
Qed.

(** The code units that are not white space. *)
Definition nonSpace (s : str) : str := filter (fun c => negb (isSpace c)) s.

Lemma nonSpace_app (a b : str) : nonSpace (a ++ b) = nonSpace a ++ nonSpace b.
Proof. apply filter_app. Qed.

Lemma nonSpace_allSpace (w : str) : allSpace w -> nonSpace w = [].
Proof.
  induction 1 as [|c w Hc _ IH]; [reflexivity|].
  unfold nonSpace. cbn [filter]. now rewrite Hc.
Qed.

Lemma nonSpace_dropWhile (x : str) : nonSpace (dropWhile isSpace x) = nonSpace x.
Proof.
  induction x as [|c x IH]; [reflexivity|].
  cbn [dropWhile]. destruct (isSpace c) eqn:E; [|reflexivity].
  unfold nonSpace at 2. cbn [filter]. now rewrite E.
Qed.

(** [trim] removes white space only. *)
Lemma nonSpace_trim (x : str) : nonSpace (trim x) = nonSpace x.
Proof.
  unfold trim, trimEnd, trimStart, nonSpace.
  rewrite filter_rev. fold (nonSpace (dropWhile isSpace (rev (dropWhile isSpace x)))).
  rewrite nonSpace_dropWhile. unfold nonSpace. rewrite filter_rev, rev_involutive.
  apply nonSpace_dropWhile.
Qed.

Lemma trim_nil_nonSpace (x : str) : trim x = [] -> nonSpace x = [].
Proof. intros H. now rewrite <- nonSpace_trim, H. Qed.

(** The solid text of a list of paragraphs. *)
Definition solid (l : list str) : str := nonSpace (concat l).

Lemma solid_app (a b : list str) : solid (a ++ b) = solid a ++ solid b.
Proof. unfold solid. now rewrite concat_app, nonSpace_app. Qed.

Lemma solid_cons (x : str) (l : list str) : solid (x :: l) = nonSpace x ++ solid l.
Proof. unfold solid. cbn [concat]. apply nonSpace_app. Qed.

Lemma solid_pushIfAny (ps : list str) (cur : str) :
  solid (pushIfAny ps cur) = solid ps ++ nonSpace cur.
Proof.
  unfold pushIfAny, pushTrimmed. destruct (isEmpty (trim cur)) eqn:E.
  - apply isEmpty_true in E. rewrite (trim_nil_nonSpace cur E). now rewrite app_nil_r.
  - rewrite solid_app, solid_cons, nonSpace_trim. unfold solid at 2. cbn [concat].
    now rewrite app_nil_r.
Qed.

Lemma solid_pushTrimmed (ps : list str) (cur : str) :
  solid (pushTrimmed ps cur) = solid ps ++ nonSpace cur.
Proof.
  unfold pushTrimmed. rewrite solid_app, solid_cons, nonSpace_trim.
  unfold solid at 2. cbn [concat]. now rewrite app_nil_r.
Qed.

Lemma nonSpace_append (cur s : str) :
  nonSpace (append cur s) = nonSpace cur ++ nonSpace s.
Proof.
  unfold append. rewrite !nonSpace_app. destruct (isEmpty cur); reflexivity.
Qed.

(** The sentences a loop works on: trimmed, the empty ones left out, the
    period put back on all but the last. *)
Fixpoint tokens (l : list str) : list str :=
  match l with
  | [] => []
  | raw :: rest =>
      match nextSentence raw rest with
      | Some s => s :: tokens rest
      | None => tokens rest
      end
  end.

Section Regrouping.

Variable toUpperCase : str -> str.

(** The three loops only regroup the sentences: white space aside, what
    they push is what they are given. *)
Lemma sentenceLoop_solid (l : list str) :
  forall ps cur,
    solid (fst (sentenceLoop toUpperCase l ps cur))
      ++ nonSpace (snd (sentenceLoop toUpperCase l ps cur))
    = solid ps ++ nonSpace cur ++ solid (tokens l).
Proof.
  induction l as [|raw rest IH]; intros ps cur; cbn [sentenceLoop tokens].
  - cbn [fst snd]. unfold solid at 2. cbn [concat]. now rewrite !app_nil_r.
  - destruct (nextSentence raw rest) as [s|]; [|apply IH].
    rewrite solid_cons.
    destruct (shouldStartNewParagraph toUpperCase s cur); cbv beta iota.
    + destruct (3 <=? length (splitSentences s)); rewrite IH.
      * rewrite solid_pushTrimmed, solid_pushIfAny. cbn [nonSpace filter app].
        now rewrite <- !app_assoc.
      * rewrite solid_pushIfAny. now rewrite <- !app_assoc.
    + destruct (3 <=? length (splitSentences (append cur s))); rewrite IH.
      * rewrite solid_pushTrimmed, nonSpace_append. cbn [nonSpace filter app].
        now rewrite <- !app_assoc.
      * rewrite nonSpace_append. now rewrite <- !app_assoc.
Qed.

Lemma forceLoop_solid (l : list str) :
  forall ps cur,
    solid (fst (forceLoop l ps cur)) ++ nonSpace (snd (forceLoop l ps cur))
    = solid ps ++ nonSpace cur ++ solid (tokens l).
Proof.
  induction l as [|raw rest IH]; intros ps cur; cbn [forceLoop tokens].
  - cbn [fst snd]. unfold solid at 2. cbn [concat]. now rewrite !app_nil_r.
  - destruct (nextSentence raw rest) as [s|]; [|apply IH].
    rewrite solid_cons.
    destruct (negb (isEmpty cur) && (2 <=? length (splitSentences cur)));
      rewrite IH.
    + rewrite solid_pushTrimmed. now rewrite <- !app_assoc.
    + rewrite nonSpace_append. now rewrite <- !app_assoc.
Qed.

Lemma chunkLoop_solid (l : list str) :
  forall ps cur,
    solid (fst (chunkLoop toUpperCase l ps cur))
      ++ nonSpace (snd (chunkLoop toUpperCase l ps cur))
    = solid ps ++ nonSpace cur ++ solid (tokens l).
Proof.
  induction l as [|raw rest IH]; intros ps cur; cbn [chunkLoop tokens].
  - cbn [fst snd]. unfold solid at 2. cbn [concat]. now rewrite !app_nil_r.
  - destruct (nextSentence raw rest) as [s|]; [|apply IH].
    rewrite solid_cons.
    destruct (negb (isEmpty cur)
              && ((350 <? length (cur ++ [SP] ++ s))
                  || shouldStartNewParagraph toUpperCase s cur));
      rewrite IH.
    + rewrite solid_pushTrimmed. now rewrite <- !app_assoc.
    + rewrite nonSpace_append. now rewrite <- !app_assoc.
Qed.

End Regrouping.

Lemma nextSentence_Some (raw : str) (rest : list str) (s : str) :
  nextSentence raw rest = Some s ->
  s = trim raw ++ match rest with [] => [] | _ :: _ => lit "." end.
Proof.
  unfold nextSentence. destruct (isEmpty (trim raw)); [discriminate|].
  intros [= <-]. destruct rest; [now rewrite app_nil_r|reflexivity].
Qed.

Lemma nextSentence_None (raw : str) (rest : list str) :
  nextSentence raw rest = None -> trim raw = [].
Proof.
  unfold nextSentence. destruct (isEmpty (trim raw)) eqn:E; [|discriminate].
  intros _. now apply isEmpty_true.
Qed.

Lemma nonSpace_dotSpaces (sp : str) : dotSpaces sp -> nonSpace sp = lit ".".
Proof.
  intros (w & -> & _ & Hw). unfold nonSpace. cbn [filter].
  fold (nonSpace w). now rewrite (nonSpace_allSpace w Hw).
Qed.

(** The sentences, with their periods, are in the text, in order. *)
Lemma tokens_interleave (pieces : list str) :
  forall seps,
    length pieces = S (length seps) ->
    Forall dotSpaces seps ->
    subseq (solid (tokens pieces)) (nonSpace (interleave pieces seps)).
Proof.
  induction pieces as [|raw ps IH]; intros seps L Hs; [discriminate L|].
  cbn [tokens interleave]. rewrite nonSpace_app.
  destruct seps as [|sp ss].
  - destruct ps; [|discriminate L].
    destruct (nextSentence raw []) as [s|] eqn:N.
    + rewrite (nextSentence_Some raw [] s N), app_nil_r, solid_cons, nonSpace_trim.
      apply subseq_refl.
    + apply subseq_nil_l.
  - injection L as L. inversion Hs as [|? ? Hsp Hss]; subst.
    rewrite nonSpace_app, (nonSpace_dotSpaces sp Hsp).
    destruct ps as [|q ps]; [discriminate L|].
    destruct (nextSentence raw (q :: ps)) as [s|] eqn:N.
    + rewrite (nextSentence_Some raw _ s N), solid_cons, nonSpace_app, nonSpace_trim.
      rewrite <- app_assoc.
      apply subseq_app; [apply subseq_refl|].
      apply subseq_app; [apply subseq_refl|]. now apply IH.
    + apply subseq_app_drop_l, subseq_app_drop_l. now apply IH.
Qed.

Lemma tokens_subseq (p : str) :
  subseq (solid (tokens (splitSentences p))) (nonSpace p).
Proof.
  destruct p as [|c p]; [apply subseq_nil_l|].
  unfold splitSentences.
  destruct (split_interleave fl_g re_sentence (s := c :: p) ltac:(discriminate))
    as (seps & L & I & F).
  rewrite <- I at 2. apply tokens_interleave; [exact L|].
  revert F. apply Forall_impl. exact separator_sentence.
Qed.

(** The pieces kept by the first tier are in the text, in order. *)
Lemma kept_interleave (keep : str -> bool) (pieces : list str) :
  forall seps,
    length pieces = S (length seps) ->
    subseq (solid (filter keep (List.map trim pieces)))
           (nonSpace (interleave pieces seps)).
Proof.
  induction pieces as [|q ps IH]; intros seps L; [discriminate L|].
  cbn [List.map filter interleave]. rewrite nonSpace_app.
  assert (H : forall rest,
             subseq (solid (filter keep (List.map trim ps))) rest ->
             subseq (solid (if keep (trim q)
                            then trim q :: filter keep (List.map trim ps)
                            else filter keep (List.map trim ps)))
                    (nonSpace q ++ rest)).
  { intros rest Hr. destruct (keep (trim q)).
    - rewrite solid_cons, nonSpace_trim. apply subseq_app; [apply subseq_refl|exact Hr].
    - now apply subseq_app_drop_l. }
  apply H. destruct seps as [|sp ss].
  - destruct ps; [apply subseq_nil_l|discriminate L].
  - injection L as L. rewrite nonSpace_app. apply subseq_app_drop_l. now apply IH.
Qed.

Section Preserved.

Variable toUpperCase : str -> str.

Lemma sentenceParagraphs_solid (t : str) :
  solid (sentenceParagraphs toUpperCase t) = solid (tokens (splitSentences t)).
Proof.
  unfold sentenceParagraphs.
  pose proof (sentenceLoop_solid toUpperCase (splitSentences t) [] []) as H.
  destruct (sentenceLoop toUpperCase (splitSentences t) [] []) as [ps cur].
  cbn [fst snd] in H. rewrite solid_pushIfAny, H. reflexivity.
Qed.

Lemma forceParagraphBreaks_solid (p : str) :
  solid (forceParagraphBreaks p) = solid (tokens (splitSentences p)).
Proof.
  unfold forceParagraphBreaks.
  pose proof (forceLoop_solid (splitSentences p) [] []) as H.
  destruct (forceLoop (splitSentences p) [] []) as [ps cur].
  cbn [fst snd] in H. rewrite solid_pushIfAny, H. reflexivity.
Qed.

Lemma longParagraphChunks_solid (p : str) :
  solid (longParagraphChunks toUpperCase p) = solid (tokens (splitSentences p)).
Proof.
  unfold longParagraphChunks.
  pose proof (chunkLoop_solid toUpperCase (splitSentences p) [] []) as H.
  destruct (chunkLoop toUpperCase (splitSentences p) [] []) as [ps cur].
  cbn [fst snd] in H. rewrite solid_pushIfAny, H. reflexivity.
Qed.

Lemma initialParagraphs_subseq (t : str) :
  subseq (solid (initialParagraphs toUpperCase t)) (nonSpace t).
Proof.
  unfold initialParagraphs.
  destruct (length (split fl_g re_break t) =? 1).
  - rewrite sentenceParagraphs_solid. apply tokens_subseq.
  - destruct t as [|c t]; [apply subseq_nil_l|].
    destruct (split_interleave fl_g re_break (s := c :: t) ltac:(discriminate))
      as (seps & L & I & _).
    rewrite <- I at 2. now apply kept_interleave.
Qed.

Lemma ensureBreaks_subseq (ps : list str) :
  subseq (solid (ensureBreaks ps)) (solid ps).
Proof.
  unfold ensureBreaks. destruct ps as [|p [|q ps]]; try apply subseq_refl.
  destruct (600 <? length p); [|apply subseq_refl].
  rewrite forceParagraphBreaks_solid. unfold solid at 2. cbn [concat].
  rewrite app_nil_r. apply tokens_subseq.
Qed.

Lemma fragments_subseq (ps : list str) :
  subseq (solid (fragments toUpperCase ps)) (solid ps).
Proof.
  induction ps as [|p ps IH]; [apply subseq_refl|].
  unfold fragments. cbn [flat_map]. fold (fragments toUpperCase ps).
  rewrite solid_app, solid_cons. apply subseq_app; [|exact IH].
  destruct (700 <? length p).
  - rewrite longParagraphChunks_solid. apply tokens_subseq.
  - unfold solid. cbn [concat]. rewrite app_nil_r. apply subseq_refl.
Qed.

(** White space aside, the fragments are the cleaned text with code units
    left out. *)
Lemma fragments_segment_subseq (cleanedText : str) :
  subseq (solid (fragments toUpperCase (segment toUpperCase cleanedText)))
         (nonSpace cleanedText).
Proof.
  apply (subseq_trans _ (solid (segment toUpperCase cleanedText)));
    [apply fragments_subseq|].
  apply (subseq_trans _ (solid (initialParagraphs toUpperCase cleanedText)));
    [apply ensureBreaks_subseq|apply initialParagraphs_subseq].
Qed.

End Preserved.

(** *** Highlighting *)

(** [b] is [a] with texts of [tags] put in. *)
Inductive inserted (tags : list str) : str -> str -> Prop :=
| inserted_refl (s : str) : inserted tags s s
| inserted_step (s a t b : str) :
    In t tags -> inserted tags s (a ++ b) -> inserted tags s (a ++ t ++ b).

Lemma inserted_trans (tags : list str) (a b c : str) :
  inserted tags a b -> inserted tags b c -> inserted tags a c.
Proof.
  intros Hab Hbc. induction Hbc as [|s x t y Ht H IH]; [exact Hab|].
  apply inserted_step; [exact Ht|]. now apply IH.
Qed.

Lemma inserted_prefix (tags : list str) (x a b : str) :
  inserted tags a b -> inserted tags (x ++ a) (x ++ b).
Proof.
  induction 1 as [|s c t d Ht H IH]; [constructor|].
  rewrite app_assoc. apply inserted_step; [exact Ht|].
  now rewrite <- app_assoc.
Qed.

Lemma inserted_front (tags : list str) (t a : str) :
  In t tags -> inserted tags a (t ++ a).
Proof.
  intros Ht. apply (inserted_step tags a [] t a Ht). constructor.
Qed.

Lemma inserted_incl (tags tags' : list str) (a b : str) :
  incl tags tags' -> inserted tags a b -> inserted tags' a b.
Proof.
  intros Hi. induction 1 as [|s c t d Ht H IH]; [constructor|].
  apply inserted_step; [now apply Hi|exact IH].
Qed.

Section Wrapping.

Variable fl : flags.
Variable r : regex.
Variables before after : str.

Lemma replaceFrom_skip (s : str) :
  forall k prev, k <= length s ->
    exists prev',
      replaceFrom fl r (wrapWith before after) prev k s
      = replaceFrom fl r (wrapWith before after) prev' 0 (skipn k s).
Proof.
  induction s as [|c s IH]; intros k prev Hk.
  - simpl in Hk. replace k with 0 by lia. now exists prev.
  - destruct k as [|k]; [now exists prev|].
    simpl in Hk. cbn [replaceFrom skipn]. apply IH. lia.
Qed.

(** Replacing each match [m] by [before ++ m ++ after] only puts [before]
    and [after] into the text. *)
Lemma replaceFrom_inserted (n : nat) :
  forall s, length s <= n -> forall prev,
    inserted [before; after] s
             (replaceFrom fl r (wrapWith before after) prev 0 s).
Proof.
  assert (Hb : In before [before; after]) by (left; reflexivity).
  assert (Ha : In after [before; after]) by (right; left; reflexivity).
  assert (W : forall m x y, inserted [before; after] x y ->
                inserted [before; after] (m ++ x) (wrapWith before after m ++ y)).
  { intros m x y H. unfold wrapWith. rewrite <- !app_assoc.
    apply (inserted_trans _ _ (m ++ after ++ y)).
    - apply inserted_prefix.
      apply (inserted_trans _ _ y); [exact H|now apply inserted_front].
    - now apply inserted_front. }
  induction n as [|n IH]; intros s Hn prev.
  - destruct s; [|simpl in Hn; lia]. cbn [replaceFrom].
    destruct (matchLen fl r prev []) as [[|k]|]; cbn [firstn];
      [exact (W [] [] [] (inserted_refl _ []))
      |exact (W [] [] [] (inserted_refl _ []))|constructor].
  - destruct s as [|c s].
    { cbn [replaceFrom].
      destruct (matchLen fl r prev []) as [[|k]|]; cbn [firstn];
        [exact (W [] [] [] (inserted_refl _ []))
        |exact (W [] [] [] (inserted_refl _ []))|constructor]. }
    simpl in Hn. cbn [replaceFrom].
    destruct (matchLen fl r prev (c :: s)) as [[|k]|] eqn:M.
    + apply (W [] (c :: s)). apply (inserted_prefix _ [c]). apply IH. lia.
    + pose proof (matchLen_le fl r prev (c :: s) M) as Hk. simpl in Hk.
      destruct (replaceFrom_skip s k (Some c) ltac:(lia)) as (prev' & ->).
      rewrite <- (firstn_skipn (S k) (c :: s)) at 1.
      apply W. cbn [skipn]. apply IH. rewrite length_skipn. lia.
    + apply (inserted_prefix _ [c]). apply IH. lia.
Qed.

Lemma replaceAll_inserted (s : str) :
  inserted [before; after] s (replaceAll fl r (wrapWith before after) s).
Proof. apply (replaceFrom_inserted (length s) s (Nat.le_refl _)). Qed.

End Wrapping.

(** The texts that highlighting puts in. *)
Definition highlightTags : list str :=
  [lit "<strong>"; lit "</strong>"; lit "<em>"; lit "</em>";
   lit "<span class=" ++ [QUOTE] ++ lit "wind-direction" ++ [QUOTE] ++ lit ">";
   lit "<span class=" ++ [QUOTE] ++ lit "weather-measurement" ++ [QUOTE] ++ lit ">";
   lit "</span>"].

(** Highlighting leaves out nothing and puts in its tags only. *)
Lemma highlight_inserted (formatted : str) :
  inserted highlightTags formatted (highlight formatted).
Proof.
  unfold highlight, strong, em, spanClass.
  repeat match goal with
  | |- inserted _ _ (replaceAll ?fl ?r (wrapWith ?b ?a) ?s) =>
      apply (inserted_trans _ _ s);
      [|apply (inserted_incl [b; a]);
        [intros t [<-|[<-|[]]]; simpl; tauto
        |apply replaceAll_inserted]]
  end.
  constructor.
Qed.

(** The visible text of a markup string as the specification words it,
    with the tags stripped: everything from a [<] to the next [>] is left
    out. *)
Fixpoint stripTags (inTag : bool) (s : str) : str :=
  match s with
  | [] => []
  | c :: s' =>
      if inTag then stripTags (negb (N.eqb c 62)) s'
      else if N.eqb c 60 then stripTags true s'
      else c :: stripTags false s'
  end.

Definition visibleText (s : str) : str := stripTags false s.

(** *** Replacing by a fixed text *)

Section Scan.

Variable fl : flags.
Variable r : regex.
Variable sep : str.

(** The pattern is described by [m]: the match at a position does not
    depend on what comes before it, and is never empty. *)
Variable m : str -> option nat.
Hypothesis matchLen_m : forall prev s, matchLen fl r prev s = m s.
Hypothesis m_positive : forall s n, m s = Some n -> 1 <= n.

Lemma m_le (s : str) (n : nat) : m s = Some n -> n <= length s.
Proof. rewrite <- (matchLen_m None). apply matchLen_le. Qed.

Lemma m_nil : m [] = None.
Proof.
  destruct (m []) as [n|] eqn:E; [|reflexivity].
  pose proof (m_positive _ _ E). pose proof (m_le _ _ E). simpl in *. lia.
Qed.

Lemma replaceFrom_const_skip (s : str) :
  forall k prev prev', k <= length s ->
    replaceFrom fl r (const sep) prev k s
    = replaceFrom fl r (const sep) prev' 0 (skipn k s).
Proof.
  induction s as [|c s IH]; intros k prev prev' Hk.
  - simpl in Hk. replace k with 0 by lia. cbn [skipn replaceFrom].
    now rewrite !matchLen_m.
  - destruct k as [|k].
    + cbn [skipn replaceFrom]. rewrite !matchLen_m.
      destruct (m (c :: s)) as [[|n]|]; reflexivity.
    + simpl in Hk. cbn [replaceFrom skipn]. apply IH. lia.
Qed.

(** The result of the replacement. *)
Definition out (s : str) : str := replaceAll fl r (const sep) s.

Lemma out_nil : out [] = [].
Proof. unfold out, replaceAll. cbn [replaceFrom]. now rewrite matchLen_m, m_nil. Qed.

Lemma out_copy (c : char) (s : str) :
  m (c :: s) = None -> out (c :: s) = c :: out s.
Proof.
  intros E. unfold out, replaceAll. cbn [replaceFrom]. rewrite matchLen_m, E.
  f_equal. apply (replaceFrom_const_skip s 0 (Some c) None). lia.
Qed.

Lemma out_match (s : str) (n : nat) :
  m s = Some n -> out s = sep ++ out (skipn n s).
Proof.
  intros E. pose proof (m_positive _ _ E) as Hp. pose proof (m_le _ _ E) as Hl.
  destruct n as [|n]; [lia|]. destruct s as [|c s]; [simpl in Hl; lia|].
  unfold out, replaceAll. cbn [replaceFrom]. rewrite matchLen_m, E.
  unfold const at 1. f_equal. cbn [skipn].
  apply replaceFrom_const_skip. simpl in Hl. lia.
Qed.

(** Induction along the scan. *)
Lemma scan_ind (Q : str -> str -> Prop) :
  Q [] [] ->
  (forall c s, m (c :: s) = None -> Q s (out s) -> Q (c :: s) (c :: out s)) ->
  (forall s n, m s = Some n ->
     Q (skipn n s) (out (skipn n s)) -> Q s (sep ++ out (skipn n s))) ->
  forall s, Q s (out s).
Proof.
  intros Hnil Hcopy Hmatch s.
  assert (H : forall k s, length s <= k -> Q s (out s)).
  { clear s. induction k as [|k IH]; intros s Hk.
    - destruct s; [|simpl in Hk; lia]. now rewrite out_nil.
    - destruct s as [|c s]; [now rewrite out_nil|].
      destruct (m (c :: s)) as [n|] eqn:E.
      + rewrite (out_match _ _ E). apply (Hmatch _ _ E). apply IH.
        pose proof (m_positive _ _ E). rewrite length_skipn. cbn [length] in *. lia.
      + rewrite (out_copy _ _ E). apply (Hcopy _ _ E). apply IH.
        simpl in Hk. lia. }
  apply (H (length s)). lia.
Qed.

(** A text in which the pattern matches nowhere is left as it is. *)
Lemma out_noMatch (s : str) :
  (forall a s', s = a ++ s' -> m s' = None) -> out s = s.
Proof.
  induction s as [|c s IH]; intros H; [apply out_nil|].
  rewrite (out_copy c s (H [] (c :: s) eq_refl)). f_equal. apply IH.
  intros a s' ->. apply (H (c :: a) s'). reflexivity.
Qed.

(** So is a text in which every match is the replacement text. *)
Lemma out_fixed (s : str) :
  (forall a s' n, s = a ++ s' -> m s' = Some n -> firstn n s' = sep) ->
  out s = s.
Proof.
  intros H.
  apply (scan_ind (fun s o => (forall a s' n, s = a ++ s' -> m s' = Some n ->
                                 firstn n s' = sep) -> o = s)); [reflexivity| | |exact H].
  - intros c s' _ IH H'. f_equal. apply IH.
    intros a s'' n ->. apply (H' (c :: a) s'' n). reflexivity.
  - intros s' n E IH H'. rewrite <- (H' [] s' n eq_refl E).
    rewrite <- (firstn_skipn n s') at 3. f_equal. apply IH.
    intros a s'' k E'. apply (H' (firstn n s' ++ a) s'' k).
    rewrite <- app_assoc, <- E'. symmetry. apply firstn_skipn.
Qed.

End Scan.

Lemma replaceAll_noMatch (fl : flags) (r : regex) (repl : str -> str) (s : str) :
  (forall a s' prev, s = a ++ s' -> matchLen fl r prev s' = None) ->
  replaceAll fl r repl s = s.
Proof.
  unfold replaceAll. generalize (@None N) as prev.
  induction s as [|c s IH]; intros prev H; cbn [replaceFrom].
  - now rewrite (H [] [] prev eq_refl).
  - rewrite (H [] (c :: s) prev eq_refl). f_equal. apply IH.
    intros a s' prev' ->. apply (H (c :: a) s' prev'). reflexivity.
Qed.

(** *** The white-space steps of the cleaning *)

(** Space and tab, and the matches of the three patterns at the start of a
    text. *)
Definition isBlank (c : char) : bool := N.eqb c SP || N.eqb c TAB.

Definition headIs (f : char -> bool) (s : str) : bool :=
  match s with c :: _ => f c | [] => false end.

Definition blanksLen (s : str) : option nat :=
  if 1 <=? runLen isBlank s then Some (runLen isBlank s) else None.

Definition nlBlanksLen (s : str) : option nat :=
  match s with
  | [] => None
  | c :: s' =>
      if isNL c && (1 <=? runLen isBlank s')
      then Some (S (runLen isBlank s'))
      else None
  end.

Definition nl3Len (s : str) : option nat :=
  if 3 <=? runLen isNL s then Some (runLen isNL s) else None.

Lemma atomMatch_blank (c : char) : atomMatch fl_g blank c = isBlank c.
Proof. unfold isBlank. simpl. now rewrite orb_false_r. Qed.

Lemma matchLen_blanks (prev : option char) (s : str) :
  matchLen fl_g re_blanks prev s = blanksLen s.
Proof.
  unfold re_blanks, plus, blanksLen. rewrite matchLen_greedy.
  now rewrite (runLen_ext _ isBlank s atomMatch_blank).
Qed.

Lemma matchLen_nlBlanks (prev : option char) (s : str) :
  matchLen fl_g re_nlBlanks prev s = nlBlanksLen s.
Proof.
  unfold nlBlanksLen, re_nlBlanks, plus.
  destruct s as [|c s]; [reflexivity|].
  unfold matchLen. rewrite run_Seq, run_chr.
  change (atomMatch fl_g (AChr NL) c) with (isNL c).
  destruct (isNL c) eqn:Ec; [|reflexivity].
  cbn [flat_map fst snd]. rewrite app_nil_r.
  destruct (run_greedy_unbounded fl_g 1 blank (Some c) s) as [H1 H2].
  rewrite (runLen_ext _ isBlank s atomMatch_blank) in *.
  destruct (Nat.leb_spec 1 (runLen isBlank s)) as [H|H].
  - destruct (H1 H) as (p & tl & ->). cbn [app length andb].
    pose proof (runLen_le isBlank s). rewrite length_skipn. f_equal. lia.
  - rewrite (H2 H). reflexivity.
Qed.

Lemma matchLen_nl3 (prev : option char) (s : str) :
  matchLen fl_g re_nl3 prev s = nl3Len s.
Proof. unfold re_nl3, nl3Len. now rewrite matchLen_greedy. Qed.

Lemma blanksLen_positive (s : str) (n : nat) : blanksLen s = Some n -> 1 <= n.
Proof.
  unfold blanksLen. destruct (Nat.leb_spec 1 (runLen isBlank s)); [|discriminate].
  intros [= <-]. assumption.
Qed.

Lemma nlBlanksLen_positive (s : str) (n : nat) : nlBlanksLen s = Some n -> 1 <= n.
Proof.
  unfold nlBlanksLen. destruct s as [|c s]; [discriminate|].
  destruct (isNL c && (1 <=? runLen isBlank s)); [|discriminate].
  intros [= <-]. lia.
Qed.

Lemma nl3Len_positive (s : str) (n : nat) : nl3Len s = Some n -> 1 <= n.
Proof.
  unfold nl3Len. destruct (Nat.leb_spec 3 (runLen isNL s)); [|discriminate].
  intros [= <-]. lia.
Qed.

(** The three steps, as results of a scan. *)
Definition collapseBlanks (s : str) : str := replaceAll fl_g re_blanks (const [SP]) s.
Definition dropIndent (s : str) : str := replaceAll fl_g re_nlBlanks (const [NL]) s.
Definition capNewlines (s : str) : str := replaceAll fl_g re_nl3 (const [NL; NL]) s.

(** Lines 129-132. *)
Definition tidy (s : str) : str := trim (capNewlines (dropIndent (collapseBlanks s))).

(** [bad] holds at no position of [t]. *)
Fixpoint avoid (bad : str -> bool) (t : str) : Prop :=
  match t with
  | [] => True
  | _ :: t' => bad t = false /\ avoid bad t'
  end.

Lemma avoid_suffix (bad : str -> bool) (a t : str) :
  avoid bad (a ++ t) -> avoid bad t.
Proof.
  induction a as [|c a IH]; [auto|]. intros H.
  change (bad ((c :: a) ++ t) = false /\ avoid bad (a ++ t)) in H. apply IH, H.
Qed.

Lemma avoid_skipn (bad : str -> bool) (n : nat) (t : str) :
  avoid bad t -> avoid bad (skipn n t).
Proof.
  intros H. apply (avoid_suffix bad (firstn n t)). now rewrite firstn_skipn.
Qed.

Lemma avoid_prefix (bad : str -> bool) (t b : str) :
  (forall x, bad (x ++ b) = false -> bad x = false) ->
  avoid bad (t ++ b) -> avoid bad t.
Proof.
  intros Hm. induction t as [|c t IH]; [intros _; exact I|].
  intros H. change (bad ((c :: t) ++ b) = false /\ avoid bad (t ++ b)) in H.
  destruct H as [H1 H2]. split; [|auto].
  apply Hm. exact H1.
Qed.

(** A tab, or two blanks in a row. *)
Definition bad4 (s : str) : bool :=
  match s with
  | [] => false
  | c :: rest => N.eqb c TAB || (isBlank c && headIs isBlank rest)
  end.

(** A newline followed by a blank. *)
Definition bad5 (s : str) : bool :=
  match s with
  | [] => false
  | c :: rest => isNL c && headIs isBlank rest
  end.

(** Three newlines in a row. *)
Definition bad6 (s : str) : bool := 3 <=? runLen isNL s.

Lemma headIs_app (f : char -> bool) (x b : str) :
  headIs f (x ++ b) = false -> headIs f x = false.
Proof. destruct x; [reflexivity|auto]. Qed.

Lemma runLen_app_le (f : char -> bool) (x b : str) :
  runLen f x <= runLen f (x ++ b).
Proof.
  induction x as [|c x IH]; cbn [app runLen]; [lia|].
  destruct (f c); lia.
Qed.

Lemma bad4_prefix (b x : str) : bad4 (x ++ b) = false -> bad4 x = false.
Proof.
  destruct x as [|c x]; [reflexivity|]. cbn [app bad4].
  intros H. apply orb_false_elim in H. destruct H as [H1 H2]. rewrite H1.
  destruct (isBlank c); [|reflexivity]. cbn [andb orb] in *.
  now apply (headIs_app isBlank x b).
Qed.

Lemma bad5_prefix (b x : str) : bad5 (x ++ b) = false -> bad5 x = false.
Proof.
  destruct x as [|c x]; [reflexivity|]. cbn [app bad5].
  destruct (isNL c); [|reflexivity]. cbn [andb].
  apply (headIs_app isBlank x b).
Qed.

Lemma bad6_prefix (b x : str) : bad6 (x ++ b) = false -> bad6 x = false.
Proof.
  unfold bad6. intros H. apply Nat.leb_gt in H. apply Nat.leb_gt.
  pose proof (runLen_app_le isNL x b). lia.
Qed.

Lemma avoid_trim (bad : str -> bool) (t : str) :
  (forall b x, bad (x ++ b) = false -> bad x = false) ->
  avoid bad t -> avoid bad (trim t).
Proof.
  intros Hm H. destruct (trim_substring t) as (a & b & E).
  rewrite E in H. apply avoid_suffix in H.
  exact (avoid_prefix bad (trim t) b (Hm b) H).
Qed.

Lemma headIs_runLen (f : char -> bool) (s : str) :
  headIs f s = (1 <=? runLen f s).
Proof. destruct s as [|c s]; [reflexivity|]. simpl. now destruct (f c). Qed.

Lemma headIs_after_run (f : char -> bool) (s : str) :
  headIs f (skipn (runLen f s) s) = false.
Proof.
  induction s as [|c s IH]; [reflexivity|].
  cbn [runLen]. destruct (f c) eqn:E; [exact IH|]. cbn [skipn headIs]. exact E.
Qed.

Lemma avoid_cons (bad : str -> bool) (c : char) (t : str) :
  bad (c :: t) = false -> avoid bad t -> avoid bad (c :: t).
Proof. intros H1 H2. split; assumption. Qed.

Lemma isBlank_not_NL (c : char) : isNL c = true -> isBlank c = false.
Proof. intros H. apply N.eqb_eq in H. now subst c. Qed.

(** After [/[ \t]+/g]: no tab and no two blanks in a row. *)
Lemma collapseBlanks_avoid (s : str) : avoid bad4 (collapseBlanks s).
Proof.
  cut (avoid bad4 (collapseBlanks s)
       /\ (headIs isBlank s = false -> headIs isBlank (collapseBlanks s) = false)).
  { tauto. }
  unfold collapseBlanks.
  apply (scan_ind fl_g re_blanks [SP] blanksLen matchLen_blanks blanksLen_positive
           (fun s o => avoid bad4 o
                       /\ (headIs isBlank s = false -> headIs isBlank o = false))).
  - split; [exact I|auto].
  - intros c s' E [IH1 IH2].
    assert (Hc : isBlank c = false).
    { unfold blanksLen in E. cbn [runLen] in E. destruct (isBlank c); [|reflexivity].
      discriminate E. }
    split; [|intros _; exact Hc].
    apply avoid_cons; [|exact IH1]. cbn [bad4]. rewrite Hc.
    unfold isBlank in Hc. apply orb_false_elim in Hc. destruct Hc as [_ ->].
    reflexivity.
  - intros s' n E [IH1 IH2].
    assert (Hn : n = runLen isBlank s').
    { unfold blanksLen in E. destruct (1 <=? runLen isBlank s'); [|discriminate].
      now injection E. }
    subst n. split.
    + cbn [app]. apply avoid_cons; [|exact IH1]. cbn [bad4].
      rewrite IH2; [reflexivity|apply headIs_after_run].
    + intros H. unfold blanksLen in E. rewrite <- headIs_runLen, H in E.
      discriminate E.
Qed.

(** After [/\n[ \t]+/g]: no newline followed by a blank; and what the step
    before achieved is kept. *)
Lemma dropIndent_avoid (s : str) :
  avoid bad5 (dropIndent s) /\ (avoid bad4 s -> avoid bad4 (dropIndent s)).
Proof.
  cut (hd_error (dropIndent s) = hd_error s
       /\ avoid bad5 (dropIndent s)
       /\ (avoid bad4 s -> avoid bad4 (dropIndent s))).
  { tauto. }
  unfold dropIndent.
  apply (scan_ind fl_g re_nlBlanks [NL] nlBlanksLen matchLen_nlBlanks
           nlBlanksLen_positive
           (fun s o => hd_error o = hd_error s
                       /\ avoid bad5 o
                       /\ (avoid bad4 s -> avoid bad4 o))).
  - repeat split; auto.
  - intros c s' E (IHh & IH5 & IH4).
    assert (Hh : forall f, headIs f (out fl_g re_nlBlanks [NL] s') = headIs f s').
    { intros f. unfold headIs.
      destruct (out fl_g re_nlBlanks [NL] s'), s'; try discriminate IHh;
        [reflexivity|]. now injection IHh as ->. }
    split; [reflexivity|]. split.
    + apply avoid_cons; [|exact IH5]. cbn [bad5]. rewrite Hh.
      unfold nlBlanksLen in E. rewrite <- headIs_runLen in E.
      destruct (isNL c && headIs isBlank s'); [discriminate E|reflexivity].
    + intros [H1 H2]. apply avoid_cons; [|auto].
      cbn [bad4] in *. now rewrite Hh.
  - intros s' n E (IHh & IH5 & IH4).
    destruct s' as [|c s']; [discriminate E|]. cbn [nlBlanksLen] in E.
    destruct (isNL c) eqn:Ec; [|discriminate E]. cbn [andb] in E.
    destruct (1 <=? runLen isBlank s'); [|discriminate E].
    injection E as <-. cbn [skipn] in *.
    assert (Hh : headIs isBlank (out fl_g re_nlBlanks [NL] (skipn (runLen isBlank s') s'))
                 = false).
    { pose proof (headIs_after_run isBlank s') as H. unfold headIs in *.
      destruct (out fl_g re_nlBlanks [NL] (skipn (runLen isBlank s') s')),
        (skipn (runLen isBlank s') s'); try discriminate IHh;
        [reflexivity|]. now injection IHh as ->. }
    apply N.eqb_eq in Ec. subst c. split; [reflexivity|]. split.
    + cbn [app]. apply avoid_cons; [|exact IH5]. cbn [bad5]. now rewrite Hh.
    + intros [_ H]. cbn [app]. apply avoid_cons; [reflexivity|].
      apply IH4. now apply avoid_skipn.
Qed.

Lemma skipn_last_of_run (f : char -> bool) (s : str) :
  1 <= runLen f s ->
  exists c, f c = true
            /\ skipn (runLen f s - 1) s = c :: skipn (runLen f s) s.
Proof.
  induction s as [|c s IH]; cbn [runLen]; [lia|].
  destruct (f c) eqn:E; [|lia]. intros _.
  destruct (runLen f s) as [|k] eqn:R.
  - exists c. split; [exact E|reflexivity].
  - destruct (IH ltac:(lia)) as (d & Hd & Hs). exists d. split; [exact Hd|].
    replace (S (S k) - 1) with (S (S k - 1)) by lia. cbn [skipn]. exact Hs.
Qed.

Lemma headIs_hd (f : char -> bool) (a b : str) :
  hd_error a = hd_error b -> headIs f a = headIs f b.
Proof.
  destruct a, b; cbn [hd_error headIs]; intros H; try discriminate H;
    [reflexivity|]. now injection H as ->.
Qed.

(** After [/\n{3,}/g]: no three newlines in a row; and what the steps
    before achieved is kept. *)
Lemma capNewlines_avoid (s : str) :
  avoid bad6 (capNewlines s)
  /\ (avoid bad5 s -> avoid bad5 (capNewlines s))
  /\ (avoid bad4 s -> avoid bad4 (capNewlines s)).
Proof.
  cut (hd_error (capNewlines s) = hd_error s
       /\ runLen isNL (capNewlines s) = Nat.min 2 (runLen isNL s)
       /\ avoid bad6 (capNewlines s)
       /\ (avoid bad5 s -> avoid bad5 (capNewlines s))
       /\ (avoid bad4 s -> avoid bad4 (capNewlines s))).
  { tauto. }
  unfold capNewlines.
  apply (scan_ind fl_g re_nl3 [NL; NL] nl3Len matchLen_nl3 nl3Len_positive
           (fun s o => hd_error o = hd_error s
                       /\ runLen isNL o = Nat.min 2 (runLen isNL s)
                       /\ avoid bad6 o
                       /\ (avoid bad5 s -> avoid bad5 o)
                       /\ (avoid bad4 s -> avoid bad4 o))).
  - repeat split; auto.
  - intros c s' E (IHh & IHr & IH6 & IH5 & IH4).
    set (o' := out fl_g re_nl3 [NL; NL] s') in *.
    assert (Hlt : runLen isNL (c :: s') < 3).
    { unfold nl3Len in E. destruct (Nat.leb_spec 3 (runLen isNL (c :: s')));
        [discriminate E|assumption]. }
    assert (Hr : runLen isNL (c :: o') = Nat.min 2 (runLen isNL (c :: s'))).
    { cbn [runLen] in *. destruct (isNL c); [|reflexivity]. rewrite IHr. lia. }
    split; [reflexivity|]. split; [exact Hr|]. split; [|split].
    + apply avoid_cons; [|exact IH6]. unfold bad6. rewrite Hr.
      apply Nat.leb_gt. lia.
    + intros [H1 H2]. apply avoid_cons; [|auto].
      cbn [bad5] in *. now rewrite (headIs_hd isBlank o' s' IHh).
    + intros [H1 H2]. apply avoid_cons; [|auto].
      cbn [bad4] in *. now rewrite (headIs_hd isBlank o' s' IHh).
  - intros s' n E (IHh & IHr & IH6 & IH5 & IH4).
    assert (Hn : n = runLen isNL s' /\ 3 <= n).
    { unfold nl3Len in E. destruct (Nat.leb_spec 3 (runLen isNL s'));
        [|discriminate E]. injection E as <-. auto. }
    destruct Hn as [-> Hn].
    set (rest := skipn (runLen isNL s') s') in *.
    set (o' := out fl_g re_nl3 [NL; NL] rest) in *.
    pose proof (headIs_after_run isNL s') as Hrest. fold rest in Hrest.
    assert (Hr0 : runLen isNL rest = 0).
    { rewrite headIs_runLen in Hrest. apply Nat.leb_gt in Hrest. lia. }
    assert (Ho0 : runLen isNL o' = 0) by (rewrite IHr, Hr0; reflexivity).
    assert (Hhead : hd_error s' = Some NL).
    { destruct s' as [|c s']; [simpl in Hn; lia|]. cbn [runLen] in Hn.
      destruct (isNL c) eqn:Ec; [|lia]. apply N.eqb_eq in Ec. now subst c. }
    cbn [app]. split; [now rewrite Hhead|]. split.
    { change (runLen isNL (NL :: NL :: o')) with (S (S (runLen isNL o'))).
      rewrite Ho0. lia. }
    split; [|split].
    + apply avoid_cons; [|apply avoid_cons; [|exact IH6]]; unfold bad6.
      * change (runLen isNL (NL :: NL :: o')) with (S (S (runLen isNL o'))).
        rewrite Ho0. reflexivity.
      * change (runLen isNL (NL :: o')) with (S (runLen isNL o')).
        rewrite Ho0. reflexivity.
    + intros H. apply avoid_cons; [reflexivity|].
      apply avoid_cons; [|apply IH5; now apply avoid_skipn].
      destruct (skipn_last_of_run isNL s' ltac:(lia)) as (c & Hc & Hs).
      pose proof (avoid_skipn bad5 (runLen isNL s' - 1) s' H) as H'.
      rewrite Hs in H'. destruct H' as [H' _]. fold rest in H'.
      cbn [bad5] in *. rewrite Hc in H'. cbn [andb] in H'.
      change (isNL NL) with true. cbn [andb].
      now rewrite (headIs_hd isBlank o' rest IHh).
    + intros H. apply avoid_cons; [reflexivity|].
      apply avoid_cons; [reflexivity|]. apply IH4. now apply avoid_skipn.
Qed.

(** A text without tabs and double blanks is left as it is by
    [/[ \t]+/g]: every match is one space. *)
Lemma collapseBlanks_fixed (t : str) : avoid bad4 t -> collapseBlanks t = t.
Proof.
  intros H. unfold collapseBlanks.
  apply (out_fixed fl_g re_blanks [SP] blanksLen matchLen_blanks blanksLen_positive).
  intros a s' n -> E. apply avoid_suffix in H.
  unfold blanksLen in E. destruct (Nat.leb_spec 1 (runLen isBlank s')) as [Hn|];
    [|discriminate E]. injection E as <-.
  destruct s' as [|c rest]; [simpl in Hn; lia|]. destruct H as [H _].
  cbn [bad4 runLen] in *. destruct (isBlank c) eqn:Ec; [|lia].
  apply orb_false_elim in H. destruct H as [Ht Hh]. cbn [andb] in Hh.
  rewrite headIs_runLen in Hh. apply Nat.leb_gt in Hh.
  replace (runLen isBlank rest) with 0 by lia. cbn [firstn].
  unfold isBlank in Ec. rewrite Ht, orb_false_r in Ec.
  apply N.eqb_eq in Ec. now subst c.
Qed.

Lemma dropIndent_fixed (t : str) : avoid bad5 t -> dropIndent t = t.
Proof.
  intros H. unfold dropIndent.
  apply (out_noMatch fl_g re_nlBlanks [NL] nlBlanksLen matchLen_nlBlanks
           nlBlanksLen_positive).
  intros a s' ->. apply avoid_suffix in H.
  destruct s' as [|c rest]; [reflexivity|]. destruct H as [H _].
  cbn [bad5 nlBlanksLen] in *. now rewrite <- headIs_runLen, H.
Qed.

Lemma capNewlines_fixed (t : str) : avoid bad6 t -> capNewlines t = t.
Proof.
  intros H. unfold capNewlines.
  apply (out_noMatch fl_g re_nl3 [NL; NL] nl3Len matchLen_nl3 nl3Len_positive).
  intros a s' ->. apply avoid_suffix in H.
  destruct s' as [|c rest]; [reflexivity|]. destruct H as [H _].
  unfold bad6 in H. unfold nl3Len. now rewrite H.
Qed.

Lemma trim_trim (x : str) : trim (trim x) = trim x.
Proof. apply trim_fixed, trim_noSpaceEnds. Qed.

(** The tidied text is tidy. *)
Lemma tidy_avoid (s : str) :
  avoid bad4 (tidy s) /\ avoid bad5 (tidy s) /\ avoid bad6 (tidy s).
Proof.
  pose proof (collapseBlanks_avoid s) as H4.
  destruct (dropIndent_avoid (collapseBlanks s)) as (H5 & K4).
  destruct (capNewlines_avoid (dropIndent (collapseBlanks s))) as (H6 & K5 & L4).
  unfold tidy. repeat split; apply avoid_trim; auto.
  - exact bad4_prefix.
  - exact bad5_prefix.
  - exact bad6_prefix.
Qed.

(** The white-space steps reach a fixed point in one pass. *)
Lemma tidy_idempotent (s : str) : tidy (tidy s) = tidy s.
Proof.
  destruct (tidy_avoid s) as (H4 & H5 & H6).
  unfold tidy at 1.
  rewrite (collapseBlanks_fixed _ H4), (dropIndent_fixed _ H5),
    (capNewlines_fixed _ H6).
  unfold tidy. apply trim_trim.
Qed.

(** *** The removal steps of the cleaning *)

Lemma flat_map_all_nil (A B : Type) (f : A -> list B) (l : list A) :
  (forall x, In x l -> f x = []) -> flat_map f l = [].
Proof.
  induction l as [|x l IH]; intros H; [reflexivity|].
  cbn [flat_map]. rewrite (H x (or_introl eq_refl)). apply IH.
  intros y Hy. apply H. now right.
Qed.

Lemma reps_suffix (f : char -> bool) (s : str) :
  forall hi prev st, In st (reps f hi prev s) -> exists a, s = a ++ snd st.
Proof.
  induction s as [|c s IH]; intros hi prev st; cbn [reps].
  - intros [<-|[]]. now exists [].
  - intros [<-|H]; [now exists []|].
    destruct (f c); [|contradiction].
    destruct hi as [[|h]|]; try contradiction;
      destruct (IH _ _ _ H) as (a & ->); now exists (c :: a).
Qed.

(** The matcher only moves forward: every state it reaches is at a suffix
    of the text it started on. *)
Lemma run_suffix (fl : flags) (r : regex) :
  forall prev s st, In st (run fl r prev s) -> exists a, s = a ++ snd st.
Proof.
  induction r as [|a|r1 IH1 r2 IH2|r1 IH1 r2 IH2|g lo hi a| | | |r IH];
    intros prev s st; cbn [run].
  - intros [<-|[]]. now exists [].
  - destruct s as [|c s]; [contradiction|].
    destruct (atomMatch fl a c); [|contradiction].
    intros [<-|[]]. now exists [c].
  - intros H. apply in_flat_map in H. destruct H as (st1 & H1 & H2).
    destruct (IH1 _ _ _ H1) as (a1 & ->). destruct (IH2 _ _ _ H2) as (a2 & E).
    exists (a1 ++ a2). now rewrite E, app_assoc.
  - intros H. apply in_app_or in H. destruct H as [H|H]; eauto.
  - intros H.
    assert (H' : In st (reps (atomMatch fl a) hi prev s)).
    { destruct g; [apply in_rev in H|];
        rewrite <- (firstn_skipn lo (reps _ _ _ _)); apply in_or_app; now right. }
    exact (reps_suffix _ _ _ _ _ H').
  - destruct (atBol fl prev); [|contradiction]. intros [<-|[]]. now exists [].
  - destruct (atEol fl s); [|contradiction]. intros [<-|[]]. now exists [].
  - destruct (xorb _ _); [|contradiction]. intros [<-|[]]. now exists [].
  - destruct (run fl r prev s); [contradiction|]. intros [<-|[]]. now exists [].
Qed.

(** A pattern that needs, after [r1], a code unit the text does not have
    matches nowhere. *)
Lemma run_blocked (fl : flags) (r1 r2 : regex) (a : atom) (prev : option char)
      (s : str) :
  Forall (fun c => atomMatch fl a c = false) s ->
  run fl (Seq r1 (Seq (One a) r2)) prev s = [].
Proof.
  intros H. rewrite run_Seq. apply flat_map_all_nil. intros st Hst.
  destruct (run_suffix fl r1 prev s st Hst) as (x & E).
  rewrite E in H. apply Forall_app in H. destruct H as [_ H].
  rewrite run_Seq. cbn [run]. destruct (snd st) as [|c rest]; [reflexivity|].
  inversion H as [|? ? Hc _]; subst. now rewrite Hc.
Qed.

(** The marker of the boilerplate pattern, as the i flag sees it. *)
Definition MARKER : str := lit "USA.GOV".

(** The marker starts nowhere in [t], in any letter case. *)
Definition noMarker (t : str) : Prop :=
  forall a s', t = a ++ s' -> startsWith (List.map canon s') MARKER = false.

Lemma includes_false (t pat : str) :
  includes t pat = false -> forall a s', t = a ++ s' -> startsWith s' pat = false.
Proof.
  revert pat. induction t as [|c t IH]; intros pat H a s' E.
  - symmetry in E. apply app_eq_nil in E. destruct E as [_ ->].
    cbn [includes] in H. now apply orb_false_elim in H.
  - cbn [includes] in H. apply orb_false_elim in H. destruct H as [H1 H2].
    destruct a as [|x a]; [cbn [app] in E; now subst s'|].
    injection E as _ E. exact (IH pat H2 a s' E).
Qed.

Lemma noMarker_intro (t : str) :
  includes (List.map canon t) MARKER = false -> noMarker t.
Proof.
  intros H a s' ->. rewrite map_app in H.
  exact (includes_false _ _ H (List.map canon a) (List.map canon s') eq_refl).
Qed.

(** A literal that is not at the start of the text, letter case aside,
    does not match there. *)
Lemma run_chars_fail (w : str) :
  w <> [] ->
  forall prev s,
    startsWith (List.map canon s) (List.map canon w) = false ->
    run fl_gis (chars w) prev s = [].
Proof.
  induction w as [|c w IH]; intros Hne prev s H; [contradiction|].
  assert (Hc : forall x s', startsWith (List.map canon (x :: s'))
                              (List.map canon (c :: w)) = false ->
               N.eqb (canon x) (canon c) = true ->
               startsWith (List.map canon s') (List.map canon w) = false).
  { intros x s' H' E. cbn [List.map startsWith] in H'.
    rewrite N.eqb_sym in E. now rewrite E in H'. }
  destruct w as [|c2 w].
  - cbn [chars]. rewrite run_chr. destruct s as [|x s']; [reflexivity|].
    cbn [atomMatch ignoreCase fl_gis].
    destruct (N.eqb (canon x) (canon c)) eqn:E; [|reflexivity].
    specialize (Hc x s' H E). discriminate Hc.
  - change (chars (c :: c2 :: w)) with (Seq (chr c) (chars (c2 :: w))).
    rewrite run_Seq, run_chr. destruct s as [|x s']; [reflexivity|].
    cbn [atomMatch ignoreCase fl_gis].
    destruct (N.eqb (canon x) (canon c)) eqn:E; [|reflexivity].
    cbn [flat_map fst snd]. rewrite app_nil_r.
    apply IH; [discriminate|]. exact (Hc x s' H E).
Qed.

(** Without the marker the boilerplate pattern matches nowhere. *)
Lemma usagov_noop (t : str) :
  noMarker t -> replaceAll fl_gis re_usagov (const []) t = t.
Proof.
  intros H. apply replaceAll_noMatch. intros a s' prev E.
  unfold matchLen, re_usagov. cbn [seqs]. rewrite run_Seq.
  unfold word. rewrite run_chars_fail; [reflexivity|discriminate|].
  exact (H a s' E).
Qed.

Lemma startsWith_app_mono (u v p : str) :
  startsWith u p = true -> startsWith (u ++ v) p = true.
Proof.
  intros H. destruct (startsWith_split u p H) as (r & ->).
  rewrite <- app_assoc. apply startsWith_app.
Qed.

Lemma startsWith_app_cases (p : str) :
  forall u v,
    startsWith (u ++ v) p = true ->
    startsWith u p = true
    \/ exists p2, p2 <> [] /\ p = u ++ p2 /\ startsWith v p2 = true.
Proof.
  induction p as [|x p IH]; intros u v H; [now left|].
  destruct u as [|y u].
  - right. exists (x :: p). repeat split; [discriminate|exact H].
  - cbn [app startsWith] in *. apply andb_prop in H. destruct H as [E H].
    rewrite E. apply N.eqb_eq in E. subst y.
    destruct (IH u v H) as [H'|(p2 & Hne & -> & H')]; [now left|].
    right. exists p2. auto.
Qed.

Lemma noMarker_suffix (a t : str) : noMarker (a ++ t) -> noMarker t.
Proof.
  intros H a' s' ->. apply (H (a ++ a') s'). now rewrite app_assoc.
Qed.

Lemma noMarker_prefix (t b : str) : noMarker (t ++ b) -> noMarker t.
Proof.
  intros H a s' ->.
  specialize (H a (s' ++ b) ltac:(now rewrite app_assoc)).
  destruct (startsWith (List.map canon s') MARKER) eqn:E; [|reflexivity].
  rewrite map_app, (startsWith_app_mono _ _ _ E) in H. discriminate H.
Qed.

Lemma noMarker_trim (t : str) : noMarker t -> noMarker (trim t).
Proof.
  intros H. destruct (trim_substring t) as (a & b & E). rewrite E in H.
  apply noMarker_suffix in H. now apply noMarker_prefix in H.
Qed.

(** No code unit of [sep] is in the marker. *)
Definition offMarker (sep : str) : Prop :=
  Forall (fun c => existsb (N.eqb (canon c)) MARKER = false) sep.

Lemma offMarker_head (c : char) (rest p : str) :
  existsb (N.eqb (canon c)) MARKER = false ->
  forall pre, MARKER = pre ++ p -> p <> [] ->
    startsWith (List.map canon (c :: rest)) p = false.
Proof.
  intros Hc pre E Hp. destruct p as [|z p]; [contradiction|].
  cbn [List.map startsWith]. destruct (N.eqb z (canon c)) eqn:Ez; [|reflexivity].
  apply N.eqb_eq in Ez. subst z. exfalso.
  assert (H : existsb (N.eqb (canon c)) MARKER = true).
  { apply existsb_exists. exists (canon c). split; [|apply N.eqb_refl].
    rewrite E. apply in_or_app. right. now left. }
  rewrite H in Hc. discriminate Hc.
Qed.

(** Putting a text that is off the marker between two texts without the
    marker gives a text without the marker. *)
Lemma noMarker_between (x sep y : str) :
  noMarker x -> noMarker y -> sep <> [] -> offMarker sep ->
  noMarker (x ++ sep ++ y).
Proof.
  intros Hx Hy Hne Hsep a s' E.
  apply app_eq_app in E. destruct E as (l & [(-> & ->)|(-> & E)]).
  - (* the position is in [x] *)
    destruct (startsWith (List.map canon (l ++ sep ++ y)) MARKER) eqn:S;
      [|reflexivity].
    rewrite map_app in S.
    destruct (startsWith_app_cases _ _ _ S) as [S'|(p2 & Hp & Ep & S')].
    + now rewrite (Hx a l eq_refl) in S'.
    + destruct sep as [|c sep]; [contradiction|].
      inversion Hsep as [|? ? Hc _]; subst.
      pose proof (offMarker_head c (sep ++ y) p2 Hc _ Ep Hp) as K.
      cbn [app] in S'. rewrite K in S'. discriminate S'.
  - apply app_eq_app in E. destruct E as (l' & [(-> & ->)|(-> & ->)]).
    + (* the position is in [sep] *)
      destruct l' as [|c l']; [exact (Hy [] y eq_refl)|].
      apply Forall_app in Hsep. destruct Hsep as [_ Hsep].
      inversion Hsep as [|? ? Hc _]; subst.
      apply (offMarker_head c (l' ++ y) MARKER Hc []); [reflexivity|discriminate].
    + exact (Hy l' s' eq_refl).
Qed.

Section MarkerScan.

Variable fl : flags.
Variable r : regex.
Variable sep : str.
Variable m : str -> option nat.
Hypothesis matchLen_m : forall prev s, matchLen fl r prev s = m s.
Hypothesis m_positive : forall s n, m s = Some n -> 1 <= n.
Hypothesis sep_nonempty : sep <> [].
Hypothesis sep_off : offMarker sep.

(** Replacing matches by such a text brings no marker in. *)
Lemma out_noMarker (s : str) :
  noMarker s -> noMarker (out fl r sep s).
Proof.
  intros H.
  cut (forall p, noMarker (p ++ s) -> noMarker (p ++ out fl r sep s)).
  { intros C. exact (C [] H). }
  clear H.
  apply (scan_ind fl r sep m matchLen_m m_positive
           (fun s o => forall p, noMarker (p ++ s) -> noMarker (p ++ o))).
  - auto.
  - intros c s' _ IH p H.
    change (p ++ c :: out fl r sep s') with (p ++ [c] ++ out fl r sep s').
    rewrite app_assoc. apply IH. now rewrite <- app_assoc.
  - intros s' n _ IH p H. apply noMarker_between; auto.
    + now apply noMarker_prefix in H.
    + apply (IH []). apply (noMarker_suffix (p ++ firstn n s')).
      now rewrite <- app_assoc, firstn_skipn.
Qed.

End MarkerScan.

Lemma tidy_noMarker (t : str) : noMarker t -> noMarker (tidy t).
Proof.
  intros H. unfold tidy, capNewlines, dropIndent, collapseBlanks.
  apply noMarker_trim.
  apply (out_noMarker fl_g re_nl3 [NL; NL] nl3Len matchLen_nl3 nl3Len_positive);
    [discriminate|repeat constructor|].
  apply (out_noMarker fl_g re_nlBlanks [NL] nlBlanksLen matchLen_nlBlanks
           nlBlanksLen_positive); [discriminate|repeat constructor|].
  apply (out_noMarker fl_g re_blanks [SP] blanksLen matchLen_blanks
           blanksLen_positive); [discriminate|repeat constructor|].
  exact H.
Qed.

(** *** Where the first split cuts *)

Section Cuts.

Variable fl : flags.
Variable r : regex.

(** The pieces and separators of a split, each seen with the text that
    follows it: every separator is the match found where it stands, and no
    match starts inside a piece. *)
Fixpoint cutsAt (pieces seps : list str) : Prop :=
  match pieces with
  | [] => False
  | p :: ps =>
      match seps with
      | [] => ps = [] /\ hitFree fl r p []
      | sp :: ss =>
          hitFree fl r p (sp ++ interleave ps ss)
          /\ (exists prev,
                 matchLen fl r prev (sp ++ interleave ps ss) = Some (length sp))
          /\ cutsAt ps ss
      end
  end.

Lemma splitFrom_cutsAt (n : nat) :
  forall s, length s <= n -> forall prev acc,
    hitFree fl r (rev acc) s ->
    exists seps,
      interleave (splitFrom fl r prev 0 acc s) seps = rev acc ++ s
      /\ cutsAt (splitFrom fl r prev 0 acc s) seps.
Proof.
  induction n as [|n IH]; intros s Hn prev acc Hacc.
  - destruct s; [|simpl in Hn; lia].
    exists []. cbn [splitFrom interleave cutsAt]. auto.
  - destruct s as [|c s].
    { exists []. cbn [splitFrom interleave cutsAt]. auto. }
    simpl in Hn. cbn [splitFrom].
    destruct (matchLen fl r prev (c :: s)) as [[|k]|] eqn:M.
    + assert (H1 : hitFree fl r (rev [c]) s).
      { apply (@hitFree_snoc fl r [] c s prev); [apply hitFree_nil|now right]. }
      destruct (IH s ltac:(lia) (Some c) [c] H1) as (seps & I & C).
      destruct acc as [|a acc].
      * exists seps. auto.
      * exists ([] :: seps). cbn [interleave cutsAt]. rewrite I.
        cbn [rev app] in *. repeat split; auto. exists prev. exact M.
    + pose proof (matchLen_le _ _ _ _ M) as Hk. simpl in Hk.
      destruct (splitFrom_skip fl r s (Some c) [] (k := k) ltac:(lia)) as (prev' & E).
      rewrite E.
      destruct (IH (skipn k s) ltac:(rewrite length_skipn; lia) prev' []
                  (hitFree_nil fl r _)) as (seps & I & C).
      exists ((c :: firstn k s) :: seps). cbn [interleave cutsAt]. rewrite I.
      cbn [rev app]. rewrite firstn_skipn.
      repeat split; auto. exists prev.
      cbn [length]. rewrite length_firstn, Nat.min_l by lia. exact M.
    + destruct (IH s ltac:(lia) (Some c) (c :: acc)) as (seps & I & C).
      { cbn [rev]. apply (@hitFree_snoc fl r (rev acc) c s prev);
          [exact Hacc|now left]. }
      exists seps. cbn [rev] in I. rewrite <- app_assoc in I. auto.
Qed.

End Cuts.

(** A first-tier separator where it stands: a whole run of two or more
    newlines, or a whole run of three or more dots; [rest] is the text after
    it. *)
Definition wholeRun (sp rest : str) : Prop :=
  (2 <= length sp /\ Forall (fun c => c = NL) sp
   /\ startsWith rest [NL] = false)
  \/ (3 <= length sp /\ Forall (fun c => c = 46%N) sp
      /\ startsWith rest [46%N] = false).

(** No run of two newlines or three dots begins inside [p], also when the
    text [rest] after [p] is counted. *)
Definition noBreakIn (p rest : str) : Prop :=
  forall a b, p = a ++ b -> b <> [] ->
    startsWith (b ++ rest) [NL; NL] = false
    /\ startsWith (b ++ rest) (lit "...") = false.

(** The first split, piece by piece. *)
Fixpoint cutAtRuns (pieces seps : list str) : Prop :=
  match pieces with
  | [] => False
  | p :: ps =>
      match seps with
      | [] => ps = [] /\ noBreakIn p []
      | sp :: ss =>
          noBreakIn p (sp ++ interleave ps ss)
          /\ wholeRun sp (interleave ps ss)
          /\ cutAtRuns ps ss
      end
  end.

Lemma runLen_app_all (f : char -> bool) (m rest : str) :
  Forall (fun c => f c = true) m ->
  runLen f (m ++ rest) = length m + runLen f rest.
Proof.
  induction 1 as [|c m Hc _ IH]; [reflexivity|].
  cbn [app runLen length]. rewrite Hc, IH. reflexivity.
Qed.

Lemma runLen_head (f : char -> bool) (s : str) :
  runLen f s = 0 -> match s with c :: _ => f c = false | [] => True end.
Proof.
  destruct s as [|c s]; [auto|]. cbn [runLen]. destruct (f c); [discriminate|auto].
Qed.

Lemma wholeRun_break (sp rest : str) (prev : option char) :
  matchLen fl_g re_break prev (sp ++ rest) = Some (length sp) ->
  wholeRun sp rest.
Proof.
  rewrite matchLen_break. unfold breakLen. intros M.
  assert (K : forall f x, (forall c, f c = N.eqb c x) ->
                length sp = runLen f (sp ++ rest) ->
                Forall (fun c => c = x) sp /\ startsWith rest [x] = false).
  { intros f x Hf E.
    assert (F : Forall (fun c => f c = true) sp) by now apply (run_prefix f sp rest).
    split.
    - apply Forall_eqb. revert F. apply Forall_impl. intros c. now rewrite Hf.
    - rewrite (runLen_app_all f sp rest F) in E.
      assert (Z : runLen f rest = 0) by lia.
      apply runLen_head in Z. destruct rest as [|c rest']; [reflexivity|].
      cbn [startsWith]. rewrite andb_true_r. rewrite Hf in Z.
      rewrite N.eqb_sym. exact Z. }
  destruct (Nat.leb_spec 2 (runLen isNL (sp ++ rest))) as [H|H].
  - injection M as M. left. split; [lia|].
    apply (K isNL NL); [reflexivity|auto].
  - destruct (Nat.leb_spec 3 (runLen isDot (sp ++ rest))) as [H'|H']; [|discriminate].
    injection M as M. right. split; [lia|].
    apply (K isDot 46%N); [reflexivity|auto].
Qed.

Lemma breakLen_starts (x : str) :
  breakLen x = None ->
  startsWith x [NL; NL] = false /\ startsWith x (lit "...") = false.
Proof.
  unfold breakLen. intros H.
  destruct (Nat.leb_spec 2 (runLen isNL x)) as [|H2]; [discriminate|].
  destruct (Nat.leb_spec 3 (runLen isDot x)) as [|H3]; [discriminate|].
  split.
  - destruct x as [|c [|d x]]; cbn [startsWith]; try reflexivity;
      [now rewrite andb_false_r|].
    cbn [runLen] in H2. unfold isNL in H2. rewrite (N.eqb_sym NL c), (N.eqb_sym NL d).
    destruct (N.eqb c NL); [|reflexivity].
    destruct (N.eqb d NL); [lia|reflexivity].
  - change (lit "...") with [46%N; 46%N; 46%N].
    destruct x as [|c [|d [|e x]]]; cbn [startsWith]; try reflexivity;
      rewrite ?andb_false_r; try reflexivity.
    cbn [runLen] in H3. unfold isDot in H3.
    rewrite (N.eqb_sym 46 c), (N.eqb_sym 46 d), (N.eqb_sym 46 e).
    destruct (N.eqb c 46); [|reflexivity].
    destruct (N.eqb d 46); [|reflexivity].
    destruct (N.eqb e 46); [lia|reflexivity].
Qed.

Lemma matchLen_break_positive (prev : option char) (s : str) :
  matchLen fl_g re_break prev s <> Some 0.
Proof.
  rewrite matchLen_break. unfold breakLen.
  destruct (Nat.leb_spec 2 (runLen isNL s)); [intros [= E]; lia|].
  destruct (Nat.leb_spec 3 (runLen isDot s)); [intros [= E]; lia|discriminate].
Qed.

Lemma noBreakIn_break (p rest : str) :
  hitFree fl_g re_break p rest -> noBreakIn p rest.
Proof.
  intros H a b E Hb. destruct b as [|c b]; [contradiction|].
  destruct (H a c b E) as (prev & [M|M]).
  - rewrite matchLen_break in M. now apply breakLen_starts.
  - now apply matchLen_break_positive in M.
Qed.

Lemma cutAtRuns_break (pieces : list str) :
  forall seps, cutsAt fl_g re_break pieces seps -> cutAtRuns pieces seps.
Proof.
  induction pieces as [|p ps IH]; intros seps H; [contradiction|].
  destruct seps as [|sp ss]; cbn [cutsAt cutAtRuns] in *.
  - destruct H as [-> H]. split; [reflexivity|now apply noBreakIn_break].
  - destruct H as (H1 & (prev & H2) & H3).
    split; [now apply noBreakIn_break|].
    split; [now apply (wholeRun_break sp _ prev)|now apply IH].
Qed.

Lemma cutAtRuns_length (pieces : list str) :
  forall seps, cutAtRuns pieces seps -> length pieces = S (length seps).
Proof.
  induction pieces as [|p ps IH]; intros seps H; [contradiction|].
  destruct seps as [|sp ss]; cbn [cutAtRuns] in H.
  - destruct H as [-> _]. reflexivity.
  - destruct H as (_ & _ & H). cbn [length]. f_equal. now apply IH.
Qed.

(** The first split cuts the text at the whole runs, and only there. *)
Lemma split_break_runs (t : str) :
  exists seps,
    interleave (split fl_g re_break t) seps = t
    /\ cutAtRuns (split fl_g re_break t) seps.
Proof.
  destruct t as [|c t].
  - exists []. split; [reflexivity|]. cbn. split; [reflexivity|].
    intros a b E Hb. destruct a; destruct b; try discriminate E. contradiction.
  - destruct (splitFrom_cutsAt fl_g re_break (length (c :: t)) (c :: t)
                (Nat.le_refl _) None [] (hitFree_nil fl_g re_break _))
      as (seps & I & C).
    exists seps. split; [exact I|]. now apply cutAtRuns_break.
Qed.

(** A whole run begins with two newlines or with three dots. *)
Lemma wholeRun_starts (sp rest x : str) :
  wholeRun sp rest ->
  startsWith (sp ++ x) [NL; NL] = true \/ startsWith (sp ++ x) (lit "...") = true.
Proof.
  intros [(L & F & _)|(L & F & _)].
  - left. destruct sp as [|c [|d sp]]; cbn [length] in L; try lia.
    inversion F as [|? ? -> F']; subst. inversion F' as [|? ? -> _]; subst.
    reflexivity.
  - right. destruct sp as [|c [|d [|e sp]]]; cbn [length] in L; try lia.
    inversion F as [|? ? -> F']; subst. inversion F' as [|? ? -> F'']; subst.
    inversion F'' as [|? ? -> _]; subst. reflexivity.
Qed.

Lemma noBreakIn_blocks (p rest a b sp rest' : str) :
  noBreakIn p rest -> p = a ++ b -> b <> [] ->
  b ++ rest = sp ++ rest' -> wholeRun sp rest' -> False.
Proof.
  intros H E Hb Eq W. destruct (H a b E Hb) as [H1 H2].
  rewrite Eq in H1, H2.
  destruct (wholeRun_starts sp rest' rest' W) as [K|K].
  - rewrite K in H1. discriminate H1.
  - rewrite K in H2. discriminate H2.
Qed.

(** The code unit a whole run is made of. *)
Lemma wholeRun_unit (sp rest : str) :
  wholeRun sp rest ->
  exists x, sp <> [] /\ Forall (fun c => c = x) sp /\ startsWith rest [x] = false.
Proof.
  intros [(L & F & K)|(L & F & K)]; [exists NL|exists 46%N];
    (split; [intros ->; cbn [length] in L; lia|split; assumption]).
Qed.

(** Two whole runs that begin at the same place are the same run. *)
Lemma wholeRun_same (sp rest sp' rest' : str) :
  wholeRun sp rest -> wholeRun sp' rest' ->
  sp ++ rest = sp' ++ rest' -> sp = sp' /\ rest = rest'.
Proof.
  intros W W' E.
  destruct (wholeRun_unit _ _ W) as (x & Hne & F & K).
  destruct (wholeRun_unit _ _ W') as (x' & Hne' & F' & K').
  assert (X : x = x').
  { destruct sp as [|c sp]; [contradiction|].
    destruct sp' as [|c' sp']; [contradiction|].
    injection E as Ec _. inversion F; inversion F'; subst. reflexivity. }
  subst x'.
  assert (G : forall u v w z : str,
             u ++ v = w ++ z -> Forall (fun c => c = x) u ->
             startsWith z [x] = false ->
             exists l, w = u ++ l).
  { intros u v w z Eq Fu Kz. apply app_eq_app in Eq.
    destruct Eq as (l & [(-> & ->)|(-> & ->)]).
    - destruct l as [|d l]; [exists []; now rewrite !app_nil_r|].
      exfalso. apply Forall_app in Fu. destruct Fu as [_ Fu].
      inversion Fu as [|? ? -> _]; subst.
      cbn [app startsWith] in Kz. now rewrite N.eqb_refl in Kz.
    - now exists l. }
  destruct (G sp rest sp' rest' E F K') as (l & E1).
  destruct (G sp' rest' sp rest (eq_sym E) F' K) as (l' & E2).
  assert (L0 : l = []).
  { rewrite E1 in E2. rewrite <- app_assoc in E2.
    rewrite <- (app_nil_r sp) in E2 at 1. apply app_inv_head in E2.
    symmetry in E2. apply app_eq_nil in E2. apply E2. }
  subst l. rewrite app_nil_r in E1. subst sp'.
  split; [reflexivity|]. now apply app_inv_head in E.
Qed.

(** The whole runs, and nothing else, tell where the text is cut: two ways
    of cutting it at its runs are the same. *)
Lemma cutAtRuns_unique (pieces : list str) :
  forall seps pieces' seps',
    cutAtRuns pieces seps -> cutAtRuns pieces' seps' ->
    interleave pieces seps = interleave pieces' seps' ->
    pieces = pieces' /\ seps = seps'.
Proof.
  induction pieces as [|p ps IH]; intros seps pieces' seps' C C' E;
    [contradiction|].
  destruct pieces' as [|p' ps']; [contradiction|].
  cbn [interleave] in E.
  destruct seps as [|sp ss]; destruct seps' as [|sp' ss']; cbn [cutAtRuns] in C, C'.
  - destruct C as [-> _]. destruct C' as [-> _].
    rewrite !app_nil_r in E. now subst p'.
  - exfalso. destruct C as [_ N]. destruct C' as (_ & W' & _).
    rewrite app_nil_r in E.
    destruct (wholeRun_unit _ _ W') as (x & Hne & _).
    apply (noBreakIn_blocks p [] p' (sp' ++ interleave ps' ss') sp'
             (interleave ps' ss') N E).
    + intros K. apply app_eq_nil in K. destruct K as [K _]. contradiction.
    + now rewrite app_nil_r.
    + exact W'.
  - exfalso. destruct C' as [_ N']. destruct C as (_ & W & _).
    rewrite app_nil_r in E.
    destruct (wholeRun_unit _ _ W) as (x & Hne & _).
    apply (noBreakIn_blocks p' [] p (sp ++ interleave ps ss) sp
             (interleave ps ss) N' (eq_sym E)).
    + intros K. apply app_eq_nil in K. destruct K as [K _]. contradiction.
    + now rewrite app_nil_r.
    + exact W.
  - destruct C as (N & W & C). destruct C' as (N' & W' & C').
    assert (P : p = p' /\ sp ++ interleave ps ss = sp' ++ interleave ps' ss').
    { apply app_eq_app in E. destruct E as (l & [(E1 & E2)|(E1 & E2)]).
      - destruct l as [|d l].
        + rewrite app_nil_r in E1. cbn [app] in E2. now split.
        + exfalso.
          apply (noBreakIn_blocks p _ p' (d :: l) sp' (interleave ps' ss') N E1);
            [discriminate|now symmetry|exact W'].
      - destruct l as [|d l].
        + rewrite app_nil_r in E1. cbn [app] in E2. now split.
        + exfalso.
          apply (noBreakIn_blocks p' _ p (d :: l) sp (interleave ps ss) N' E1);
            [discriminate|now symmetry|exact W]. }
    destruct P as [-> E'].
    destruct (wholeRun_same _ _ _ _ W W' E') as [-> E''].
    destruct (IH ss ps' ss' C C' E'') as [-> ->]. now split.
Qed.

(** C6: the first tier splits the cleaned text at the runs of two or more
    newlines and at the runs of three or more dots.  The pieces, put back
    together with the separators between them, are the text; every
    separator is a whole run (two or more newlines not followed by a
    newline, or three or more dots not followed by a dot); and no such run
    begins inside a piece, the text after the piece counted.  This leaves
    no choice: any other way of cutting the text so has the same pieces.
    When there is more than one piece, [paragraphs] (line 177) is the
    trimmed pieces longer than 15 code units, in their order. *)
Theorem tierA_paragraphs (toUpperCase : str -> str) (cleanedText : str) :
  let pieces := split fl_g re_break cleanedText in
  (exists seps,
      length pieces = S (length seps)
      /\ interleave pieces seps = cleanedText
      /\ cutAtRuns pieces seps)
  /\ (forall pieces' seps',
        interleave pieces' seps' = cleanedText ->
        cutAtRuns pieces' seps' ->
        pieces' = pieces)
  /\ (length pieces <> 1 ->
      initialParagraphs toUpperCase cleanedText
      = filter (fun p => 15 <? length p) (List.map trim pieces)).
Proof.
  intros pieces. destruct (split_break_runs cleanedText) as (seps & I & C).
  fold pieces in I, C. split; [|split].
  - exists seps. split; [now apply cutAtRuns_length|now split].
  - intros pieces' seps' I' C'.
    apply (cutAtRuns_unique pieces' seps' pieces seps C' C).
    now rewrite I, I'.
  - intros Hn. unfold initialParagraphs. fold pieces.
    destruct (Nat.eqb_spec (length pieces) 1); [contradiction|reflexivity].
Qed.

Definition tierA_sample : str :=
  lit "Gale warning in effect" ++ [NL; NL; NL] ++ lit "short" ++ lit "...."
  ++ lit "Seas building to 12 ft late".

Lemma tierA_paragraphs_witness :
  length (split fl_g re_break tierA_sample) <> 1
  /\ split fl_g re_break tierA_sample
     = [lit "Gale warning in effect"; lit "short";
        lit "Seas building to 12 ft late"]
  /\ initialParagraphs toUpperCaseLatin tierA_sample
     = [lit "Gale warning in effect"; lit "Seas building to 12 ft late"].
Proof.
  assert (H : length (split fl_g re_break tierA_sample) <> 1)
    by (vm_compute; discriminate).
  split; [exact H|]. split; [vm_compute; reflexivity|].
  rewrite (proj2 (proj2 (tierA_paragraphs toUpperCaseLatin tierA_sample)) H).
  vm_compute. reflexivity.
Defined.

End FormatFacts.


(** ** Facts about the life cycle *)

Module LoaderFacts.
Import JS Regex Discussion JSFacts RenderFacts Loader.

Section Life.

Variable parseDate : str -> option Z.
Variable formatEnUS : Z -> str.
Variable toUpperCase : str -> str.

(** [render] reads [currentData] and writes the content: what the content
    was does not matter, and the two other fields are kept. *)
Lemma render_from_data (w : widget) :
  render parseDate formatEnUS toUpperCase w = Throw
  \/ exists html, forall w2, currentData w2 = currentData w ->
       render parseDate formatEnUS toUpperCase w2 = Ok (setContent w2 html).
Proof.
  unfold render.
  destruct (currentData w) as [data|] eqn:Ed.
  2:{ right. exists loadingHtml. intros w2 E. now rewrite E. }
  destruct (props data) as [p|] eqn:Ep.
  2:{ right. exists loadingHtml. intros w2 E. now rewrite E, Ep. }
  destruct (text p) as [t|] eqn:Et.
  2:{ right. exists (errorHtml (lit "No discussion available")).
      intros w2 E. now rewrite E, Ep, Et. }
  destruct (isEmpty t || (length (trim t) =? 0)) eqn:Eb.
  { right. exists (errorHtml (lit "No discussion available")).
    intros w2 E. now rewrite E, Ep, Et, Eb. }
  match goal with
  | |- bind ?m _ = Throw \/ _ => destruct m as [time|] eqn:Em
  end.
  - right. exists (bodyHtml (orElse (officeName p) (office p)) time
                            (formatText toUpperCase t)).
    intros w2 E. rewrite E, Ep, Et, Eb, Em. reflexivity.
  - left. reflexivity.
Qed.

Lemma render_Ok (w w' : widget) :
  render parseDate formatEnUS toUpperCase w = Ok w' ->
  w' = setContent w (content w')
  /\ forall w2, currentData w2 = currentData w ->
       render parseDate formatEnUS toUpperCase w2 = Ok (setContent w2 (content w')).
Proof.
  intros H. destruct (render_from_data w) as [E|[html E]].
  - rewrite E in H. discriminate H.
  - pose proof (E w eq_refl) as E1. rewrite E1 in H. injection H as <-.
    split; [reflexivity|]. exact E.
Qed.

Lemma render_Throw (w w2 : widget) :
  render parseDate formatEnUS toUpperCase w = Throw ->
  currentData w2 = currentData w ->
  render parseDate formatEnUS toUpperCase w2 = Throw.
Proof.
  intros H E. destruct (render_from_data w2) as [E2|[html E2]]; [exact E2|].
  rewrite (E2 w (eq_sym E)) in H. discriminate H.
Qed.

Lemma render_any_content (d : option bulletin) (o : option str) (c1 c2 : str) :
  render parseDate formatEnUS toUpperCase (Widget d o c1)
  = render parseDate formatEnUS toUpperCase (Widget d o c2).
Proof.
  destruct (render_from_data (Widget d o c1)) as [E|[html E]].
  - rewrite E. symmetry. now apply render_Throw with (w := Widget d o c1).
  - rewrite (E (Widget d o c1) eq_refl), (E (Widget d o c2) eq_refl).
    reflexivity.
Qed.

(** The content [render] leaves is one of the three kinds. *)
Lemma render_kinds (w w' : widget) :
  render parseDate formatEnUS toUpperCase w = Ok w' ->
  content w' = loadingHtml
  \/ content w' = errorHtml (lit "No discussion available")
  \/ exists title time body, content w' = bodyHtml title time body.
Proof.
  unfold render.
  destruct (currentData w) as [data|]; [|intros [= <-]; now left].
  destruct (props data) as [p|]; [|intros [= <-]; now left].
  destruct (text p) as [t|]; [|intros [= <-]; right; now left].
  destruct (isEmpty t || (length (trim t) =? 0));
    [intros [= <-]; right; now left|].
  match goal with
  | |- bind ?m _ = _ -> _ => destruct m as [time|]
  end; [|discriminate].
  intros [= <-]. right. right. eexists _, _, _. reflexivity.
Qed.


(** X1: [update] replaces the data as a whole: after an update that returned,
    the fields other than the content are the new data and the old office,
    a second update gives what it gives on the first widget, and updating
    with the same data again changes nothing. *)
Theorem update_last_wins (d1 d2 : option bulletin) (w w1 : widget) :
  update parseDate formatEnUS toUpperCase d1 w = Ok w1 ->
  currentData w1 = d1
  /\ currentOffice w1 = currentOffice w
  /\ update parseDate formatEnUS toUpperCase d2 w1
     = update parseDate formatEnUS toUpperCase d2 w
  /\ update parseDate formatEnUS toUpperCase d1 w1 = Ok w1.
Proof.
  unfold update. intros H.
  destruct (render_Ok _ H) as [E1 E2].
  assert (Hd : currentData w1 = d1) by (rewrite E1; reflexivity).
  assert (Ho : currentOffice w1 = currentOffice w) by (rewrite E1; reflexivity).
  split; [exact Hd|split; [exact Ho|split]].
  - rewrite Ho. apply render_any_content.
  - rewrite (E2 (Widget d1 (currentOffice w1) (content w1)) eq_refl).
    rewrite E1. reflexivity.
Qed.

(** X2: [clear] puts the widget in the loading state whatever it showed, a
    [render] after it keeps that state, clearing twice is clearing once, and
    an update after it gives what it gives without the clear. *)
Theorem clear_resets (w : widget) :
  content (clear w) = loadingHtml
  /\ render parseDate formatEnUS toUpperCase (clear w) = Ok (clear w)
  /\ clear (clear w) = clear w
  /\ forall data,
       update parseDate formatEnUS toUpperCase data (clear w)
       = update parseDate formatEnUS toUpperCase data w.
Proof.
  split; [reflexivity|split; [reflexivity|split; [reflexivity|]]].
  intros data. unfold update.
  exact (render_any_content data (currentOffice w) _ (content w)).
Qed.

Definition failure : str := lit "Unable to load forecast discussion".

(** What [loadResume] leaves. *)
Lemma loadResume_fields (response : result (option bulletin)) (w : widget) :
  let w' := loadResume parseDate formatEnUS toUpperCase response w in
  currentOffice w' = currentOffice w
  /\ currentData w' = match response with Ok data => data | Throw => currentData w end
  /\ (content w' = loadingHtml
      \/ content w' = errorHtml (lit "No discussion available")
      \/ content w' = errorHtml failure
      \/ exists title time body, content w' = bodyHtml title time body).
Proof.
  unfold loadResume. destruct response as [data|].
  - destruct (render parseDate formatEnUS toUpperCase
                (Widget data (currentOffice w) (content w))) as [w2|] eqn:E.
    + destruct (render_Ok _ E) as [E1 _].
      split; [rewrite E1; reflexivity|]. split; [rewrite E1; reflexivity|].
      destruct (render_kinds _ E) as [K|[K|K]]; tauto.
    + cbn. tauto.
  - cbn. tauto.
Qed.

Lemma loadStart_fields (office : option str) (currentHost : str) (w : widget) :
  let w' := fst (loadStart office currentHost w) in
  currentOffice w' = Some (officeOrDefault office)
  /\ currentData w' = currentData w.
Proof. unfold loadStart. destruct (isLocal currentHost); split; reflexivity. Qed.

(** X3: every load ends with the office recorded and the display in one of five
    states: the placeholder, the loading state, one of the two error
    messages, or a header and body; an exception in [render] is caught. *)
Theorem load_end_state (http : request -> result (option bulletin))
        (office : option str) (currentHost : str) (w : widget) :
  let w' := loadDiscussion parseDate formatEnUS toUpperCase http office currentHost w in
  currentOffice w' = Some (officeOrDefault office)
  /\ (content w' = placeholderHtml
      \/ content w' = loadingHtml
      \/ content w' = errorHtml (lit "No discussion available")
      \/ content w' = errorHtml failure
      \/ exists title time body, content w' = bodyHtml title time body).
Proof.
  unfold loadDiscussion, loadStart.
  destruct (isLocal currentHost).
  - cbn. tauto.
  - cbv zeta.
    match goal with
    | |- context [loadResume _ _ _ ?r ?x] =>
        destruct (loadResume_fields r x) as (H1 & _ & H3)
    end.
    split; [rewrite H1; reflexivity|tauto].
Qed.

Lemma loadResume_office (response : result (option bulletin))
      (d : option bulletin) (o1 o2 : option str) (c : str) :
  currentData (loadResume parseDate formatEnUS toUpperCase response (Widget d o1 c))
  = currentData (loadResume parseDate formatEnUS toUpperCase response (Widget d o2 c))
  /\ content (loadResume parseDate formatEnUS toUpperCase response (Widget d o1 c))
     = content (loadResume parseDate formatEnUS toUpperCase response (Widget d o2 c)).
Proof.
  destruct response as [data|]; [|split; reflexivity].
  change (loadResume parseDate formatEnUS toUpperCase (Ok data) (Widget d o1 c))
    with (match render parseDate formatEnUS toUpperCase (Widget data o1 c) with
          | Ok w2 => w2
          | Throw => showError (Widget data o1 c) failure
          end).
  change (loadResume parseDate formatEnUS toUpperCase (Ok data) (Widget d o2 c))
    with (match render parseDate formatEnUS toUpperCase (Widget data o2 c) with
          | Ok w2 => w2
          | Throw => showError (Widget data o2 c) failure
          end).
  destruct (render_from_data (Widget data o1 c)) as [E|[html E]].
  - rewrite E.
    rewrite (render_Throw (Widget data o1 c) (Widget data o2 c) E eq_refl).
    split; reflexivity.
  - rewrite (E (Widget data o1 c) eq_refl), (E (Widget data o2 c) eq_refl).
    split; reflexivity.
Qed.

(** X4: the office code is recorded and nothing else: the request, the data
    stored and the content shown are the same for any two codes. *)
Theorem load_ignores_office (http : request -> result (option bulletin))
        (o1 o2 : option str) (currentHost : str) (w : widget) :
  let w1 := loadDiscussion parseDate formatEnUS toUpperCase http o1 currentHost w in
  let w2 := loadDiscussion parseDate formatEnUS toUpperCase http o2 currentHost w in
  snd (loadStart o1 currentHost w) = snd (loadStart o2 currentHost w)
  /\ currentData w1 = currentData w2
  /\ content w1 = content w2.
Proof.
  unfold loadDiscussion, loadStart.
  destruct (isLocal currentHost); [cbn; tauto|].
  cbv zeta. cbn [snd]. split; [reflexivity|].
  exact (loadResume_office (http (Request (proxyUrl currentHost) 30))
           (currentData w) (Some (officeOrDefault o1)) (Some (officeOrDefault o2))
           loadingHtml).
Qed.

(** X5: a rejected request leaves the error message on display and the data as
    they were: a later [render] shows the old bulletin again. *)
Theorem failed_load_keeps_data (http : request -> result (option bulletin))
        (office : option str) (currentHost : str) (w : widget) :
  isLocal currentHost = false ->
  http (Request (proxyUrl currentHost) 30) = Throw ->
  let w' := loadDiscussion parseDate formatEnUS toUpperCase http office currentHost w in
  content w' = errorHtml failure
  /\ currentData w' = currentData w
  /\ forall w1, render parseDate formatEnUS toUpperCase w = Ok w1 ->
       render parseDate formatEnUS toUpperCase w' = Ok (setContent w' (content w1)).
Proof.
  intros Hl Hh. unfold loadDiscussion, loadStart. rewrite Hl. cbv zeta.
  rewrite Hh. cbn [loadResume].
  split; [reflexivity|split; [reflexivity|]].
  intros w1 H1. destruct (render_Ok _ H1) as [_ E]. now apply E.
Qed.

(** X6: nothing ties an answer to the call that asked for it.  An answer that
    arrives after another one replaces it whole; with two loads under way,
    the office is that of the second call and the data are those of the
    answer that came last, also when it belongs to the first call. *)
Theorem last_response_wins (rB : result (option bulletin))
        (dA : option bulletin) (w : widget) :
  loadResume parseDate formatEnUS toUpperCase (Ok dA)
    (loadResume parseDate formatEnUS toUpperCase rB w)
  = loadResume parseDate formatEnUS toUpperCase (Ok dA) w
  /\ forall oA oB currentHost,
       let w2 := fst (loadStart oB currentHost (fst (loadStart oA currentHost w))) in
       let w4 := loadResume parseDate formatEnUS toUpperCase (Ok dA)
                   (loadResume parseDate formatEnUS toUpperCase rB w2) in
       currentOffice w4 = Some (officeOrDefault oB) /\ currentData w4 = dA.
Proof.
  assert (G : forall x,
             loadResume parseDate formatEnUS toUpperCase (Ok dA)
               (loadResume parseDate formatEnUS toUpperCase rB x)
             = loadResume parseDate formatEnUS toUpperCase (Ok dA) x).
  { intros x.
    destruct (loadResume_fields rB x) as (H1 & _ & _). cbv zeta in H1.
    unfold loadResume at 1 3. rewrite H1.
    rewrite (render_any_content dA (currentOffice x)
               (content (loadResume parseDate formatEnUS toUpperCase rB x))
               (content x)).
    destruct (render parseDate formatEnUS toUpperCase
                (Widget dA (currentOffice x) (content x))); reflexivity. }
  split; [apply G|].
  intros oA oB currentHost w2 w4. unfold w4. rewrite G.
  destruct (loadResume_fields (Ok dA) w2) as (H1 & H2 & _). cbv zeta in H1, H2.
  rewrite H1, H2. split; [|reflexivity].
  unfold w2. apply loadStart_fields.
Qed.

Lemma includes_app (a pat b : str) : includes (a ++ pat ++ b) pat = true.
Proof.
  induction a as [|c a IH].
  - cbn [app]. destruct (pat ++ b) eqn:E; cbn [includes];
      rewrite <- ?E, FormatFacts.startsWith_app; reflexivity.
  - cbn [app includes]. rewrite IH. apply orb_true_r.
Qed.

(** X7: an origin that has "localhost" or "127.0.0.1" anywhere in it is a local
    one: no request is sent, the placeholder is shown and the data stay as
    they were; a widget constructed there has no data, the office AJK and
    the placeholder. *)
Theorem local_origin_placeholder (http : request -> result (option bulletin))
        (office : option str) (currentHost : str) (w : widget) :
  FormatFacts.contains currentHost (lit "localhost")
  \/ FormatFacts.contains currentHost (lit "127.0.0.1") ->
  snd (loadStart office currentHost w) = None
  /\ loadDiscussion parseDate formatEnUS toUpperCase http office currentHost w
     = Widget (currentData w) (Some (officeOrDefault office)) placeholderHtml
  /\ forall pageContent,
       construct parseDate formatEnUS toUpperCase http currentHost pageContent
       = Widget None (Some (lit "AJK")) placeholderHtml.
Proof.
  intros H.
  assert (L : isLocal currentHost = true).
  { unfold isLocal. destruct H as [(a & b & ->)|(a & b & ->)];
      rewrite includes_app; [reflexivity|apply orb_true_r]. }
  unfold construct, init, loadDiscussion, loadStart. rewrite L.
  repeat split.
Qed.

(** X8: a widget constructed on a deployed origin asks the proxy of that origin
    once, with the cache time 30, and what the page held in the content
    element leaves no trace. *)
Theorem construct_request (http : request -> result (option bulletin))
        (currentHost : str) (page1 page2 : str) :
  isLocal currentHost = false ->
  construct parseDate formatEnUS toUpperCase http currentHost page1
  = loadResume parseDate formatEnUS toUpperCase
      (http (Request (currentHost ++ lit "/.netlify/functions/forecast-discussion") 30))
      (Widget None (Some (lit "AJK")) loadingHtml)
  /\ construct parseDate formatEnUS toUpperCase http currentHost page1
     = construct parseDate formatEnUS toUpperCase http currentHost page2.
Proof.
  intros L. unfold construct, init, loadDiscussion, loadStart. rewrite L.
  split; reflexivity.
Qed.

End Life.

(** X9: the five display states differ from one another, whatever the title,
    the time, the body and the message: what the widget shows tells which
    state it is in. *)
Theorem display_states_distinct :
  placeholderHtml <> loadingHtml
  /\ (forall message, placeholderHtml <> errorHtml message)
  /\ (forall title time body, placeholderHtml <> bodyHtml title time body)
  /\ (forall message, loadingHtml <> errorHtml message)
  /\ (forall title time body, loadingHtml <> bodyHtml title time body)
  /\ (forall message title time body,
        errorHtml message <> bodyHtml title time body)
  /\ errorHtml (lit "No discussion available") <> errorHtml failure.
Proof.
  assert (D : forall (n : nat) (x y : str),
             nth n x 0%N <> nth n y 0%N -> x <> y).
  { intros n x y H E. apply H. now rewrite E. }
  repeat split.
  - apply (D 0). vm_compute. discriminate.
  - intros message. apply (D 25). vm_compute. discriminate.
  - intros title time body. apply (D 134). vm_compute. discriminate.
  - intros message. apply (D 0). vm_compute. discriminate.
  - intros title time body. apply (D 0). vm_compute. discriminate.
  - intros message title time body. apply (D 25). vm_compute. discriminate.
  - apply (D 95). vm_compute. discriminate.
Qed.

(** *** Instances *)

Definition sampleBulletin : bulletin :=
  Bulletin (Some (Properties (Some (lit "AJK")) (Some (lit "Juneau"))
                             (Some (lit "Rain tonight."))
                             DUndefined (Some (lit "Mon 4 PM")))).

Definition failingProxy : request -> result (option bulletin) := fun _ => Throw.

Lemma update_last_wins_witness :
  let w := Widget None None [] in
  exists w1,
    update noParse sampleFormat toUpperCaseLatin (Some sampleBulletin) w = Ok w1
    /\ update noParse sampleFormat toUpperCaseLatin (Some sampleBulletin) w1 = Ok w1.
Proof.
  intros w.
  destruct (update noParse sampleFormat toUpperCaseLatin (Some sampleBulletin) w)
    as [w1|] eqn:E; [|vm_compute in E; discriminate E].
  exists w1. split; [reflexivity|].
  exact (proj2 (proj2 (proj2
           (@update_last_wins noParse sampleFormat toUpperCaseLatin
              (Some sampleBulletin) None w w1 E)))).
Defined.

Lemma failed_load_keeps_data_witness :
  let host := lit "https://bightwatch.netlify.app" in
  let w := Widget (Some sampleBulletin) None [] in
  (isLocal host = false
   /\ failingProxy (Request (proxyUrl host) 30) = Throw)
  /\ content (loadDiscussion noParse sampleFormat toUpperCaseLatin failingProxy
                None host w)
     = errorHtml failure.
Proof.
  intros host w. split; [split; [vm_compute; reflexivity|reflexivity]|].
  exact (proj1 (@failed_load_keeps_data noParse sampleFormat toUpperCaseLatin
                  failingProxy None host w eq_refl eq_refl)).
Defined.

Lemma local_origin_placeholder_witness :
  let host := lit "http://localhost:8888" in
  FormatFacts.contains host (lit "localhost")
  /\ construct noParse sampleFormat toUpperCaseLatin failingProxy host []
     = Widget None (Some (lit "AJK")) placeholderHtml.
Proof.
  intros host.
  assert (H : FormatFacts.contains host (lit "localhost")).
  { exists (lit "http://"), (lit ":8888"). reflexivity. }
  split; [exact H|].
  exact (proj2 (proj2 (@local_origin_placeholder noParse sampleFormat
                         toUpperCaseLatin failingProxy None host
                         (Widget None None []) (or_introl H))) []).
Defined.

Lemma construct_request_witness :
  let host := lit "https://bightwatch.netlify.app" in
  isLocal host = false
  /\ construct noParse sampleFormat toUpperCaseLatin failingProxy host (lit "x")
     = construct noParse sampleFormat toUpperCaseLatin failingProxy host [].
Proof.
  intros host. split; [vm_compute; reflexivity|].
  exact (proj2 (@construct_request noParse sampleFormat toUpperCaseLatin
                  failingProxy host (lit "x") [] eq_refl)).
Defined.

End LoaderFacts.


(** ** Further facts about the cleaning chain *)

Module CleanFacts.
Import JS Regex Discussion JSFacts RegexFacts RenderFacts FormatFacts.

Unset Implicit Arguments.

Lemma avoid_contains (bad : str -> bool) (pat t : str) :
  pat <> [] ->
  (forall b, bad (pat ++ b) = true) ->
  avoid bad t -> ~ contains t pat.
Proof.
  intros Hp Hb H (a & b & ->).
  apply avoid_suffix in H. destruct pat as [|c pat]; [contradiction|].
  specialize (Hb b).
  change (bad ((c :: pat) ++ b) = false /\ avoid bad (pat ++ b)) in H.
  destruct H as [H _]. rewrite Hb in H. discriminate H.
Qed.

(** X10: whatever the bulletin, the cleaned text has no white space at either
    end, no tab, no two spaces in a row, no space or tab after a newline and
    no three newlines in a row. *)
Theorem clean_normal_form (text : str) :
  noSpaceEnds (clean text)
  /\ ~ contains (clean text) [TAB]
  /\ ~ contains (clean text) [SP; SP]
  /\ ~ contains (clean text) [NL; SP]
  /\ ~ contains (clean text) [NL; NL; NL].
Proof.
  set (x := replaceAll fl_g re_bullet (const [SP])
              (replaceAll fl_gm re_bulletLine (const [])
                 (replaceAll fl_gis re_usagov (const []) text))).
  change (clean text) with (tidy x).
  destruct (tidy_avoid x) as (H4 & H5 & H6).
  split; [apply trim_noSpaceEnds|].
  split; [|split; [|split]].
  - apply (avoid_contains bad4); [discriminate|reflexivity|exact H4].
  - apply (avoid_contains bad4); [discriminate|reflexivity|exact H4].
  - apply (avoid_contains bad5); [discriminate|reflexivity|exact H5].
  - apply (avoid_contains bad6); [discriminate|reflexivity|exact H6].
Qed.

(** The four bullets of the pattern of line 127. *)
Definition isInlineBullet (c : char) : bool :=
  oneOf [BULLET; MIDDOT; SMALL_SQUARE; WHITE_SQUARE] c.

Section Hits.

Variable fl : flags.
Variable r : regex.
Variable repl : str -> str.
Variable f : char -> bool.
Hypothesis repl_clear : forall m, Forall (fun c => f c = false) (repl m).
Hypothesis hit :
  forall prev c s, f c = true -> exists n, matchLen fl r prev (c :: s) = Some (S n).

(** When the pattern matches at every code unit that [f] accepts, and the
    replacement has none, the result has none. *)
Lemma replaceFrom_clears (s : str) :
  forall prev skip, Forall (fun c => f c = false) (replaceFrom fl r repl prev skip s).
Proof.
  induction s as [|c s IH]; intros prev skip.
  - destruct skip; cbn [replaceFrom]; [|constructor].
    destruct (matchLen fl r prev []) as [[|n]|]; rewrite ?app_nil_r;
      try apply repl_clear; constructor.
  - destruct skip as [|k]; cbn [replaceFrom]; [|apply IH].
    destruct (matchLen fl r prev (c :: s)) as [[|n]|] eqn:M.
    + apply Forall_app. split; [apply repl_clear|].
      constructor; [|apply IH].
      destruct (f c) eqn:E; [|reflexivity].
      destruct (hit prev c s E) as (n & Hn). rewrite Hn in M. discriminate M.
    + apply Forall_app. split; [apply repl_clear|apply IH].
    + constructor; [|apply IH].
      destruct (f c) eqn:E; [|reflexivity].
      destruct (hit prev c s E) as (n & Hn). rewrite Hn in M. discriminate M.
Qed.

End Hits.

Lemma inlineBullet_not_space (c : char) :
  isInlineBullet c = true -> isSpace c = false.
Proof.
  unfold isInlineBullet, oneOf. cbn [existsb]. intros H.
  repeat (apply orb_prop in H; destruct H as [H|H]);
    try discriminate H; apply N.eqb_eq in H; subst c; reflexivity.
Qed.

Lemma inlineBullet_hit (prev : option char) (c : char) (s : str) :
  isInlineBullet c = true ->
  exists n, matchLen fl_g re_bullet prev (c :: s) = Some (S n).
Proof.
  intros Hc. unfold matchLen, re_bullet. cbn [seqs].
  rewrite run_Seq.
  destruct (run_greedy_unbounded fl_g 0 space prev (c :: s)) as [H1 _].
  assert (R0 : runLen (atomMatch fl_g space) (c :: s) = 0).
  { cbn [runLen]. rewrite atomMatch_space, (inlineBullet_not_space c Hc).
    reflexivity. }
  rewrite R0 in H1. destruct (H1 (Nat.le_refl 0)) as (p & tl & E).
  unfold star. rewrite E. cbn [flat_map fst snd skipn].
  rewrite run_Seq.
  assert (A : atomMatch fl_g
                (ASet false [CChr BULLET; CChr MIDDOT; CChr SMALL_SQUARE;
                             CChr WHITE_SQUARE]) c = true).
  { unfold isInlineBullet, oneOf in Hc. cbn [existsb] in Hc.
    cbn [atomMatch itemMatch existsb ignoreCase fl_g xorb].
    rewrite orb_false_r in Hc. rewrite orb_false_r. exact Hc. }
  change (run fl_g (One ?a) p (c :: s))
    with (if atomMatch fl_g a c then [(Some c, s)] else []).
  rewrite A. cbn [flat_map fst snd]. rewrite app_nil_r.
  destruct (run_greedy_unbounded fl_g 0 space (Some c) s) as [H2 _].
  destruct (H2 (Nat.le_0_l _)) as (p2 & tl2 & E2).
  rewrite E2. cbn [app].
  exists (length s - length (skipn (runLen (atomMatch fl_g space) s) s)).
  f_equal. cbn [length]. rewrite length_skipn. lia.
Qed.

(** X11: none of the four bullets of line 127 is left in the cleaned text. *)
Theorem clean_no_inline_bullets (text : str) :
  Forall (fun c => isInlineBullet c = false) (clean text).
Proof.
  unfold clean.
  assert (T : forall x, Forall (fun c => isInlineBullet c = false) x ->
                        Forall (fun c => isInlineBullet c = false) (trim x)).
  { intros x Hx. destruct (trim_substring x) as (a & b & E). rewrite E in Hx.
    apply Forall_app in Hx. destruct Hx as [_ Hx].
    apply Forall_app in Hx. apply Hx. }
  apply T.
  do 3 (apply replaceAll_Forall; [intros ? _; repeat constructor|]).
  unfold replaceAll. apply replaceFrom_clears.
  - intros m. repeat constructor.
  - exact inlineBullet_hit.
Qed.

End CleanFacts.


(** ** Further facts about sentences and paragraphs *)

Module ParagraphFacts.
Import JS Regex Discussion JSFacts RegexFacts RenderFacts FormatFacts.

Unset Implicit Arguments.

(** *** The section keywords *)

Lemma startsWith_prefix (u k x : str) :
  startsWith u (k ++ x) = true -> startsWith u k = true.
Proof.
  revert u. induction k as [|c k IH]; intros u H; [destruct u; reflexivity|].
  destruct u as [|d u]; [discriminate H|].
  cbn [app startsWith] in *. apply andb_prop in H. destruct H as [H1 H2].
  rewrite H1. cbn [andb]. now apply IH.
Qed.

(** X12: a sentence starts a new paragraph exactly when the current paragraph is
    not empty and the upper-cased sentence begins with one of the
    keywords; the second test, for the keyword followed by three dots, adds
    nothing. *)
Theorem shouldStart_characterised (toUpperCase : str -> str)
        (sentence currentParagraph : str) :
  shouldStartNewParagraph toUpperCase sentence currentParagraph
  = negb (isEmpty currentParagraph)
    && existsb (startsWith (toUpperCase sentence)) newSectionKeywords.
Proof.
  unfold shouldStartNewParagraph.
  destruct (isEmpty currentParagraph); [reflexivity|]. cbn [negb andb].
  induction newSectionKeywords as [|k l IH]; [reflexivity|].
  cbn [existsb]. rewrite IH. f_equal.
  destruct (startsWith (toUpperCase sentence) k) eqn:E; [reflexivity|].
  cbn [orb].
  destruct (startsWith (toUpperCase sentence) (k ++ lit "...")) eqn:E2;
    [|reflexivity].
  apply startsWith_prefix in E2. rewrite E2 in E. discriminate E.
Qed.


(** *** Sentences *)

Lemma sentences_parts (t : str) :
  exists seps,
    length (splitSentences t) = S (length seps)
    /\ interleave (splitSentences t) seps = t
    /\ Forall dotSpaces seps.
Proof.
  destruct t as [|c t].
  - exists []. split; [reflexivity|split; [reflexivity|constructor]].
  - unfold splitSentences.
    destruct (split_interleave fl_g re_sentence (s := c :: t) ltac:(discriminate))
      as (seps & L & I & F).
    exists seps. split; [exact L|]. split; [exact I|].
    revert F. apply Forall_impl. exact separator_sentence.
Qed.

(** X13: splitting at the sentence boundaries loses nothing: the pieces, with a
    period and a run of white space between each two, are the text; there is
    one piece more than there are boundaries, and no piece has a boundary
    inside. *)
Theorem sentences_round_trip (t : str) :
  exists seps,
    length (splitSentences t) = S (length seps)
    /\ interleave (splitSentences t) seps = t
    /\ Forall dotSpaces seps
    /\ length seps = countDS t
    /\ Forall (fun p => countDS p = 0) (splitSentences t).
Proof.
  destruct (sentences_parts t) as (seps & L & I & F).
  exists seps. split; [exact L|]. split; [exact I|]. split; [exact F|].
  split; [|apply splitSentences_pieces].
  rewrite splitSentences_length in L. now injection L as <-.
Qed.

(** *** Paragraph sizes *)

Lemma forceLoop_atMost2 (l : list str) :
  forall ps cur,
    Forall (fun p => countDS p = 0) l ->
    countDS cur <= 1 ->
    Forall (fun p => countDS p <= 1) ps ->
    Forall (fun p => countDS p <= 1) (fst (forceLoop l ps cur))
    /\ countDS (snd (forceLoop l ps cur)) <= 1.
Proof.
  induction l as [|raw rest IH]; intros ps cur Hl Hc Hp; [split; assumption|].
  inversion Hl as [|? ? Hraw Hrest]; subst.
  cbn [forceLoop].
  destruct (nextSentence raw rest) as [s|] eqn:N; [|now apply IH].
  destruct (nextSentence_spec raw rest s Hraw N) as ((_ & _ & Hs) & _).
  destruct (negb (isEmpty cur) && (2 <=? length (splitSentences cur))) eqn:B.
  - apply IH; [assumption|lia|].
    unfold pushTrimmed. apply Forall_app. split; [assumption|].
    constructor; [|constructor]. pose proof (countDS_trim cur). lia.
  - apply IH; [assumption| |assumption].
    destruct cur as [|c cur'].
    + unfold append. cbn [isEmpty app]. lia.
    + cbn [isEmpty negb andb] in B. rewrite splitSentences_length in B.
      apply Nat.leb_gt in B.
      pose proof (countDS_append (c :: cur') s Hs). lia.
Qed.

(** X14: however the text reads, a paragraph built sentence by sentence has at
    most three sentences, and one built by the forced breaks has at most
    two, as [split] counts them. *)
Theorem paragraph_sizes (toUpperCase : str -> str) (t : str) :
  Forall (fun p => length (splitSentences p) <= 3)
         (sentenceParagraphs toUpperCase t)
  /\ Forall (fun p => length (splitSentences p) <= 2) (forceParagraphBreaks t).
Proof.
  split.
  - rewrite sentenceParagraphs_from.
    apply paragraphsFrom_atMost3; [apply splitSentences_pieces|cbn; lia].
  - unfold forceParagraphBreaks.
    destruct (forceLoop_atMost2 (splitSentences t) [] []
                (splitSentences_pieces t) (Nat.le_0_l _) (Forall_nil _))
      as [H1 H2].
    destruct (forceLoop (splitSentences t) [] []) as [ps cur].
    cbn [fst snd] in H1, H2.
    assert (G : Forall (fun p => countDS p <= 1) (pushIfAny ps cur)).
    { unfold pushIfAny, pushTrimmed. destruct (isEmpty (trim cur)); [exact H1|].
      apply Forall_app. split; [exact H1|].
      constructor; [|constructor]. pose proof (countDS_trim cur). lia. }
    revert G. apply Forall_impl. intros p Hp.
    rewrite splitSentences_length. lia.
Qed.

(** *** What the regrouping keeps *)

Lemma tokens_interleave_eq (pieces : list str) :
  forall seps,
    length pieces = S (length seps) ->
    Forall dotSpaces seps ->
    Forall (fun raw => trim raw <> []) pieces ->
    solid (tokens pieces) = nonSpace (interleave pieces seps).
Proof.
  induction pieces as [|raw ps IH]; intros seps L Hs Hp; [discriminate L|].
  inversion Hp as [|? ? Hraw Hps]; subst.
  cbn [tokens interleave]. rewrite nonSpace_app.
  destruct (nextSentence raw ps) as [s|] eqn:N;
    [|apply nextSentence_None in N; contradiction].
  rewrite (nextSentence_Some raw ps s N), solid_cons, nonSpace_app, nonSpace_trim.
  destruct seps as [|sp ss].
  - destruct ps; [|discriminate L]. cbn [tokens interleave].
    change (solid []) with (@nil char). change (nonSpace []) with (@nil char).
    now rewrite !app_nil_r.
  - injection L as L. inversion Hs as [|? ? Hsp Hss]; subst.
    destruct ps as [|q ps]; [discriminate L|].
    rewrite nonSpace_app, (nonSpace_dotSpaces sp Hsp), <- app_assoc.
    do 2 f_equal. now apply IH.
Qed.

(** X15: when no sentence of the text is empty, the three ways of regrouping
    sentences keep every code unit that is not white space, in order: the
    paragraphs, put end to end and without their white space, are the text
    without its white space. *)
Theorem regrouping_keeps_text (toUpperCase : str -> str) (t : str) :
  Forall (fun raw => trim raw <> []) (splitSentences t) ->
  solid (sentenceParagraphs toUpperCase t) = nonSpace t
  /\ solid (forceParagraphBreaks t) = nonSpace t
  /\ solid (longParagraphChunks toUpperCase t) = nonSpace t.
Proof.
  intros H.
  assert (E : solid (tokens (splitSentences t)) = nonSpace t).
  { destruct (sentences_parts t) as (seps & L & I & F).
    rewrite <- I at 2. now apply tokens_interleave_eq. }
  rewrite sentenceParagraphs_solid, forceParagraphBreaks_solid,
    longParagraphChunks_solid.
  repeat split; exact E.
Qed.

(** *** No empty paragraph *)

(** Not empty, and no white space at either end. *)
Definition trimmed (p : str) : Prop := p <> [] /\ noSpaceEnds p.

Lemma trimmed_trim (x : str) : nonSpace x <> [] -> trimmed (trim x).
Proof.
  intros H. split; [|apply trim_noSpaceEnds].
  intros E. apply H. now apply trim_nil_nonSpace.
Qed.

Lemma nonSpace_trim_nonempty (x : str) : trim x <> [] -> nonSpace x <> [].
Proof.
  intros H. rewrite <- nonSpace_trim.
  destruct (trim_noSpaceEnds x) as [H1 _].
  destruct (trim x) as [|c r]; [contradiction|].
  cbn [headOk] in H1. unfold nonSpace. cbn [filter]. rewrite H1. discriminate.
Qed.

Lemma nonSpace_sentence (raw : str) (rest : list str) (s : str) :
  nextSentence raw rest = Some s -> nonSpace s <> [].
Proof.
  intros N. pose proof (nextSentence_Some raw rest s N) as E.
  assert (T : trim raw <> []).
  { unfold nextSentence in N. destruct (isEmpty (trim raw)) eqn:B;
      [discriminate N|now apply isEmpty_false]. }
  apply nonSpace_trim_nonempty in T.
  rewrite E, nonSpace_app, nonSpace_trim.
  destruct (nonSpace raw); [contradiction|discriminate].
Qed.

Lemma trimmed_pushTrimmed (ps : list str) (cur : str) :
  Forall trimmed ps -> nonSpace cur <> [] -> Forall trimmed (pushTrimmed ps cur).
Proof.
  intros H1 H2. unfold pushTrimmed. apply Forall_app. split; [exact H1|].
  constructor; [now apply trimmed_trim|constructor].
Qed.

Lemma trimmed_pushIfAny (ps : list str) (cur : str) :
  Forall trimmed ps -> Forall trimmed (pushIfAny ps cur).
Proof.
  intros H. unfold pushIfAny. destruct (isEmpty (trim cur)) eqn:B; [exact H|].
  apply trimmed_pushTrimmed; [exact H|].
  apply nonSpace_trim_nonempty. now apply isEmpty_false.
Qed.

Lemma nonSpace_append_nonempty (cur s : str) :
  nonSpace s <> [] -> nonSpace (append cur s) <> [].
Proof.
  intros H. rewrite nonSpace_append.
  destruct (nonSpace cur); [exact H|discriminate].
Qed.

(** The current paragraph holds no sentence yet or some visible text. *)
Definition blankFree (cur : str) : Prop := cur = [] \/ nonSpace cur <> [].

Lemma blankFree_nonempty (cur : str) :
  blankFree cur -> isEmpty cur = false -> nonSpace cur <> [].
Proof. intros [->|H] B; [discriminate B|exact H]. Qed.

Section Loops.

Variable toUpperCase : str -> str.

Lemma sentenceLoop_trimmed (l : list str) :
  forall ps cur,
    Forall trimmed ps ->
    Forall trimmed (fst (sentenceLoop toUpperCase l ps cur)).
Proof.
  induction l as [|raw rest IH]; intros ps cur Hp; [exact Hp|].
  cbn [sentenceLoop].
  destruct (nextSentence raw rest) as [s|] eqn:N; [|now apply IH].
  pose proof (nonSpace_sentence raw rest s N) as Hs.
  destruct (shouldStartNewParagraph toUpperCase s cur).
  - destruct (3 <=? length (splitSentences s)); apply IH.
    + apply trimmed_pushTrimmed; [now apply trimmed_pushIfAny|exact Hs].
    + now apply trimmed_pushIfAny.
  - destruct (3 <=? length (splitSentences (append cur s))); apply IH.
    + apply trimmed_pushTrimmed; [exact Hp|now apply nonSpace_append_nonempty].
    + exact Hp.
Qed.

Lemma forceLoop_trimmed (l : list str) :
  forall ps cur,
    Forall trimmed ps -> blankFree cur ->
    Forall trimmed (fst (forceLoop l ps cur)).
Proof.
  induction l as [|raw rest IH]; intros ps cur Hp Hc; [exact Hp|].
  cbn [forceLoop].
  destruct (nextSentence raw rest) as [s|] eqn:N; [|now apply IH].
  pose proof (nonSpace_sentence raw rest s N) as Hs.
  destruct (isEmpty cur) eqn:B; cbn [negb andb].
  - apply IH; [exact Hp|]. right. now apply nonSpace_append_nonempty.
  - destruct (2 <=? length (splitSentences cur)); apply IH.
    + apply trimmed_pushTrimmed; [exact Hp|now apply blankFree_nonempty].
    + now right.
    + exact Hp.
    + right. now apply nonSpace_append_nonempty.
Qed.

Lemma chunkLoop_trimmed (l : list str) :
  forall ps cur,
    Forall trimmed ps -> blankFree cur ->
    Forall trimmed (fst (chunkLoop toUpperCase l ps cur)).
Proof.
  induction l as [|raw rest IH]; intros ps cur Hp Hc; [exact Hp|].
  cbn [chunkLoop].
  destruct (nextSentence raw rest) as [s|] eqn:N; [|now apply IH].
  pose proof (nonSpace_sentence raw rest s N) as Hs.
  destruct (isEmpty cur) eqn:B; cbn [negb andb].
  - apply IH; [exact Hp|]. right. now apply nonSpace_append_nonempty.
  - destruct ((350 <? length (cur ++ [SP] ++ s))
              || shouldStartNewParagraph toUpperCase s cur); apply IH.
    + apply trimmed_pushTrimmed; [exact Hp|now apply blankFree_nonempty].
    + now right.
    + exact Hp.
    + right. now apply nonSpace_append_nonempty.
Qed.

Lemma sentenceParagraphs_trimmed (t : str) :
  Forall trimmed (sentenceParagraphs toUpperCase t).
Proof.
  unfold sentenceParagraphs.
  pose proof (sentenceLoop_trimmed (splitSentences t) [] [] (Forall_nil _)) as H.
  destruct (sentenceLoop toUpperCase (splitSentences t) [] []) as [ps cur].
  now apply trimmed_pushIfAny.
Qed.

Lemma forceParagraphBreaks_trimmed (p : str) :
  Forall trimmed (forceParagraphBreaks p).
Proof.
  unfold forceParagraphBreaks.
  pose proof (forceLoop_trimmed (splitSentences p) [] [] (Forall_nil _)
                (or_introl eq_refl)) as H.
  destruct (forceLoop (splitSentences p) [] []) as [ps cur].
  now apply trimmed_pushIfAny.
Qed.

Lemma longParagraphChunks_trimmed (p : str) :
  Forall trimmed (longParagraphChunks toUpperCase p).
Proof.
  unfold longParagraphChunks.
  pose proof (chunkLoop_trimmed (splitSentences p) [] [] (Forall_nil _)
                (or_introl eq_refl)) as H.
  destruct (chunkLoop toUpperCase (splitSentences p) [] []) as [ps cur].
  now apply trimmed_pushIfAny.
Qed.

Lemma initialParagraphs_trimmed (t : str) :
  Forall trimmed (initialParagraphs toUpperCase t).
Proof.
  unfold initialParagraphs.
  destruct (length (split fl_g re_break t) =? 1);
    [apply sentenceParagraphs_trimmed|].
  apply Forall_forall. intros p Hp. apply filter_In in Hp.
  destruct Hp as [Hin Hlen]. apply in_map_iff in Hin.
  destruct Hin as (x & <- & _). split; [|apply trim_noSpaceEnds].
  intros E. rewrite E in Hlen. discriminate Hlen.
Qed.

Lemma segment_trimmed (t : str) : Forall trimmed (segment toUpperCase t).
Proof.
  pose proof (initialParagraphs_trimmed t) as H.
  unfold segment, ensureBreaks.
  destruct (initialParagraphs toUpperCase t) as [|p [|q l]]; try exact H.
  destruct (600 <? length p); [apply forceParagraphBreaks_trimmed|exact H].
Qed.

End Loops.

(** X16: every paragraph the segmentation returns, and every chunk a long one
    is cut into, has some text and no white space at either end: outside the
    fallback no p element is empty. *)
Theorem fragments_trimmed (toUpperCase : str -> str) (t : str) :
  Forall trimmed (segment toUpperCase t)
  /\ Forall trimmed (fragments toUpperCase (segment toUpperCase t))
  /\ (fallbackTaken toUpperCase t = false ->
      Forall trimmed (emitted toUpperCase t)).
Proof.
  pose proof (segment_trimmed toUpperCase t) as H.
  assert (F : Forall trimmed (fragments toUpperCase (segment toUpperCase t))).
  { unfold fragments. apply Forall_flat_map.
    revert H. apply Forall_impl. intros p Hp.
    destruct (700 <? length p);
      [apply longParagraphChunks_trimmed|repeat constructor; apply Hp]. }
  split; [exact H|split; [exact F|]].
  intros B. unfold emitted. now rewrite B.
Qed.

(** *** Instances *)

Lemma fragments_trimmed_witness :
  fallbackTaken toUpperCaseLatin (lit "Rain tonight.") = false
  /\ Forall trimmed (emitted toUpperCaseLatin (lit "Rain tonight.")).
Proof.
  assert (B : fallbackTaken toUpperCaseLatin (lit "Rain tonight.") = false)
    by (vm_compute; reflexivity).
  split; [exact B|].
  exact (proj2 (proj2 (fragments_trimmed toUpperCaseLatin (lit "Rain tonight."))) B).
Defined.

Definition twoSentences : str := lit "Rain tonight. Wind tomorrow.".

Lemma regrouping_keeps_text_witness :
  Forall (fun raw => trim raw <> []) (splitSentences twoSentences)
  /\ solid (forceParagraphBreaks twoSentences) = nonSpace twoSentences.
Proof.
  assert (H : Forall (fun raw => trim raw <> []) (splitSentences twoSentences)).
  { assert (E : splitSentences twoSentences
                = [lit "Rain tonight"; lit "Wind tomorrow."])
      by (vm_compute; reflexivity).
    rewrite E. repeat constructor; intros K; vm_compute in K; discriminate K. }
  split; [exact H|].
  exact (proj1 (proj2 (regrouping_keeps_text toUpperCaseLatin twoSentences H))).
Defined.

End ParagraphFacts.


(** ** The shape of the markup *)

Module MarkupFacts.
Import JS Regex Discussion JSFacts RegexFacts RenderFacts FormatFacts.

Unset Implicit Arguments.

(** The code unit of [<]. *)
Definition LT : char := 60%N.

(** No one-character term of [r] accepts [<]. *)
Fixpoint rejectsLt (fl : flags) (r : regex) : bool :=
  match r with
  | Eps | Bol | Eol | WordB | Ahead _ => true
  | One a => negb (atomMatch fl a LT)
  | Seq r1 r2 | Alt r1 r2 => rejectsLt fl r1 && rejectsLt fl r2
  | Rep _ _ _ a => negb (atomMatch fl a LT)
  end.

(** The rest of the text at [st] still has the [<] before [b]. *)
Definition before (a b : str) (st : state) : Prop :=
  exists a', snd st = a' ++ LT :: b /\ length a' <= length a.

Lemma reps_stops (f : char -> bool) (b : str) :
  f LT = false ->
  forall a hi prev st,
    In st (reps f hi prev (a ++ LT :: b)) -> before a b st.
Proof.
  intros Hf. induction a as [|c a IH]; intros hi prev st H.
  - cbn [app reps] in H. rewrite Hf in H.
    destruct H as [<-|[]]. exists []. split; [reflexivity|apply Nat.le_refl].
  - cbn [app reps] in H. destruct H as [<-|H].
    + exists (c :: a). split; [reflexivity|apply Nat.le_refl].
    + assert (G : before a b st).
      { destruct (f c); [|destruct H].
        destruct hi as [[|h]|]; [destruct H|now apply IH in H|now apply IH in H]. }
      destruct G as (a' & E & L). exists a'. split; [exact E|cbn [length]; lia].
Qed.

(** A match never runs over a [<]. *)
Lemma run_stops (fl : flags) (r : regex) (b : str) :
  rejectsLt fl r = true ->
  forall prev a st, In st (run fl r prev (a ++ LT :: b)) -> before a b st.
Proof.
  assert (Here : forall prev a, before a b (prev, a ++ LT :: b)).
  { intros prev a. exists a. split; [reflexivity|apply Nat.le_refl]. }
  induction r as [|x|r1 IH1 r2 IH2|r1 IH1 r2 IH2|g lo hi x| | | |r' IH];
    intros Hr prev a st H; cbn [rejectsLt] in Hr; cbn [run] in H.
  - destruct H as [<-|[]]. apply Here.
  - destruct a as [|c a]; cbn [app] in H.
    + apply negb_true_iff in Hr. rewrite Hr in H. destruct H.
    + destruct (atomMatch fl x c); [|destruct H].
      destruct H as [<-|[]]. exists a. split; [reflexivity|cbn [length]; lia].
  - apply andb_prop in Hr. destruct Hr as [Hr1 Hr2].
    apply in_flat_map in H. destruct H as (st1 & H1 & H2).
    destruct (IH1 Hr1 prev a st1 H1) as (a1 & E1 & L1).
    rewrite E1 in H2.
    destruct (IH2 Hr2 (fst st1) a1 st H2) as (a2 & E2 & L2).
    exists a2. split; [exact E2|lia].
  - apply andb_prop in Hr. destruct Hr as [Hr1 Hr2].
    apply in_app_or in H. destruct H as [H|H]; [now apply IH1 in H|now apply IH2 in H].
  - apply negb_true_iff in Hr.
    apply (reps_stops (atomMatch fl x) b Hr a hi prev).
    assert (K : forall n (l : list state), In st (skipn n l) -> In st l).
    { intros n l. rewrite <- (firstn_skipn n l) at 2. intros K.
      apply in_or_app. now right. }
    destruct g; [apply in_rev in H|]; now apply K in H.
  - destruct (atBol fl prev); [|destruct H]. destruct H as [<-|[]]. apply Here.
  - destruct (atEol fl (a ++ LT :: b)); [|destruct H].
    destruct H as [<-|[]]. apply Here.
  - destruct (xorb _ _); [|destruct H]. destruct H as [<-|[]]. apply Here.
  - destruct (run fl r' prev (a ++ LT :: b)); [destruct H|].
    destruct H as [<-|[]]. apply Here.
Qed.

Lemma matchLen_stops (fl : flags) (r : regex) (prev : option char)
      (a b : str) (n : nat) :
  rejectsLt fl r = true ->
  matchLen fl r prev (a ++ LT :: b) = Some n -> n <= length a.
Proof.
  intros Hr. unfold matchLen.
  destruct (run fl r prev (a ++ LT :: b)) as [|[p rest] tl] eqn:E; [discriminate|].
  intros [= <-].
  destruct (run_stops fl r b Hr prev a (p, rest)) as (a' & E' & L).
  { rewrite E. now left. }
  cbn [snd] in E'. subst rest. rewrite !length_app. cbn [length]. lia.
Qed.

Lemma replaceFrom_None (fl : flags) (r : regex) (repl : str -> str)
      (prev : option char) (c : char) (s : str) :
  matchLen fl r prev (c :: s) = None ->
  replaceFrom fl r repl prev 0 (c :: s)
  = c :: replaceFrom fl r repl (Some c) 0 s.
Proof. intros H. cbn [replaceFrom]. now rewrite H. Qed.

(** What a pass writes for the text before a [<] is followed by what it
    writes from that [<] on. *)
Lemma replaceFrom_tail (fl : flags) (r : regex) (repl : str -> str) (b : str) :
  rejectsLt fl r = true ->
  forall a prev skip,
    skip <= length a ->
    exists o p,
      replaceFrom fl r repl prev skip (a ++ LT :: b)
      = o ++ replaceFrom fl r repl p 0 (LT :: b).
Proof.
  intros Hr. induction a as [|c a IH]; intros prev skip Hs.
  - cbn [length] in Hs. replace skip with 0 by lia. exists [], prev. reflexivity.
  - destruct skip as [|k].
    + change ((c :: a) ++ LT :: b) with (c :: (a ++ LT :: b)).
      cbn [replaceFrom].
      destruct (matchLen fl r prev (c :: a ++ LT :: b)) as [[|n]|] eqn:M.
      * destruct (IH (Some c) 0 (Nat.le_0_l _)) as (o & p & E).
        exists (repl [] ++ c :: o), p. rewrite E, <- app_assoc. reflexivity.
      * apply (matchLen_stops fl r prev (c :: a) b (S n) Hr) in M.
        cbn [length] in M.
        destruct (IH (Some c) n ltac:(lia)) as (o & p & E).
        exists (repl (firstn (S n) (c :: a ++ LT :: b)) ++ o), p.
        rewrite E, <- app_assoc. reflexivity.
      * destruct (IH (Some c) 0 (Nat.le_0_l _)) as (o & p & E).
        exists (c :: o), p. rewrite E. reflexivity.
    + change ((c :: a) ++ LT :: b) with (c :: (a ++ LT :: b)).
      cbn [replaceFrom]. cbn [length] in Hs.
      destruct (IH (Some c) k ltac:(lia)) as (o & p & E).
      exists o, p. exact E.
Qed.

(** A pass that leaves the two tags of a paragraph as they are. *)
Record keepsTags (fl : flags) (r : regex) (repl : str -> str) : Prop := {
  keeps_lt : rejectsLt fl r = true;
  keeps_open0 : forall x, matchLen fl r None (60%N :: 112%N :: 62%N :: x) = None;
  keeps_open1 : forall x, matchLen fl r (Some 60%N) (112%N :: 62%N :: x) = None;
  keeps_open2 : forall x, matchLen fl r (Some 112%N) (62%N :: x) = None;
  keeps_close : forall p, replaceFrom fl r repl p 0 (lit "</p>") = lit "</p>"
}.

Lemma pass_keeps_tags (fl : flags) (r : regex) (repl : str -> str) (x : str) :
  keepsTags fl r repl ->
  exists y,
    replaceAll fl r repl (lit "<p>" ++ x ++ lit "</p>")
    = lit "<p>" ++ y ++ lit "</p>".
Proof.
  intros [K0 K1 K2 K3 K4]. unfold replaceAll.
  change (lit "<p>" ++ x ++ lit "</p>")
    with (60%N :: 112%N :: 62%N :: x ++ lit "</p>").
  rewrite (replaceFrom_None fl r repl _ _ _ (K1 (x ++ lit "</p>"))).
  rewrite (replaceFrom_None fl r repl _ _ _ (K2 (x ++ lit "</p>"))).
  rewrite (replaceFrom_None fl r repl _ _ _ (K3 (x ++ lit "</p>"))).
  destruct (replaceFrom_tail fl r repl (lit "/p>") K0 x (Some 62%N) 0
              (Nat.le_0_l _)) as (o & p & E).
  change (replaceFrom fl r repl (Some 62%N) 0 (x ++ lit "</p>")
          = o ++ replaceFrom fl r repl p 0 (lit "</p>")) in E.
  rewrite E, K4.
  exists o. reflexivity.
Qed.

Lemma run_wordB_first (fl : flags) (r : regex) (p : option char) (s : str) :
  run fl (Seq WordB r) p s
  = if xorb (isWordOpt p) (isWordOpt (hd_error s)) then run fl r p s else [].
Proof.
  rewrite run_Seq. cbn [run].
  destruct (xorb (isWordOpt p) (isWordOpt (hd_error s)));
    cbn [flat_map fst snd]; [apply app_nil_r|reflexivity].
Qed.

Ltac keeps_tags :=
  constructor;
  [ vm_compute; reflexivity
  | intros x; vm_compute; reflexivity
  | intros x; vm_compute; reflexivity
  | intros x; vm_compute; reflexivity
  | intros p;
    change (lit "</p>") with [60%N; 47%N; 112%N; 62%N];
    rewrite replaceFrom_None;
    [ vm_compute; reflexivity
    | unfold matchLen;
      match goal with
      | |- context [run ?fl ?r p ?s] =>
          let r' := eval cbv [re_time re_system re_condition re_marine
                              re_direction re_measure re_degrees wholeWord seqs] in r in
          change (run fl r p s) with (run fl r' p s)
      end;
      rewrite run_wordB_first;
      destruct (xorb (isWordOpt p) _); [vm_compute|]; reflexivity ] ].

Lemma keeps_time : keepsTags fl_gi re_time strong.
Proof. keeps_tags. Qed.

Lemma keeps_system : keepsTags fl_gi re_system strong.
Proof. keeps_tags. Qed.

Lemma keeps_condition : keepsTags fl_gi re_condition em.
Proof. keeps_tags. Qed.

Lemma keeps_marine : keepsTags fl_gi re_marine em.
Proof. keeps_tags. Qed.

Lemma keeps_direction : keepsTags fl_gi re_direction (spanClass "wind-direction").
Proof. keeps_tags. Qed.

Lemma keeps_measure : keepsTags fl_gi re_measure (spanClass "weather-measurement").
Proof. keeps_tags. Qed.

Lemma keeps_degrees : keepsTags fl_gi re_degrees (spanClass "weather-measurement").
Proof. keeps_tags. Qed.

Lemma highlight_keeps_tags (x : str) :
  exists y, highlight (lit "<p>" ++ x ++ lit "</p>") = lit "<p>" ++ y ++ lit "</p>".
Proof.
  unfold highlight.
  destruct (pass_keeps_tags _ _ _ x keeps_time) as (x1 & ->).
  destruct (pass_keeps_tags _ _ _ x1 keeps_system) as (x2 & ->).
  destruct (pass_keeps_tags _ _ _ x2 keeps_condition) as (x3 & ->).
  destruct (pass_keeps_tags _ _ _ x3 keeps_marine) as (x4 & ->).
  destruct (pass_keeps_tags _ _ _ x4 keeps_direction) as (x5 & ->).
  destruct (pass_keeps_tags _ _ _ x5 keeps_measure) as (x6 & ->).
  destruct (pass_keeps_tags _ _ _ x6 keeps_degrees) as (x7 & ->).
  now exists x7.
Qed.

Lemma wrapped_shape (l : list str) :
  l <> [] ->
  exists x, join [] (List.map wrapP l) = lit "<p>" ++ x ++ lit "</p>".
Proof.
  intros H. rewrite join_nil_concat.
  destruct l as [|e l]; [contradiction|].
  destruct (nil_or_snoc l) as [->|(m & z & ->)].
  - exists e. cbn [List.map concat]. unfold wrapP. now rewrite app_nil_r.
  - exists (e ++ lit "</p>" ++ concat (List.map wrapP m) ++ lit "<p>" ++ z).
    cbn [List.map concat]. rewrite map_app, concat_app. cbn [List.map concat].
    unfold wrapP at 1 3. rewrite app_nil_r, <- !app_assoc. reflexivity.
Qed.

Lemma emitted_nonempty (toUpperCase : str -> str) (t : str) :
  emitted toUpperCase t <> [].
Proof.
  unfold emitted. destruct (fallbackTaken toUpperCase t) eqn:B; [discriminate|].
  unfold fallbackTaken in B. apply orb_false_elim in B. destruct B as [B _].
  rewrite formatted_fragments in B.
  intros E. rewrite E in B. discriminate B.
Qed.

(** X17: the markup of a bulletin text that is not empty begins with the opening
    tag of a paragraph and ends with the closing one, whatever the text: the
    body of the widget is never empty and never bare text. *)
Theorem formatText_wellformed (toUpperCase : str -> str) (text : str) :
  text <> [] ->
  exists y, formatText toUpperCase text = lit "<p>" ++ y ++ lit "</p>".
Proof.
  intros H. unfold formatText.
  destruct text as [|c text]; [contradiction|]. cbn [isEmpty]. cbv zeta.
  rewrite assemble_emitted.
  destruct (wrapped_shape _ (emitted_nonempty toUpperCase (clean (c :: text))))
    as (x & ->).
  apply highlight_keeps_tags.
Qed.

Lemma formatText_wellformed_witness :
  lit "Rain tonight." <> []
  /\ exists y, formatText toUpperCaseLatin (lit "Rain tonight.")
               = lit "<p>" ++ y ++ lit "</p>".
Proof.
  split; [discriminate|].
  apply (formatText_wellformed toUpperCaseLatin (lit "Rain tonight.")).
  discriminate.
Defined.

End MarkupFacts.


(** ** When the fallback is taken *)

Module FallbackFacts.
Import JS Regex Discussion JSFacts RegexFacts RenderFacts FormatFacts ParagraphFacts.

Unset Implicit Arguments.

Lemma headOk_rev_tail (a b : str) :
  b <> [] -> headOk (rev (a ++ b)) -> headOk (rev b).
Proof.
  intros Hb H. rewrite rev_app_distr in H.
  destruct (rev b) as [|c r] eqn:E; [exact I|exact H].
Qed.

Lemma dotSpaces_end (sp : str) : dotSpaces sp -> ~ headOk (rev sp).
Proof.
  intros (w & -> & Hw & Hs) H.
  destruct (nil_or_snoc w) as [->|(m & z & ->)]; [contradiction|].
  change (46%N :: m ++ [z]) with ((46%N :: m) ++ [z]) in H.
  rewrite rev_app_distr in H. cbn [rev app headOk] in H.
  apply Forall_app in Hs. destruct Hs as [_ Hz].
  inversion Hz as [|? ? Hz' _]; subst. rewrite Hz' in H. discriminate H.
Qed.

Lemma nonSpace_last (p : str) : p <> [] -> headOk (rev p) -> nonSpace p <> [].
Proof.
  intros Hp H. destruct (nil_or_snoc p) as [->|(m & z & ->)]; [contradiction|].
  rewrite rev_app_distr in H. cbn [rev app headOk] in H.
  rewrite nonSpace_app. unfold nonSpace at 2. cbn [filter]. rewrite H.
  cbn [negb]. intros E. apply app_eq_nil in E. destruct E as [_ E].
  discriminate E.
Qed.

(** A text that ends with a visible code unit has a sentence. *)
Lemma tokens_nonempty (pieces : list str) :
  forall seps,
    length pieces = S (length seps) ->
    Forall dotSpaces seps ->
    interleave pieces seps <> [] ->
    headOk (rev (interleave pieces seps)) ->
    tokens pieces <> [].
Proof.
  induction pieces as [|raw ps IH]; intros seps L Hs Hne Hend; [discriminate L|].
  cbn [tokens].
  destruct seps as [|sp ss].
  - destruct ps; [|discriminate L]. cbn [interleave] in Hne, Hend.
    rewrite app_nil_r in Hne, Hend.
    destruct (nextSentence raw []) as [s|] eqn:N; [discriminate|].
    apply nextSentence_None, trim_nil_nonSpace in N.
    exfalso. now apply (nonSpace_last raw Hne Hend).
  - injection L as L. inversion Hs as [|? ? Hsp Hss]; subst.
    destruct ps as [|q ps]; [discriminate L|].
    assert (T : tokens (q :: ps) <> []).
    { change (interleave (raw :: q :: ps) (sp :: ss))
        with (raw ++ sp ++ interleave (q :: ps) ss) in Hend.
      destruct (interleave (q :: ps) ss) as [|c rest] eqn:E.
      - exfalso. rewrite app_nil_r in Hend.
        apply (dotSpaces_end sp Hsp).
        apply (headOk_rev_tail raw sp); [|exact Hend].
        destruct Hsp as (w & -> & _). discriminate.
      - apply (IH ss L Hss); rewrite E; [discriminate|].
        rewrite app_assoc in Hend.
        apply (headOk_rev_tail (raw ++ sp) (c :: rest)); [discriminate|exact Hend]. }
    destruct (nextSentence raw (q :: ps)); [discriminate|exact T].
Qed.

Lemma solid_tokens_nonempty (l : list str) :
  tokens l <> [] -> solid (tokens l) <> [].
Proof.
  induction l as [|raw rest IH]; [intros H; now contradiction H|].
  cbn [tokens]. destruct (nextSentence raw rest) as [s|] eqn:N; [|exact IH].
  intros _. rewrite solid_cons.
  pose proof (nonSpace_sentence raw rest s N) as Hs.
  destruct (nonSpace s); [contradiction|discriminate].
Qed.

Lemma sentences_visible (p : str) :
  p <> [] -> headOk (rev p) -> solid (tokens (splitSentences p)) <> [].
Proof.
  intros Hp He. apply solid_tokens_nonempty.
  destruct (sentences_parts p) as (seps & L & I & F).
  apply (tokens_nonempty _ seps L F); rewrite I; assumption.
Qed.

Section Fallback.

Variable toUpperCase : str -> str.

Lemma chunks_nonempty (p : str) :
  trimmed p -> longParagraphChunks toUpperCase p <> [].
Proof.
  intros [Hp [_ He]] E.
  apply (sentences_visible p Hp He).
  rewrite <- (longParagraphChunks_solid toUpperCase), E. reflexivity.
Qed.

Lemma forced_nonempty (p : str) : trimmed p -> forceParagraphBreaks p <> [].
Proof.
  intros [Hp [_ He]] E.
  apply (sentences_visible p Hp He).
  rewrite <- forceParagraphBreaks_solid, E. reflexivity.
Qed.

Lemma fallback_segment (t : str) :
  fallbackTaken toUpperCase t = true <-> segment toUpperCase t = [].
Proof.
  unfold fallbackTaken. split.
  - intros B. pose proof (segment_trimmed toUpperCase t) as H.
    destruct (segment toUpperCase t) as [|p l] eqn:E; [reflexivity|].
    exfalso. cbn [length Nat.eqb] in B. rewrite orb_false_r in B.
    rewrite formatted_fragments, join_nil_concat in B.
    inversion H as [|? ? Hp Hl]; subst.
    unfold fragments in B. cbn [flat_map] in B.
    destruct (700 <? length p).
    + pose proof (chunks_nonempty p Hp) as K.
      destruct (longParagraphChunks toUpperCase p) as [|x xs]; [contradiction|].
      cbn in B. discriminate B.
    + cbn in B. discriminate B.
  - intros ->. reflexivity.
Qed.

Lemma segment_initial (t : str) :
  segment toUpperCase t = [] <-> initialParagraphs toUpperCase t = [].
Proof.
  unfold segment, ensureBreaks.
  pose proof (initialParagraphs_trimmed toUpperCase t) as H.
  destruct (initialParagraphs toUpperCase t) as [|p [|q l]].
  - tauto.
  - inversion H as [|? ? Hp _]; subst.
    destruct (600 <? length p); [|tauto].
    split; [|discriminate]. intros E. now apply forced_nonempty in E.
  - tauto.
Qed.

End Fallback.

Lemma filter_nil {A : Type} (f : A -> bool) (l : list A) :
  filter f l = [] <-> Forall (fun x => f x = false) l.
Proof.
  induction l as [|x l IH]; cbn [filter]; [split; [constructor|reflexivity]|].
  destruct (f x) eqn:E; split; intros H.
  - discriminate H.
  - inversion H as [|? ? Hx _]; subst. rewrite E in Hx. discriminate Hx.
  - constructor; [exact E|now apply IH].
  - inversion H; subst. now apply IH.
Qed.

(** X18: the fallback of lines 199-201 is taken in two cases only: the cleaned
    text is empty, or blank lines and ellipses cut it into two or more
    pieces none of which is longer than 15 code units once trimmed. *)
Theorem fallback_exactly (toUpperCase : str -> str) (text : str) :
  fallbackTaken toUpperCase (clean text) = true
  <-> clean text = []
      \/ (length (split fl_g re_break (clean text)) <> 1
          /\ Forall (fun p => length (trim p) <= 15)
                    (split fl_g re_break (clean text))).
Proof.
  rewrite fallback_segment, segment_initial.
  unfold initialParagraphs.
  destruct (Nat.eqb_spec (length (split fl_g re_break (clean text))) 1) as [L|L].
  - split.
    + intros E. left.
      destruct (clean text) as [|c r] eqn:C; [reflexivity|exfalso].
      assert (T : trimmed (clean text)).
      { split; [rewrite C; discriminate|apply trim_noSpaceEnds]. }
      rewrite C in T. destruct T as [Hp [_ He]].
      apply (sentences_visible (c :: r) Hp He).
      rewrite <- (sentenceParagraphs_solid toUpperCase), E. reflexivity.
    + intros [E|[K _]]; [|contradiction]. rewrite E. reflexivity.
  - rewrite filter_nil. split.
    + intros H. right. split; [exact L|].
      apply Forall_forall. intros p Hp.
      rewrite Forall_forall in H.
      specialize (H (trim p) (in_map trim _ p Hp)).
      apply Nat.ltb_ge in H. exact H.
    + intros [E|[_ H]].
      * exfalso. apply L. rewrite E. reflexivity.
      * apply Forall_forall. intros x Hx. apply in_map_iff in Hx.
        destruct Hx as (p & <- & Hp). rewrite Forall_forall in H.
        apply Nat.ltb_ge. now apply H.
Qed.

Definition shortPieces : str := lit "Hi there." ++ [NL; NL] ++ lit "Bye now.".

Lemma fallback_exactly_witness :
  fallbackTaken toUpperCaseLatin (clean shortPieces) = true.
Proof.
  apply (proj2 (fallback_exactly toUpperCaseLatin shortPieces)).
  right.
  assert (E : split fl_g re_break (clean shortPieces)
              = [lit "Hi there."; lit "Bye now."]) by (vm_compute; reflexivity).
  rewrite E. split; [discriminate|].
  repeat constructor; vm_compute; intros K; discriminate K.
Defined.

End FallbackFacts.


(** ** The time in the header *)

Module HeaderFacts.
Import JS Regex Discussion JSFacts RenderFacts.

Unset Implicit Arguments.

Section Header.

Variable parseDate : str -> option Z.
Variable formatEnUS : Z -> str.
Variable toUpperCase : str -> str.

(** [new Date(value)] throws for a Symbol only. *)
Lemma newDate_returns (value : dateLike) :
  value <> DSymbol -> exists t, newDate parseDate value = Ok t.
Proof. destruct value; intros H; try (eexists; reflexivity). contradiction. Qed.

(** X19: [formatDate] returns a string whatever it is given: what [new Date]
    throws is caught.  It returns "Unknown" for every falsy value and for a
    Symbol, and for a Date object never: there it is the platform's
    rendering of a valid time value, or "Invalid Date". *)
Theorem formatDate_outcomes (date : dateLike) :
  exists s,
    formatDate parseDate formatEnUS date = Ok s
    /\ (falsy date = true \/ date = DSymbol -> s = lit "Unknown")
    /\ (forall t, date = DDate t ->
          s = match t with
              | Some z => formatEnUS z
              | None => lit "Invalid Date"
              end).
Proof.
  unfold formatDate.
  destruct date as [| |s|t|t|]; cbn [falsy].
  - eexists. split; [reflexivity|]. split; [reflexivity|discriminate].
  - eexists. split; [reflexivity|]. split; [reflexivity|discriminate].
  - destruct (isEmpty s).
    + eexists. split; [reflexivity|]. split; [reflexivity|discriminate].
    + cbn [newDate bind]. destruct (timeClip (parseDate s)) as [z|];
        (eexists; split; [reflexivity|]; split;
         [intros [H|H]; discriminate H|discriminate]).
  - destruct t as [z|].
    + destruct (Z.eqb z 0) eqn:E.
      * eexists. split; [reflexivity|]. split; [reflexivity|discriminate].
      * cbn [newDate bind]. destruct (timeClip (Some z)) as [z'|];
          (eexists; split; [reflexivity|]; split;
           [intros [H|H]; discriminate H|discriminate]).
    + eexists. split; [reflexivity|]. split; [reflexivity|discriminate].
  - destruct t as [z|]; cbn [newDate bind toLocaleDateString tryCatch];
      (eexists; split; [reflexivity|]; split;
       [intros [H|H]; discriminate H|intros t' [= <-]; reflexivity]).
  - eexists. split; [reflexivity|]. split; [reflexivity|discriminate].
Qed.

(** X20: in the header the time is the [issuedTime] when there is one.  Without
    it the time is computed from [updated], and then it is the platform's
    rendering of a time value or "Invalid Date", the latter when [updated]
    is missing too: [formatDate] is given a Date object, so that neither its
    test for a missing date nor its handler is reached. *)
Theorem render_header_time (w : widget) (data : bulletin) (p : properties)
        (t : str) :
  currentData w = Some data ->
  props data = Some p ->
  text p = Some t ->
  isEmpty t || (length (trim t) =? 0) = false ->
  updated p <> DSymbol ->
  exists time,
    render parseDate formatEnUS toUpperCase w
    = Ok (setContent w (bodyHtml (orElse (officeName p) (office p)) time
                                 (formatText toUpperCase t)))
    /\ (forall i, issuedTime p = Some i -> isEmpty i = false -> time = i)
    /\ (issuedTime p = None \/ issuedTime p = Some [] ->
        (exists z, time = formatEnUS z /\ updated p <> DUndefined)
        \/ time = lit "Invalid Date")
    /\ (issuedTime p = None \/ issuedTime p = Some [] ->
        updated p = DUndefined -> time = lit "Invalid Date").
Proof.
  intros Hd Hp Ht Hb Hu. unfold render. rewrite Hd, Hp, Ht, Hb.
  destruct (newDate_returns (updated p) Hu) as (d & Hn).
  assert (F : exists time,
             bind (newDate parseDate (updated p))
                  (fun d => formatDate parseDate formatEnUS (DDate d)) = Ok time
             /\ ((exists z, time = formatEnUS z /\ updated p <> DUndefined)
                 \/ time = lit "Invalid Date")
             /\ (updated p = DUndefined -> time = lit "Invalid Date")).
  { rewrite Hn. cbn [bind]. destruct d as [z|].
    - exists (formatEnUS z). split; [reflexivity|]. split.
      + left. exists z. split; [reflexivity|].
        intros E. rewrite E in Hn. discriminate Hn.
      + intros E. rewrite E in Hn. discriminate Hn.
    - exists (lit "Invalid Date"). split; [reflexivity|]. split; [now right|].
      reflexivity. }
  destruct F as (time & F1 & F2 & F3).
  destruct (issuedTime p) as [i|] eqn:Ei.
  - destruct (isEmpty i) eqn:Bi.
    + exists time. rewrite F1. split; [reflexivity|].
      split; [intros i' [= <-] K; rewrite K in Bi; discriminate Bi|].
      split; [intros _; exact F2|intros _; exact F3].
    + exists i. split; [reflexivity|].
      split; [now intros i' [= <-]|].
      split; (intros [K|K]; [discriminate K|]; injection K as ->;
              discriminate Bi).
  - exists time. rewrite F1. split; [reflexivity|].
    split; [intros i K; discriminate K|].
    split; [intros _; exact F2|intros _; exact F3].
Qed.

End Header.

Definition bareBulletin : bulletin :=
  Bulletin (Some (Properties (Some (lit "AJK")) None (Some (lit "Rain tonight."))
                             DUndefined None)).

Lemma formatDate_outcomes_witness :
  exists s, formatDate noParse sampleFormat (DString []) = Ok s
            /\ s = lit "Unknown".
Proof.
  destruct (formatDate_outcomes noParse sampleFormat (DString []))
    as (s & H1 & H2 & _).
  exists s. split; [exact H1|]. apply H2. left. reflexivity.
Defined.

Lemma render_header_time_witness :
  let w := Widget (Some bareBulletin) None [] in
  exists time,
    render noParse sampleFormat toUpperCaseLatin w
    = Ok (setContent w (bodyHtml (lit "AJK") time
                                 (formatText toUpperCaseLatin (lit "Rain tonight."))))
    /\ time = lit "Invalid Date".
Proof.
  intros w.
  destruct (@render_header_time noParse sampleFormat toUpperCaseLatin w bareBulletin
              (Properties (Some (lit "AJK")) None (Some (lit "Rain tonight."))
                          DUndefined None)
              (lit "Rain tonight.") eq_refl eq_refl eq_refl eq_refl
              ltac:(discriminate))
    as (time & H1 & _ & _ & H4).
  exists time. split; [exact H1|].
  apply H4; [left|]; reflexivity.
Defined.

End HeaderFacts.


(** ** The boilerplate that is removed *)

Module BoilerplateFacts.
Import JS Regex Discussion JSFacts RegexFacts RenderFacts FormatFacts.

Unset Implicit Arguments.

(** The lookahead of the boilerplate pattern. *)
Definition blankLineOrEnd : regex :=
  alts [chars [NL; NL]; seqs [chr NL; star space; chr NL]; Eol].

Lemma canon_NL (c : char) : N.eqb (canon c) (canon NL) = N.eqb c NL.
Proof.
  unfold canon at 1. destruct (between 97 122 c) eqn:B; [|reflexivity].
  unfold between in B. apply andb_prop in B. destruct B as [B1 B2].
  apply N.leb_le in B1. apply N.leb_le in B2.
  change (canon NL) with 10%N. unfold NL.
  destruct (N.eqb_spec (c - 32) 10) as [E|E];
    destruct (N.eqb_spec c 10) as [E'|E']; try reflexivity; lia.
Qed.

(** The lookahead fails before a code unit that is not a newline, and
    succeeds at the end of the text and before two newlines. *)
Lemma ahead_fails (prev : option char) (c : char) (s : str) :
  N.eqb c NL = false ->
  run fl_gis (Ahead blankLineOrEnd) prev (c :: s) = [].
Proof.
  intros Hc. cbn [run]. unfold blankLineOrEnd. cbn [alts seqs chars].
  rewrite !run_Alt, !run_Seq, !run_chr.
  cbn [atomMatch ignoreCase fl_gis]. rewrite canon_NL, Hc.
  cbn [flat_map app run atEol multiline fl_gis andb]. reflexivity.
Qed.

Definition stopsHere (rest : str) : Prop :=
  rest = [] \/ exists c, rest = NL :: NL :: c.

Lemma ahead_succeeds (prev : option char) (rest : str) :
  stopsHere rest ->
  run fl_gis (Ahead blankLineOrEnd) prev rest = [(prev, rest)].
Proof.
  intros [->|(c & ->)]; [reflexivity|].
  cbn [run]. unfold blankLineOrEnd. cbn [alts seqs chars].
  rewrite run_Alt, run_Seq, !run_chr.
  cbn [atomMatch ignoreCase fl_gis]. rewrite N.eqb_refl.
  cbn [flat_map fst snd]. rewrite run_chr.
  cbn [atomMatch ignoreCase fl_gis]. rewrite N.eqb_refl. reflexivity.
Qed.

(** The lazy [.*?] stops at the first place where the lookahead holds. *)
Lemma lazy_stops (b1 rest : str) :
  Forall (fun c => N.eqb c NL = false) b1 ->
  stopsHere rest ->
  forall prev, exists p tl,
    run fl_gis (Seq (Rep false 0 None ADot) (Ahead blankLineOrEnd)) prev (b1 ++ rest)
    = (p, rest) :: tl.
Proof.
  intros Hb Hr. induction Hb as [|c b1 Hc Hb IH]; intros prev.
  - cbn [app]. rewrite run_Seq.
    change (run fl_gis (Rep false 0 None ADot) prev rest)
      with (reps (atomMatch fl_gis ADot) None prev rest).
    destruct rest as [|x rest']; cbn [reps flat_map fst snd];
      rewrite (ahead_succeeds prev _ Hr); eexists _, _; reflexivity.
  - destruct (IH (Some c)) as (p & tl & E).
    exists p, tl. rewrite <- E.
    rewrite !run_Seq.
    change (run fl_gis (Rep false 0 None ADot) prev ((c :: b1) ++ rest))
      with ((prev, c :: b1 ++ rest)
              :: reps (atomMatch fl_gis ADot) None (Some c) (b1 ++ rest)).
    cbn [flat_map fst snd]. rewrite (ahead_fails prev c _ Hc). reflexivity.
Qed.

(** The marker, in any letter case, matches the literal of the pattern. *)
Lemma run_chars_match (w : str) :
  w <> [] ->
  forall m b prev,
    List.map canon m = List.map canon w ->
    exists p, run fl_gis (chars w) prev (m ++ b) = [(p, b)].
Proof.
  induction w as [|c w IH]; intros Hne m b prev E; [contradiction|].
  destruct m as [|x m]; [discriminate E|].
  cbn [List.map] in E. injection E as Ex Em.
  assert (A : atomMatch fl_gis (AChr c) x = true).
  { cbn [atomMatch ignoreCase fl_gis]. rewrite Ex. apply N.eqb_refl. }
  destruct w as [|c2 w].
  - destruct m; [|discriminate Em].
    cbn [chars app]. rewrite run_chr, A. eexists. reflexivity.
  - change (chars (c :: c2 :: w)) with (Seq (chr c) (chars (c2 :: w))).
    rewrite run_Seq. cbn [app]. rewrite run_chr, A.
    cbn [flat_map fst snd]. rewrite app_nil_r.
    apply IH; [discriminate|exact Em].
Qed.

Lemma usagov_match (m b1 rest : str) (prev : option char) :
  List.map canon m = MARKER ->
  Forall (fun c => N.eqb c NL = false) b1 ->
  stopsHere rest ->
  matchLen fl_gis re_usagov prev (m ++ b1 ++ rest) = Some (length (m ++ b1)).
Proof.
  intros Hm Hb Hr. unfold matchLen, re_usagov. cbn [seqs].
  rewrite run_Seq. unfold word.
  destruct (run_chars_match (lit "usa.gov") ltac:(discriminate) m (b1 ++ rest) prev)
    as (p & E); [exact Hm|].
  rewrite E. cbn [flat_map fst snd]. rewrite app_nil_r.
  destruct (lazy_stops b1 rest Hb Hr p) as (p' & tl & E').
  change (run fl_gis (Seq _ (Ahead _)) p (b1 ++ rest))
    with (run fl_gis (Seq (Rep false 0 None ADot) (Ahead blankLineOrEnd)) p
              (b1 ++ rest)).
  rewrite E'. f_equal. rewrite !length_app. lia.
Qed.

Section Scanning.

Variable fl : flags.
Variable r : regex.
Variable repl : str -> str.

Lemma replaceFrom_skipped (s : str) :
  forall k prev, k <= length s ->
    exists prev',
      replaceFrom fl r repl prev k s = replaceFrom fl r repl prev' 0 (skipn k s).
Proof.
  induction s as [|c s IH]; intros k prev Hk.
  - cbn [length] in Hk. replace k with 0 by lia. now exists prev.
  - destruct k as [|k]; [now exists prev|].
    cbn [replaceFrom skipn]. apply IH. cbn [length] in Hk. lia.
Qed.

(** Where the pattern matches nowhere the text is copied. *)
Lemma replaceFrom_copies (a : str) :
  forall x prev,
    (forall a1 a2 p, a = a1 ++ a2 -> a2 <> [] -> matchLen fl r p (a2 ++ x) = None) ->
    exists prev',
      replaceFrom fl r repl prev 0 (a ++ x) = a ++ replaceFrom fl r repl prev' 0 x.
Proof.
  induction a as [|c a IH]; intros x prev H; [now exists prev|].
  pose proof (H [] (c :: a) prev eq_refl ltac:(discriminate)) as M.
  cbn [app] in M. cbn [app replaceFrom]. rewrite M.
  destruct (IH x (Some c)) as (prev' & E).
  { intros a1 a2 p -> Ha. apply (H (c :: a1) a2 p); [reflexivity|exact Ha]. }
  exists prev'. now rewrite E.
Qed.

End Scanning.

Lemma startsWith_within (x y p : str) :
  length p <= length x -> startsWith (x ++ y) p = true -> startsWith x p = true.
Proof.
  revert x. induction p as [|c p IH]; intros x L H; [destruct x; reflexivity|].
  destruct x as [|d x]; [cbn [length] in L; lia|].
  cbn [app startsWith] in *. apply andb_prop in H. destruct H as [H1 H2].
  rewrite H1. cbn [andb]. apply IH; [cbn [length] in L; lia|exact H2].
Qed.

Lemma usagov_rest (rest : str) (p : option char) :
  rest = [] \/ noMarker rest ->
  replaceFrom fl_gis re_usagov (const []) p 0 rest = rest.
Proof.
  intros H.
  assert (N : noMarker rest).
  { destruct H as [->|H]; [|exact H].
    intros a s' E. symmetry in E. apply app_eq_nil in E. destruct E as [_ ->].
    reflexivity. }
  destruct (replaceFrom_copies fl_gis re_usagov (const []) rest [] p) as (p' & E).
  - intros a1 a2 q E Ha. rewrite app_nil_r.
    unfold matchLen, re_usagov. cbn [seqs]. rewrite run_Seq.
    unfold word. rewrite run_chars_fail; [reflexivity|discriminate|].
    exact (N a1 a2 E).
  - rewrite app_nil_r in E. rewrite E.
    cbn [replaceFrom]. unfold matchLen, re_usagov. cbn [seqs]. rewrite run_Seq.
    unfold word. rewrite run_chars_fail; [|discriminate|reflexivity].
    cbn [flat_map]. now rewrite app_nil_r.
Qed.

(** X21: the first pattern removes the boilerplate: from the first "usa.gov", in
    any letter case, to the end of its line, when the text ends there or a
    blank line follows.  The text before it and the text from the blank line
    on are kept, and the cleaned text is that of the bulletin without the
    boilerplate. *)
Theorem boilerplate_removed (a m b1 rest : str) :
  List.map canon m = MARKER ->
  noMarker (a ++ firstn 6 m) ->
  Forall (fun c => N.eqb c NL = false) b1 ->
  rest = [] \/ (exists c, rest = NL :: NL :: c /\ noMarker c) ->
  replaceAll fl_gis re_usagov (const []) (a ++ m ++ b1 ++ rest) = a ++ rest
  /\ clean (a ++ m ++ b1 ++ rest) = clean (a ++ rest).
Proof.
  intros Hm Ha Hb Hr.
  assert (Lm : length m = 7).
  { rewrite <- (length_map canon), Hm. reflexivity. }
  assert (Hs : stopsHere rest).
  { destruct Hr as [->|(c & -> & _)]; [now left|right; now exists c]. }
  assert (Na : noMarker a) by exact (noMarker_prefix _ _ Ha).
  assert (Nr : rest = [] \/ noMarker rest).
  { destruct Hr as [->|(c & -> & Hc)]; [now left|right].
    apply (noMarker_between [] [NL; NL] c); try assumption.
    - intros x s' E. symmetry in E. apply app_eq_nil in E.
      destruct E as [_ ->]. reflexivity.
    - discriminate.
    - repeat constructor. }
  assert (R1 : replaceAll fl_gis re_usagov (const []) (a ++ m ++ b1 ++ rest)
               = a ++ rest).
  { unfold replaceAll.
    destruct (replaceFrom_copies fl_gis re_usagov (const []) a (m ++ b1 ++ rest) None)
      as (p & E).
    { intros a1 a2 q -> Ha2.
      unfold matchLen, re_usagov. cbn [seqs]. rewrite run_Seq.
      unfold word. rewrite run_chars_fail; [reflexivity|discriminate|].
      destruct (startsWith (List.map canon (a2 ++ m ++ b1 ++ rest))
                           (List.map canon (lit "usa.gov"))) eqn:S; [|reflexivity].
      assert (S' : startsWith (List.map canon (a2 ++ firstn 6 m)
                               ++ List.map canon (skipn 6 m ++ b1 ++ rest))
                              MARKER = true).
      { rewrite <- map_app, <- app_assoc, (app_assoc (firstn 6 m)),
          (firstn_skipn 6 m). exact S. }
      apply startsWith_within in S'.
      - rewrite <- app_assoc in Ha.
        now rewrite (Ha a1 (a2 ++ firstn 6 m) eq_refl) in S'.
      - rewrite length_map, length_app, length_firstn, Lm.
        destruct a2; [contradiction|]. cbn. lia. }
    rewrite E. f_equal.
    destruct m as [|x m']; [discriminate Lm|].
    cbn [app replaceFrom].
    pose proof (usagov_match (x :: m') b1 rest p Hm Hb Hs) as M.
    cbn [app] in M. rewrite M.
    cbn [const app length].
    destruct (replaceFrom_skipped fl_gis re_usagov (const []) (m' ++ b1 ++ rest)
                (length (m' ++ b1)) (Some x)) as (p' & K).
    { rewrite !length_app. lia. }
    rewrite K. rewrite app_assoc, skipn_app, skipn_all, Nat.sub_diag.
    cbn [app skipn]. apply usagov_rest. exact Nr. }
  split; [exact R1|].
  unfold clean. rewrite R1.
  rewrite (usagov_noop (a ++ rest)); [reflexivity|].
  destruct Hr as [->|(c & -> & Hc)]; [now rewrite app_nil_r|].
  apply (noMarker_between a [NL; NL] c); try assumption.
  - discriminate.
  - repeat constructor.
Qed.

Definition bulletinWithFooter : str :=
  lit "Rain tonight." ++ [NL] ++ lit "See www.USA.gov for more" ++ [NL; NL]
  ++ lit "Wind tomorrow.".

Lemma boilerplate_removed_witness :
  clean bulletinWithFooter
  = clean (lit "Rain tonight." ++ [NL] ++ lit "See www." ++ [NL; NL]
           ++ lit "Wind tomorrow.").
Proof.
  assert (H1 : noMarker ((lit "Rain tonight." ++ [NL] ++ lit "See www.")
                         ++ firstn 6 (lit "USA.gov")))
    by (apply noMarker_intro; vm_compute; reflexivity).
  assert (H2 : noMarker (lit "Wind tomorrow."))
    by (apply noMarker_intro; vm_compute; reflexivity).
  assert (H3 : Forall (fun c => N.eqb c NL = false) (lit " for more"))
    by (repeat constructor).
  exact (proj2 (boilerplate_removed
                  (lit "Rain tonight." ++ [NL] ++ lit "See www.")
                  (lit "USA.gov") (lit " for more")
                  ([NL; NL] ++ lit "Wind tomorrow.")
                  eq_refl H1 H3
                  (or_intror (ex_intro _ (lit "Wind tomorrow.")
                                (conj eq_refl H2))))).
Defined.

End BoilerplateFacts.


(** ** The bullet lines that are removed *)

Module BulletFacts.
Import JS Regex Discussion JSFacts RegexFacts RenderFacts FormatFacts.

Unset Implicit Arguments.

(** The characters that open a bullet line (line 125). *)
Definition isLineBullet (c : char) : bool :=
  oneOf [BULLET; MIDDOT; 45%N; 42%N] c.

Definition lineBullet : atom :=
  ASet false [CChr BULLET; CChr MIDDOT; CChr 45%N; CChr 42%N].

(** [[^\n]] *)
Definition notNL : atom := ASet true [CChr NL].

Lemma lineBullet_match (c : char) :
  atomMatch fl_gm lineBullet c = isLineBullet c.
Proof.
  unfold isLineBullet, oneOf, lineBullet.
  cbn [atomMatch itemMatch existsb ignoreCase fl_gm xorb]. reflexivity.
Qed.

Lemma lineBullet_not_space (c : char) :
  isLineBullet c = true -> isSpace c = false.
Proof.
  unfold isLineBullet, oneOf. cbn [existsb]. intros H.
  repeat (apply orb_prop in H; destruct H as [H|H]);
    try discriminate H; apply N.eqb_eq in H; subst c; reflexivity.
Qed.

Lemma space_match (c : char) : atomMatch fl_gm space c = isSpace c.
Proof. cbn [atomMatch itemMatch existsb space xorb]. now rewrite orb_false_r. Qed.

Lemma notNL_match (c : char) : atomMatch fl_gm notNL c = negb (N.eqb c NL).
Proof.
  cbn [atomMatch itemMatch existsb notNL xorb ignoreCase fl_gm].
  now rewrite orb_false_r.
Qed.

Lemma lineTerminator_space (c : char) :
  isLineTerminator c = true -> isSpace c = true.
Proof.
  unfold isLineTerminator, oneOf. cbn [existsb]. intros H.
  repeat (apply orb_prop in H; destruct H as [H|H]);
    try discriminate H; apply N.eqb_eq in H; subst c; reflexivity.
Qed.

(** The length of a run that ends before [x]. *)
Lemma runLen_exact (f : char -> bool) (w : str) (t : str) :
  Forall (fun c => f c = true) w ->
  headIs f t = false ->
  runLen f (w ++ t) = length w.
Proof.
  intros Hw Ht. induction Hw as [|c w Hc _ IH]; cbn [app runLen length].
  - destruct t as [|x t]; [reflexivity|]. cbn [headIs] in Ht. cbn [runLen].
    now rewrite Ht.
  - now rewrite Hc, IH.
Qed.

(** The first way to match ends at [rest]. *)
Definition firstEnds (fl : flags) (r : regex) (s rest : str) : Prop :=
  forall p, exists p' tl, run fl r p s = (p', rest) :: tl.

(** A greedy star followed by the rest of the pattern: the first match is
    that of the rest of the pattern after the longest run. *)
Lemma star_then (fl : flags) (a : atom) (r : regex) (w t rest : str) :
  Forall (fun c => atomMatch fl a c = true) w ->
  headIs (atomMatch fl a) t = false ->
  firstEnds fl r t rest ->
  firstEnds fl (Seq (star a) r) (w ++ t) rest.
Proof.
  intros Hw Ht Hr prev. rewrite run_Seq. unfold star.
  destruct (run_greedy_unbounded fl 0 a prev (w ++ t)) as [H1 _].
  destruct (H1 (Nat.le_0_l _)) as (p & tl1 & E). rewrite E.
  rewrite (runLen_exact _ w t Hw Ht), skipn_app, skipn_all, Nat.sub_diag.
  cbn [flat_map fst snd skipn app].
  destruct (Hr p) as (p' & tl & E'). rewrite E'.
  eexists _, _. reflexivity.
Qed.

Lemma one_then (fl : flags) (a : atom) (r : regex) (c : char) (t rest : str) :
  atomMatch fl a c = true ->
  firstEnds fl r t rest ->
  firstEnds fl (Seq (One a) r) (c :: t) rest.
Proof.
  intros Hc Hr prev. rewrite run_Seq. cbn [run]. rewrite Hc.
  cbn [flat_map fst snd]. rewrite app_nil_r. apply Hr.
Qed.

(** The bullet-line pattern, with its terms named. *)
Lemma re_bulletLine_terms :
  re_bulletLine
  = Seq Bol (Seq (star space) (Seq (One lineBullet)
        (Seq (star space) (Seq (star notNL) Eol)))).
Proof. reflexivity. Qed.

(** The match of the bullet-line pattern at the start of a bullet line:
    the whole line. *)
Lemma bulletLine_match (prev : option char) (ws ws2 body rest : str) (b c : char) :
  atBol fl_gm prev = true ->
  allSpace ws ->
  isLineBullet b = true ->
  allSpace ws2 ->
  isSpace c = false ->
  Forall (fun d => N.eqb d NL = false) body ->
  rest = [] \/ (exists r', rest = NL :: r') ->
  matchLen fl_gm re_bulletLine prev (ws ++ b :: ws2 ++ c :: body ++ rest)
  = Some (length (ws ++ b :: ws2 ++ c :: body)).
Proof.
  intros Hbol Hws Hb Hws2 Hc Hbody Hrest.
  assert (cNL : N.eqb c NL = false).
  { destruct (N.eqb_spec c NL) as [->|]; [discriminate Hc|reflexivity]. }
  assert (L5 : firstEnds fl_gm Eol rest rest).
  { intros p. destruct Hrest as [->|(r' & ->)]; eexists _, _; reflexivity. }
  assert (L4 : firstEnds fl_gm (Seq (star notNL) Eol) ((c :: body) ++ rest) rest).
  { apply star_then; [| |exact L5].
    - constructor; [rewrite notNL_match, cNL; reflexivity|].
      revert Hbody. apply Forall_impl. intros d Hd.
      now rewrite notNL_match, Hd.
    - destruct Hrest as [->|(r' & ->)]; [reflexivity|].
      cbn [headIs]. rewrite notNL_match. reflexivity. }
  assert (L3 : firstEnds fl_gm (Seq (star space) (Seq (star notNL) Eol))
                         (ws2 ++ (c :: body) ++ rest) rest).
  { apply star_then; [| |exact L4].
    - revert Hws2. apply Forall_impl. intros d Hd. now rewrite space_match.
    - cbn [app headIs]. now rewrite space_match. }
  assert (L2 : firstEnds fl_gm
                 (Seq (One lineBullet) (Seq (star space) (Seq (star notNL) Eol)))
                 (b :: ws2 ++ (c :: body) ++ rest) rest).
  { apply one_then; [now rewrite lineBullet_match|exact L3]. }
  assert (L1 : firstEnds fl_gm
                 (Seq (star space)
                      (Seq (One lineBullet) (Seq (star space) (Seq (star notNL) Eol))))
                 (ws ++ b :: ws2 ++ (c :: body) ++ rest) rest).
  { apply star_then; [| |exact L2].
    - revert Hws. apply Forall_impl. intros d Hd. now rewrite space_match.
    - cbn [headIs]. rewrite space_match. now apply lineBullet_not_space. }
  unfold matchLen. rewrite re_bulletLine_terms, run_Seq.
  change (run fl_gm Bol prev ?s) with (if atBol fl_gm prev then [(prev, s)] else []).
  rewrite Hbol. cbn [flat_map fst snd]. rewrite app_nil_r.
  destruct (L1 prev) as (p' & tl & E).
  change (ws ++ b :: ws2 ++ c :: body ++ rest)
    with (ws ++ b :: ws2 ++ (c :: body) ++ rest).
  rewrite E. f_equal.
  rewrite !length_app. cbn [length]. rewrite !length_app. cbn [length]. lia.
Qed.

(** The code unit before the position reached after [a]. *)
Definition lastOr (prev : option char) (a : str) : option char :=
  fold_left (fun _ c => Some c) a prev.

Lemma lastOr_app (prev : option char) (a b : str) :
  lastOr prev (a ++ b) = lastOr (lastOr prev a) b.
Proof. apply fold_left_app. Qed.

Section Copying.

Variable fl : flags.
Variable r : regex.
Variable repl : str -> str.

(** Where the pattern matches nowhere the text is copied. *)
Lemma replaceFrom_copied (a : str) :
  forall x prev,
    (forall a1 a2, a = a1 ++ a2 -> a2 <> [] ->
                   matchLen fl r (lastOr prev a1) (a2 ++ x) = None) ->
    replaceFrom fl r repl prev 0 (a ++ x)
    = a ++ replaceFrom fl r repl (lastOr prev a) 0 x.
Proof.
  induction a as [|c a IH]; intros x prev H; [reflexivity|].
  pose proof (H [] (c :: a) eq_refl ltac:(discriminate)) as M.
  cbn [app lastOr fold_left] in M. cbn [app replaceFrom]. rewrite M.
  f_equal. apply IH.
  intros a1 a2 -> Ha. apply (H (c :: a1) a2); [reflexivity|exact Ha].
Qed.

Lemma replaceFrom_passes (s : str) :
  forall k prev, k <= length s ->
    replaceFrom fl r repl prev k s
    = replaceFrom fl r repl (lastOr prev (firstn k s)) 0 (skipn k s).
Proof.
  induction s as [|c s IH]; intros k prev Hk.
  - cbn [length] in Hk. replace k with 0 by lia. reflexivity.
  - destruct k as [|k]; [reflexivity|].
    cbn [replaceFrom skipn firstn lastOr fold_left]. apply IH.
    cbn [length] in Hk. lia.
Qed.

(** At a match that is not empty the replacement is written and the
    search goes on after the match. *)
Lemma replaceFrom_matched (s : str) (prev : option char) (k : nat) :
  matchLen fl r prev s = Some k -> 0 < k -> k <= length s ->
  replaceFrom fl r repl prev 0 s
  = repl (firstn k s)
    ++ replaceFrom fl r repl (lastOr prev (firstn k s)) 0 (skipn k s).
Proof.
  intros M Hk Hl. destruct k as [|n]; [lia|].
  destruct s as [|c s]; [cbn [length] in Hl; lia|].
  cbn [replaceFrom]. rewrite M. f_equal.
  cbn [length] in Hl. rewrite replaceFrom_passes by lia. reflexivity.
Qed.

End Copying.

(** Before a code unit that [f] rejects a run of [f] stops. *)
Lemma reps_before (f : char -> bool) (z : char) (t : str) :
  f z = false ->
  forall u hi prev st,
    In st (reps f hi prev (u ++ z :: t)) ->
    exists u1 u2, u = u1 ++ u2 /\ snd st = u2 ++ z :: t.
Proof.
  intros Hz. induction u as [|c u IH]; intros hi prev st H.
  - cbn [app reps] in H. rewrite Hz in H. destruct H as [<-|[]].
    now exists [], [].
  - cbn [app reps] in H. destruct H as [<-|H].
    + now exists [], (c :: u).
    + assert (G : exists u1 u2, u = u1 ++ u2 /\ snd st = u2 ++ z :: t).
      { destruct (f c); [|destruct H].
        destruct hi as [[|h]|]; [destruct H|now apply IH in H|now apply IH in H]. }
      destruct G as (u1 & u2 & -> & E). now exists (c :: u1), u2.
Qed.

(** The text before the line: empty, or ending with a newline that follows
    a visible code unit. *)
Definition lineStart (a : str) : Prop :=
  a = [] \/ exists a0 z, a = a0 ++ [z; NL] /\ isSpace z = false.

Lemma lineStart_bol (a : str) : lineStart a -> atBol fl_gm (lastOr None a) = true.
Proof.
  intros [->|(a0 & z & -> & _)]; [reflexivity|].
  rewrite lastOr_app. reflexivity.
Qed.

End BulletFacts.


(** ** Where the chunks of a long paragraph begin *)

Module ChunkFacts.
Import JS Regex Discussion JSFacts RegexFacts RenderFacts FormatFacts.

Unset Implicit Arguments.

Section Chunking.

Variable toUpperCase : str -> str.

(** The test of line 302. *)
Definition flushes (sentence currentChunk : str) : bool :=
  negb (isEmpty currentChunk)
  && ((350 <? length (currentChunk ++ [SP] ++ sentence))
      || shouldStartNewParagraph toUpperCase sentence currentChunk).

(** The chunks pushed from a loop state on, the final push included. *)
Definition chunksFrom (l : list str) (cur : str) : list str :=
  pushIfAny (fst (chunkLoop toUpperCase l [] cur))
            (snd (chunkLoop toUpperCase l [] cur)).

Lemma chunkLoop_acc (l : list str) :
  forall ps cur,
    chunkLoop toUpperCase l ps cur
    = (ps ++ fst (chunkLoop toUpperCase l [] cur),
       snd (chunkLoop toUpperCase l [] cur)).
Proof.
  induction l as [|raw rest IH]; intros ps cur; cbn [chunkLoop].
  - cbn [fst snd]. now rewrite app_nil_r.
  - destruct (nextSentence raw rest) as [s|]; [|apply IH].
    fold (flushes s cur). destruct (flushes s cur).
    + rewrite (IH (pushTrimmed ps cur)), (IH (pushTrimmed [] cur)).
      cbn [fst snd]. unfold pushTrimmed. cbn [app]. now rewrite <- app_assoc.
    + apply IH.
Qed.

Lemma chunksFrom_cons (raw : str) (rest : list str) (cur : str) :
  chunksFrom (raw :: rest) cur
  = match nextSentence raw rest with
    | None => chunksFrom rest cur
    | Some s =>
        if flushes s cur then trim cur :: chunksFrom rest s
        else chunksFrom rest (append cur s)
    end.
Proof.
  unfold chunksFrom. cbn [chunkLoop].
  destruct (nextSentence raw rest) as [s|]; [|reflexivity].
  fold (flushes s cur). destruct (flushes s cur); [|reflexivity].
  rewrite chunkLoop_acc. cbn [fst snd]. unfold pushTrimmed. cbn [app].
  rewrite pushIfAny_app. cbn [app]. f_equal. symmetry. apply pushIfAny_app.
Qed.

Lemma longParagraphChunks_from (p : str) :
  longParagraphChunks toUpperCase p = chunksFrom (splitSentences p) [].
Proof.
  unfold longParagraphChunks, chunksFrom.
  destruct (chunkLoop toUpperCase (splitSentences p) [] []). reflexivity.
Qed.

(** A chunk that begins with [s] is pushed beginning with [s]. *)
Lemma chunksFrom_open (s : str) (l : list str) :
  goodSentence s ->
  forall x, exists P C,
    chunksFrom l (s ++ x) = P :: C /\ startsWith P s = true.
Proof.
  intros Hs. induction l as [|raw l IH]; intros x.
  - unfold chunksFrom. cbn [chunkLoop fst snd].
    destruct (pushIfAny_good s x Hs) as (y & ->).
    exists (s ++ y), []. split; [reflexivity|apply startsWith_app].
  - rewrite chunksFrom_cons.
    destruct (nextSentence raw l) as [s'|]; [|apply IH].
    assert (Hne : isEmpty (s ++ x) = false).
    { destruct Hs as (Hne & _). destruct s; [contradiction|reflexivity]. }
    destruct (flushes s' (s ++ x)).
    + destruct Hs as (Hne' & Hends & _).
      destruct (trim_keep s Hends Hne' x) as (y & ->).
      eexists _, _. split; [reflexivity|apply startsWith_app].
    + assert (E : append (s ++ x) s' = s ++ (x ++ [SP] ++ s')).
      { unfold append. rewrite Hne. now rewrite <- app_assoc. }
      rewrite E. apply IH.
Qed.

Lemma chunksFrom_app (pre rest : list str) :
  rest <> [] ->
  forall cur, exists A cur',
    chunksFrom (pre ++ rest) cur = A ++ chunksFrom rest cur'.
Proof.
  intros Hrest. induction pre as [|raw pre IH]; intros cur.
  - now exists [], cur.
  - cbn [app]. rewrite chunksFrom_cons.
    destruct (nextSentence raw (pre ++ rest)) as [s|]; [|apply IH].
    destruct (flushes s cur).
    + destruct (IH s) as (A & cur' & ->). now exists (trim cur :: A), cur'.
    + apply IH.
Qed.

End Chunking.

(** X23: in a long paragraph every sentence that the keyword test sets off
    begins a chunk of its own: the chunk open before it is closed, and the
    chunk pushed next begins with that sentence. *)
Theorem chunk_starts_at_keyword (toUpperCase : str -> str) (p : str)
        (pre post : list str) (raw s : str) :
  splitSentences p = pre ++ raw :: post ->
  nextSentence raw post = Some s ->
  keywordStart toUpperCase s ->
  exists A P C,
    longParagraphChunks toUpperCase p = A ++ P :: C
    /\ startsWith P s = true.
Proof.
  intros Hsplit N K.
  assert (Hs : goodSentence s).
  { pose proof (splitSentences_pieces p) as Hp. rewrite Hsplit in Hp.
    apply Forall_app in Hp. destruct Hp as [_ Hp].
    inversion Hp as [|? ? Hraw _]; subst.
    exact (proj1 (nextSentence_spec raw post s Hraw N)). }
  rewrite longParagraphChunks_from, Hsplit.
  destruct (chunksFrom_app toUpperCase pre (raw :: post) ltac:(discriminate) [])
    as (A & cur & ->).
  rewrite chunksFrom_cons, N.
  destruct (chunksFrom_open toUpperCase s post Hs []) as (P & C & E & HP).
  rewrite app_nil_r in E.
  destruct (flushes toUpperCase s cur) eqn:F.
  - exists (A ++ [trim cur]), P, C. rewrite E, <- app_assoc. now split.
  - assert (Ec : cur = []).
    { unfold flushes in F. destruct cur as [|c cur']; [reflexivity|].
      cbn [isEmpty negb andb] in F. rewrite (K (c :: cur')) in F by discriminate.
      rewrite orb_true_r in F. discriminate F. }
    subst cur. change (append [] s) with s. rewrite E.
    exists A, P, C. now split.
Qed.

Definition outlookSample : str := lit "Rain ends. OUTLOOK. Dry weather".

Lemma chunk_starts_at_keyword_witness :
  exists A P C,
    longParagraphChunks toUpperCaseLatin outlookSample = A ++ P :: C
    /\ startsWith P (lit "OUTLOOK.") = true.
Proof.
  assert (H1 : splitSentences outlookSample
               = [lit "Rain ends"] ++ lit "OUTLOOK" :: [lit "Dry weather"])
    by (vm_compute; reflexivity).
  assert (H2 : keywordStart toUpperCaseLatin (lit "OUTLOOK.")).
  { apply (keywordStart_intro toUpperCaseLatin (lit "OUTLOOK"));
      [exact keepsKeywords_latin| |reflexivity].
    unfold newSectionKeywords. apply in_map.
    repeat (try (left; reflexivity); right). }
  exact (chunk_starts_at_keyword toUpperCaseLatin outlookSample
           [lit "Rain ends"] [lit "Dry weather"] (lit "OUTLOOK") (lit "OUTLOOK.")
           H1 eq_refl H2).
Defined.

End ChunkFacts.


(** ** Cleaning a cleaned text *)

Module IdempotenceFacts.
Import JS Regex Discussion JSFacts RegexFacts RenderFacts FormatFacts.
Import CleanFacts BoilerplateFacts BulletFacts.

Unset Implicit Arguments.

(** *** The states a pattern can end in *)

Lemma flat_map_nonempty (A B : Type) (f : A -> list B) (l : list A) (x : A) :
  In x l -> f x <> [] -> flat_map f l <> [].
Proof.
  intros Hx Hf E. apply Hf.
  destruct (f x) as [|y ys] eqn:F; [reflexivity|].
  assert (H : In y (flat_map f l)).
  { apply in_flat_map. exists x. split; [exact Hx|]. rewrite F. now left. }
  rewrite E in H. destruct H.
Qed.

Lemma matchLen_None (fl : flags) (r : regex) (prev : option char) (s : str) :
  matchLen fl r prev s = None <-> run fl r prev s = [].
Proof.
  unfold matchLen. destruct (run fl r prev s) as [|[p rest] tl].
  - tauto.
  - split; discriminate.
Qed.

(** The state of the match that is reported. *)
Lemma matchLen_state (fl : flags) (r : regex) (prev : option char) (s : str)
      (k : nat) :
  matchLen fl r prev s = Some k ->
  exists p, In (p, skipn k s) (run fl r prev s) /\ k <= length s.
Proof.
  intros M. pose proof (matchLen_le fl r prev s M) as Hk. revert M.
  unfold matchLen. destruct (run fl r prev s) as [|[p rest] tl] eqn:R;
    [discriminate|].
  intros [= <-]. exists p. split; [|exact Hk].
  destruct (run_suffix fl r prev s (p, rest)) as (a & E).
  { rewrite R. now left. }
  cbn [snd] in E. rewrite E at 1.
  rewrite E, length_app, Nat.add_sub, skipn_app, skipn_all, Nat.sub_diag.
  cbn [skipn app]. now left.
Qed.

(** What holds of every state [r2] ends in holds of every state
    [Seq r1 r2] ends in. *)
Lemma run_Seq_final (fl : flags) (r1 r2 : regex) (P : state -> Prop) :
  (forall prev s st, In st (run fl r2 prev s) -> P st) ->
  forall prev s st, In st (run fl (Seq r1 r2) prev s) -> P st.
Proof.
  intros H prev s st Hst. rewrite run_Seq in Hst.
  apply in_flat_map in Hst. destruct Hst as (st1 & _ & H2). exact (H _ _ _ H2).
Qed.

Lemma run_Eol_final (fl : flags) (prev : option char) (s : str) (st : state) :
  In st (run fl Eol prev s) -> atEol fl (snd st) = true.
Proof.
  cbn [run]. destruct (atEol fl s) eqn:E; [|contradiction].
  intros [<-|[]]. exact E.
Qed.

Lemma run_Ahead_final (fl : flags) (r : regex) (prev : option char) (s : str)
      (st : state) :
  In st (run fl (Ahead r) prev s) ->
  run fl (Ahead r) (fst st) (snd st) <> [].
Proof.
  intros H. assert (E : st = (prev, s)).
  { cbn [run] in H. destruct (run fl r prev s); [contradiction|].
    destruct H as [<-|[]]. reflexivity. }
  subst st. cbn [fst snd]. intros K. rewrite K in H. destruct H.
Qed.

(** Patterns that take at least one code unit. *)
Definition consumes (fl : flags) (r : regex) : Prop :=
  forall prev s st, In st (run fl r prev s) -> length (snd st) < length s.

Lemma consumes_One (fl : flags) (a : atom) (r : regex) :
  consumes fl (Seq (One a) r).
Proof.
  intros prev s st H. rewrite run_Seq in H. apply in_flat_map in H.
  destruct H as (st1 & H1 & H2). cbn [run] in H1.
  destruct s as [|c s]; [contradiction|].
  destruct (atomMatch fl a c); [|contradiction]. destruct H1 as [<-|[]].
  cbn [fst snd] in H2. destruct (run_suffix fl r _ _ _ H2) as (x & E).
  rewrite E. cbn [length]. rewrite length_app. lia.
Qed.

Lemma consumes_Seq_r (fl : flags) (r1 r2 : regex) :
  consumes fl r2 -> consumes fl (Seq r1 r2).
Proof.
  intros C prev s st H. rewrite run_Seq in H. apply in_flat_map in H.
  destruct H as (st1 & H1 & H2).
  destruct (run_suffix fl r1 _ _ _ H1) as (x & E).
  specialize (C _ _ _ H2). rewrite E, length_app. lia.
Qed.

Lemma consumes_Seq_l (fl : flags) (r1 r2 : regex) :
  consumes fl r1 -> consumes fl (Seq r1 r2).
Proof.
  intros C prev s st H. rewrite run_Seq in H. apply in_flat_map in H.
  destruct H as (st1 & H1 & H2).
  destruct (run_suffix fl r2 _ _ _ H2) as (x & E).
  specialize (C _ _ _ H1). rewrite E, length_app in C. lia.
Qed.

Lemma consumes_positive (fl : flags) (r : regex) :
  consumes fl r -> forall prev s, matchLen fl r prev s <> Some 0.
Proof.
  intros C prev s M. destruct (matchLen_state fl r prev s 0 M) as (p & H & _).
  specialize (C _ _ _ H). cbn [snd skipn] in C. lia.
Qed.

Lemma bulletLine_positive (prev : option char) (s : str) :
  matchLen fl_gm re_bulletLine prev s <> Some 0.
Proof.
  apply consumes_positive. rewrite re_bulletLine_terms.
  apply consumes_Seq_r, consumes_Seq_r, consumes_One.
Qed.

Lemma bullet_positive (prev : option char) (s : str) :
  matchLen fl_g re_bullet prev s <> Some 0.
Proof.
  apply consumes_positive. unfold re_bullet. cbn [seqs].
  apply consumes_Seq_r, consumes_One.
Qed.

Lemma usagov_positive (prev : option char) (s : str) :
  matchLen fl_gis re_usagov prev s <> Some 0.
Proof.
  apply consumes_positive. unfold re_usagov. cbn [seqs].
  apply consumes_Seq_l. unfold word. apply consumes_One.
Qed.

(** The states of a repetition are reached over code units it accepts. *)
Lemma reps_prefix (f : char -> bool) (s : str) :
  forall hi prev st, In st (reps f hi prev s) ->
    exists u, s = u ++ snd st /\ Forall (fun c => f c = true) u.
Proof.
  induction s as [|c s IH]; intros hi prev st; cbn [reps].
  - intros [<-|[]]. now exists [].
  - intros [<-|H]; [now exists []|].
    destruct (f c) eqn:Fc; [|contradiction].
    assert (G : exists u, s = u ++ snd st /\ Forall (fun c => f c = true) u).
    { destruct hi as [[|h]|]; [contradiction|now apply IH in H|now apply IH in H]. }
    destruct G as (u & -> & Hu). exists (c :: u). split; [reflexivity|].
    now constructor.
Qed.

Lemma star_prefix (fl : flags) (a : atom) (prev : option char) (s : str)
      (st : state) :
  In st (run fl (star a) prev s) ->
  exists u, s = u ++ snd st /\ Forall (fun c => atomMatch fl a c = true) u.
Proof.
  unfold star. cbn [run skipn]. intros H. apply in_rev in H.
  exact (reps_prefix _ _ _ _ _ H).
Qed.

Lemma star_zero (fl : flags) (a : atom) (prev : option char) (s : str) :
  In (prev, s) (run fl (star a) prev s).
Proof.
  unfold star. cbn [run skipn]. apply in_rev. rewrite rev_involutive.
  destruct s; cbn [reps]; now left.
Qed.

(** *** Replacing by a fixed text, position by position *)

Section FixedText.

Variable fl : flags.
Variable r : regex.
Variable sep : str.
Hypothesis positive : forall prev s, matchLen fl r prev s <> Some 0.

Definition rep (prev : option char) (s : str) : str :=
  replaceFrom fl r (const sep) prev 0 s.

Lemma rep_nil (prev : option char) : rep prev [] = [].
Proof.
  unfold rep. cbn [replaceFrom].
  destruct (matchLen fl r prev []) as [[|n]|] eqn:M; [| |reflexivity].
  - now apply positive in M.
  - apply matchLen_le in M. cbn [length] in M. lia.
Qed.

Lemma rep_copy (prev : option char) (c : char) (s : str) :
  matchLen fl r prev (c :: s) = None -> rep prev (c :: s) = c :: rep (Some c) s.
Proof. intros M. unfold rep. cbn [replaceFrom]. now rewrite M. Qed.

Lemma rep_match (prev : option char) (s : str) (k : nat) :
  matchLen fl r prev s = Some k ->
  rep prev s = sep ++ rep (lastOr prev (firstn k s)) (skipn k s).
Proof.
  intros M. pose proof (matchLen_le fl r prev s M) as Hl.
  assert (Hk : 0 < k).
  { destruct k; [now apply positive in M|lia]. }
  unfold rep. now rewrite (replaceFrom_matched fl r (const sep) s prev k M Hk Hl).
Qed.

(** Induction along the scan. *)
Lemma rep_ind (Q : option char -> str -> str -> Prop) :
  (forall prev, Q prev [] []) ->
  (forall prev c s,
      matchLen fl r prev (c :: s) = None ->
      Q (Some c) s (rep (Some c) s) ->
      Q prev (c :: s) (c :: rep (Some c) s)) ->
  (forall prev s k,
      matchLen fl r prev s = Some k -> 0 < k -> k <= length s ->
      Q (lastOr prev (firstn k s)) (skipn k s)
        (rep (lastOr prev (firstn k s)) (skipn k s)) ->
      Q prev s (sep ++ rep (lastOr prev (firstn k s)) (skipn k s))) ->
  forall s prev, Q prev s (rep prev s).
Proof.
  intros Hnil Hcopy Hmatch s.
  assert (H : forall n s, length s <= n -> forall prev, Q prev s (rep prev s)).
  { clear s. induction n as [|n IH]; intros s Hn prev.
    - destruct s; [|cbn [length] in Hn; lia]. rewrite rep_nil. apply Hnil.
    - destruct s as [|c s]; [rewrite rep_nil; apply Hnil|].
      destruct (matchLen fl r prev (c :: s)) as [k|] eqn:M.
      + pose proof (matchLen_le fl r prev (c :: s) M) as Hl.
        assert (Hk : 0 < k).
        { destruct k; [now apply positive in M|lia]. }
        rewrite (rep_match _ _ _ M). apply (Hmatch _ _ _ M Hk Hl).
        apply IH. rewrite length_skipn. cbn [length] in *. lia.
      + rewrite (rep_copy _ _ _ M). apply (Hcopy _ _ _ M). apply IH.
        cbn [length] in Hn. lia. }
  intros prev. apply (H (length s)). lia.
Qed.

End FixedText.

(** *** Lines that begin with a bullet *)

(** Whether only white space has been read since the line began. *)
Definition nextStart (atStart : bool) (c : char) : bool :=
  isLineTerminator c || (atStart && isSpace c).

Definition startAfter (atStart : bool) (s : str) : bool :=
  fold_left nextStart s atStart.

(** Reading [s] from a place that is, or is not, at the start of a line
    white space aside: no bullet of the bullet-line pattern comes first on
    a line. *)
Fixpoint noBulletLine (atStart : bool) (s : str) : bool :=
  match s with
  | [] => true
  | c :: s' =>
      negb (atStart && isLineBullet c) && noBulletLine (nextStart atStart c) s'
  end.

Lemma startAfter_app (b : bool) (x y : str) :
  startAfter b (x ++ y) = startAfter (startAfter b x) y.
Proof. apply fold_left_app. Qed.

Lemma noBulletLine_app (x : str) :
  forall b y,
    noBulletLine b (x ++ y)
    = noBulletLine b x && noBulletLine (startAfter b x) y.
Proof.
  induction x as [|c x IH]; intros b y; [reflexivity|].
  cbn [app noBulletLine]. rewrite IH, andb_assoc. reflexivity.
Qed.

Lemma nextStart_mono (b1 b2 : bool) (c : char) :
  (b1 = true -> b2 = true) -> nextStart b1 c = true -> nextStart b2 c = true.
Proof.
  unfold nextStart. intros H. destruct (isLineTerminator c); [auto|].
  cbn [orb]. destruct b1; [|discriminate]. now rewrite H.
Qed.

Lemma startAfter_space (w : str) : allSpace w -> startAfter true w = true.
Proof.
  induction 1 as [|c w Hc _ IH]; [reflexivity|].
  cbn [startAfter fold_left]. unfold nextStart at 2. rewrite Hc.
  cbn [andb]. rewrite orb_true_r. exact IH.
Qed.

Lemma startAfter_newline (b : bool) (c : char) (w : str) :
  isLineTerminator c = true -> allSpace w -> startAfter b (c :: w) = true.
Proof.
  intros Hc Hw. cbn [startAfter fold_left]. unfold nextStart at 2. rewrite Hc.
  now apply startAfter_space.
Qed.

Lemma space_not_lineBullet (c : char) : isSpace c = true -> isLineBullet c = false.
Proof.
  intros H. destruct (isLineBullet c) eqn:E; [|reflexivity].
  apply lineBullet_not_space in E. rewrite E in H. discriminate H.
Qed.

Lemma noBulletLine_space (w : str) :
  allSpace w -> forall b, noBulletLine b w = true.
Proof.
  induction 1 as [|c w Hc _ IH]; intros b; [reflexivity|].
  cbn [noBulletLine]. rewrite (space_not_lineBullet c Hc), andb_false_r.
  apply IH.
Qed.

(** At the start of a line the reading is at the start of a line. *)
Lemma atBol_startAfter (a : str) :
  atBol fl_gm (lastOr None a) = true -> startAfter true a = true.
Proof.
  destruct (nil_or_snoc a) as [->|(a' & z & ->)]; [reflexivity|].
  rewrite lastOr_app, startAfter_app. cbn [lastOr fold_left atBol startAfter].
  cbn [multiline fl_gm andb]. intros T. unfold nextStart. now rewrite T.
Qed.

(** Where no bullet comes first on a line the bullet-line pattern finds
    nothing. *)
Lemma bulletLine_none (prev : option char) (s : str) :
  (atBol fl_gm prev = true -> noBulletLine true s = true) ->
  matchLen fl_gm re_bulletLine prev s = None.
Proof.
  intros H. apply matchLen_None. rewrite re_bulletLine_terms, run_Seq.
  change (run fl_gm Bol prev s) with (if atBol fl_gm prev then [(prev, s)] else []).
  destruct (atBol fl_gm prev); [|reflexivity]. specialize (H eq_refl).
  cbn [flat_map fst snd]. rewrite app_nil_r, run_Seq.
  apply flat_map_all_nil. intros st Hst.
  destruct (star_prefix _ _ _ _ _ Hst) as (u & E & Hu).
  rewrite E, noBulletLine_app in H. apply andb_prop in H. destruct H as [_ H].
  rewrite startAfter_space in H.
  2:{ revert Hu. apply Forall_impl. intros c. now rewrite space_match. }
  rewrite run_Seq. cbn [run]. destruct (snd st) as [|d rest]; [reflexivity|].
  cbn [noBulletLine andb] in H. apply andb_prop in H. destruct H as [H _].
  rewrite lineBullet_match. destruct (isLineBullet d); [discriminate H|reflexivity].
Qed.

Lemma noBulletLine_noop (t : str) :
  noBulletLine true t = true ->
  replaceAll fl_gm re_bulletLine (const []) t = t.
Proof.
  intros H. unfold replaceAll.
  assert (M : forall a1 a2, t = a1 ++ a2 ->
                matchLen fl_gm re_bulletLine (lastOr None a1) a2 = None).
  { intros a1 a2 E. apply bulletLine_none. intros B.
    rewrite E, noBulletLine_app in H. apply andb_prop in H. destruct H as [_ H].
    now rewrite (atBol_startAfter a1 B) in H. }
  rewrite <- (app_nil_r t) at 1. rewrite replaceFrom_copied.
  - cbn [replaceFrom]. rewrite (M t []) by (now rewrite app_nil_r).
    apply app_nil_r.
  - intros a1 a2 E _. rewrite app_nil_r. now apply M.
Qed.

(** The rest of the pattern, after the bullet, always finds a line end. *)
Lemma bulletLine_tail (prev : option char) (t : str) :
  run fl_gm (Seq (star space) (Seq (star notNL) Eol)) prev t <> [].
Proof.
  rewrite run_Seq. apply (flat_map_nonempty _ _ _ _ (prev, t)); [apply star_zero|].
  cbn [fst snd]. rewrite run_Seq.
  destruct (run_greedy_unbounded fl_gm 0 notNL prev t) as [H1 _].
  destruct (H1 (Nat.le_0_l _)) as (p & tl & E).
  unfold star. rewrite E. cbn [flat_map fst snd].
  pose proof (headIs_after_run (atomMatch fl_gm notNL) t) as Hh.
  assert (A : atEol fl_gm (skipn (runLen (atomMatch fl_gm notNL) t) t) = true).
  { destruct (skipn (runLen (atomMatch fl_gm notNL) t) t) as [|d rest];
      [reflexivity|].
    cbn [headIs] in Hh. rewrite notNL_match in Hh.
    destruct (N.eqb_spec d NL) as [->|]; [reflexivity|discriminate Hh]. }
  cbn [run]. rewrite A. discriminate.
Qed.

(** At the start of a line, white space and then a bullet: the pattern
    matches. *)
Lemma bulletLine_hits (prev : option char) (w : str) (c : char) (t : str) :
  atBol fl_gm prev = true ->
  allSpace w ->
  isLineBullet c = true ->
  matchLen fl_gm re_bulletLine prev (w ++ c :: t) <> None.
Proof.
  intros B Hw Hc M. apply matchLen_None in M. revert M.
  rewrite re_bulletLine_terms, run_Seq.
  change (run fl_gm Bol prev ?s) with (if atBol fl_gm prev then [(prev, s)] else []).
  rewrite B. cbn [flat_map fst snd]. rewrite app_nil_r, run_Seq.
  destruct (run_greedy_unbounded fl_gm 0 space prev (w ++ c :: t)) as [H1 _].
  destruct (H1 (Nat.le_0_l _)) as (p & tl & E).
  rewrite (runLen_exact _ w (c :: t)) in E.
  2:{ revert Hw. apply Forall_impl. intros d. now rewrite space_match. }
  2:{ cbn [headIs]. rewrite space_match. now apply lineBullet_not_space. }
  rewrite skipn_app, skipn_all, Nat.sub_diag in E. cbn [skipn app] in E.
  unfold star. rewrite E. cbn [flat_map fst snd]. rewrite run_Seq.
  change (run fl_gm (One lineBullet) p (c :: t))
    with (if atomMatch fl_gm lineBullet c then [(Some c, t)] else []).
  rewrite lineBullet_match, Hc. cbn [flat_map fst snd]. rewrite app_nil_r.
  intros K. apply app_eq_nil in K. destruct K as [K _].
  exact (bulletLine_tail (Some c) t K).
Qed.

(** A match of the bullet-line pattern ends at the end of a line. *)
Lemma bulletLine_ends (prev : option char) (s : str) (k : nat) :
  matchLen fl_gm re_bulletLine prev s = Some k ->
  atEol fl_gm (skipn k s) = true.
Proof.
  intros M. destruct (matchLen_state _ _ _ _ _ M) as (p & H & _).
  rewrite re_bulletLine_terms in H.
  revert H.
  apply (run_Seq_final fl_gm Bol _ (fun st => atEol fl_gm (snd st) = true)).
  do 4 (apply run_Seq_final). intros q x st. apply run_Eol_final.
Qed.

(** After the bullet lines have been removed no bullet comes first on a
    line. *)
Lemma bulletLine_cleared (t : str) :
  noBulletLine true (replaceAll fl_gm re_bulletLine (const []) t) = true.
Proof.
  set (inv := fun (b : bool) (prev : option char) (s : str) =>
                b = true ->
                atBol fl_gm prev = true
                \/ (exists prevL w,
                       atBol fl_gm prevL = true /\ allSpace w
                       /\ matchLen fl_gm re_bulletLine prevL (w ++ s) = None)
                \/ atEol fl_gm s = true).
  assert (H : forall s prev b,
             inv b prev s ->
             noBulletLine b (rep fl_gm re_bulletLine [] prev s) = true).
  { intros s prev.
    apply (rep_ind fl_gm re_bulletLine [] bulletLine_positive
             (fun prev s o => forall b, inv b prev s -> noBulletLine b o = true)).
    - reflexivity.
    - clear s prev. intros prev c s M IH b Hb. cbn [noBulletLine].
      apply andb_true_intro. split.
      + destruct b; [|reflexivity]. destruct (isLineBullet c) eqn:L; [|reflexivity].
        exfalso. destruct (Hb eq_refl) as [B|[(pL & w & B & W & Mp)|E]].
        * exact (bulletLine_hits prev [] c s B (Forall_nil _) L M).
        * exact (bulletLine_hits pL w c s B W L Mp).
        * cbn [atEol multiline fl_gm andb] in E.
          apply lineTerminator_space in E.
          apply lineBullet_not_space in L. rewrite L in E. discriminate E.
      + apply IH. intros Hn. unfold nextStart in Hn.
        destruct (isLineTerminator c) eqn:T.
        * left. cbn [atBol multiline fl_gm andb]. exact T.
        * cbn [orb] in Hn. apply andb_prop in Hn. destruct Hn as [-> Hc].
          right. left. destruct (Hb eq_refl) as [B|[(pL & w & B & W & Mp)|E]].
          -- exists prev, [c]. split; [exact B|]. split; [|exact M].
             now repeat constructor.
          -- exists pL, (w ++ [c]). split; [exact B|]. split.
             ++ apply Forall_app. split; [exact W|now repeat constructor].
             ++ now rewrite <- app_assoc.
          -- cbn [atEol multiline fl_gm andb] in E. rewrite T in E. discriminate E.
    - clear s prev. intros prev s k M Hk Hl IH b Hb. cbn [app].
      apply IH. intros _. right. right. exact (bulletLine_ends prev s k M). }
  apply (H t None true). intros _. now left.
Qed.

(** *** Steps that keep the lines free of leading bullets *)

Section KeepsLines.

Variable fl : flags.
Variable r : regex.
Variable sep : str.
Hypothesis positive : forall prev s, matchLen fl r prev s <> Some 0.

(** What is known of the text that is scanned. *)
Variable good : str -> Prop.
Hypothesis good_suffix : forall a s, good (a ++ s) -> good s.

(** At a match the replacement brings no bullet to the start of a line,
    and does not leave the reading at the start of a line unless the
    matched text did. *)
Hypothesis at_match :
  forall prev s k,
    matchLen fl r prev s = Some k -> good s ->
    forall bIn bOut,
      (bOut = true -> bIn = true) ->
      noBulletLine bIn s = true ->
      noBulletLine bOut sep = true
      /\ (startAfter bOut sep = true -> startAfter bIn (firstn k s) = true).

Lemma rep_noBulletLine (s : str) (prev : option char) :
  forall bIn bOut,
    good s ->
    (bOut = true -> bIn = true) ->
    noBulletLine bIn s = true ->
    noBulletLine bOut (rep fl r sep prev s) = true.
Proof.
  apply (rep_ind fl r sep positive
           (fun prev s o => forall bIn bOut,
                good s -> (bOut = true -> bIn = true) ->
                noBulletLine bIn s = true -> noBulletLine bOut o = true)).
  - reflexivity.
  - clear s prev. intros prev c s M IH bIn bOut G Hb H.
    cbn [noBulletLine] in *. apply andb_prop in H. destruct H as [H1 H2].
    apply andb_true_intro. split.
    + destruct bOut; [|reflexivity]. now rewrite Hb in H1.
    + apply (IH (nextStart bIn c)); [exact (good_suffix [c] s G)| |exact H2].
      now apply nextStart_mono.
  - clear s prev. intros prev s k M Hk Hl IH bIn bOut G Hb H.
    destruct (at_match prev s k M G bIn bOut Hb H) as [A1 A2].
    rewrite noBulletLine_app, A1. cbn [andb].
    apply (IH (startAfter bIn (firstn k s))); [|exact A2|].
    + apply (good_suffix (firstn k s)). now rewrite firstn_skipn.
    + rewrite <- (firstn_skipn k s), noBulletLine_app in H.
      apply andb_prop in H. apply H.
Qed.

End KeepsLines.

(** The two squares of the pattern of line 127, which the bullet-line
    pattern does not have. *)
Definition isSquare (c : char) : bool :=
  N.eqb c SMALL_SQUARE || N.eqb c WHITE_SQUARE.

Definition noSquares (t : str) : Prop := Forall (fun c => isSquare c = false) t.

Lemma inlineBullet_match (c : char) :
  atomMatch fl_g
    (ASet false [CChr BULLET; CChr MIDDOT; CChr SMALL_SQUARE; CChr WHITE_SQUARE]) c
  = isInlineBullet c.
Proof.
  unfold isInlineBullet, oneOf.
  cbn [atomMatch itemMatch existsb ignoreCase fl_g xorb]. reflexivity.
Qed.

(** A match of the pattern of line 127 begins with white space, or none,
    and one of its four bullets. *)
Lemma bullet_shape (prev : option char) (s : str) (k : nat) :
  matchLen fl_g re_bullet prev s = Some k ->
  exists w x rest,
    s = w ++ x :: rest /\ allSpace w /\ isInlineBullet x = true.
Proof.
  intros M. destruct (matchLen_state _ _ _ _ _ M) as (p & H & _).
  unfold re_bullet in H. cbn [seqs] in H. rewrite run_Seq in H.
  apply in_flat_map in H. destruct H as (st1 & H1 & H2).
  destruct (star_prefix _ _ _ _ _ H1) as (w & E & Hw).
  rewrite run_Seq in H2. apply in_flat_map in H2. destruct H2 as (st2 & H2 & _).
  cbn [run] in H2. destruct (snd st1) as [|x rest]; [contradiction|].
  rewrite inlineBullet_match in H2.
  destruct (isInlineBullet x) eqn:X; [|contradiction].
  exists w, x, rest. split; [exact E|]. split; [|exact X].
  revert Hw. apply Forall_impl. intros c. now rewrite atomMatch_space.
Qed.

Lemma inline_not_square (x : char) :
  isInlineBullet x = true -> isSquare x = false -> isLineBullet x = true.
Proof.
  unfold isInlineBullet, isSquare, isLineBullet, oneOf. cbn [existsb].
  intros H K. apply orb_false_elim in K. destruct K as [K1 K2].
  rewrite K1, K2 in H. cbn [orb] in H.
  destruct (N.eqb x BULLET); [reflexivity|].
  destruct (N.eqb x MIDDOT); [reflexivity|discriminate H].
Qed.

(** Without the squares, replacing the bullets of line 127 by a space
    brings no bullet to the start of a line. *)
Lemma bullet_keeps_lines (t : str) :
  noSquares t ->
  noBulletLine true t = true ->
  noBulletLine true (replaceAll fl_g re_bullet (const [SP]) t) = true.
Proof.
  intros Hs H.
  apply (rep_noBulletLine fl_g re_bullet [SP] bullet_positive noSquares)
    with (bIn := true); auto.
  - intros a s K. apply Forall_app in K. apply K.
  - intros prev s k M G bIn bOut Hb K.
    destruct (bullet_shape prev s k M) as (w & x & rest & -> & Hw & Hx).
    assert (Lx : isLineBullet x = true).
    { apply inline_not_square; [exact Hx|].
      apply Forall_app in G. destruct G as [_ G]. now inversion G. }
    assert (B : bIn = false).
    { destruct bIn; [|reflexivity].
      rewrite noBulletLine_app, (startAfter_space w Hw) in K.
      apply andb_prop in K. destruct K as [_ K].
      cbn [noBulletLine] in K. rewrite Lx in K. discriminate K. }
    assert (B' : bOut = false).
    { destruct bOut; [|reflexivity]. rewrite Hb in B by reflexivity.
      discriminate B. }
    subst bIn bOut. split; [reflexivity|]. intros K'. discriminate K'.
Qed.

Lemma blank_space (c : char) : isBlank c = true -> isSpace c = true.
Proof.
  unfold isBlank. intros H. apply orb_prop in H.
  destruct H as [H|H]; apply N.eqb_eq in H; subst c; reflexivity.
Qed.

Lemma newline_space (c : char) : isNL c = true -> isSpace c = true.
Proof. intros H. apply N.eqb_eq in H. subst c. reflexivity. Qed.

Lemma newline_terminator (c : char) : isNL c = true -> isLineTerminator c = true.
Proof. intros H. apply N.eqb_eq in H. subst c. reflexivity. Qed.

(** A replacement of white space by white space that keeps a line break
    when it writes one. *)
Lemma spaces_at_match (m sep : str) (bIn bOut : bool) :
  allSpace m -> allSpace sep ->
  (startAfter false sep = true -> startAfter false m = true) ->
  (bOut = true -> bIn = true) ->
  noBulletLine bOut sep = true
  /\ (startAfter bOut sep = true -> startAfter bIn m = true).
Proof.
  intros Hm Hsep Hbreak Hb. split; [now apply noBulletLine_space|].
  intros K. destruct bIn.
  - now apply startAfter_space.
  - destruct bOut; [discriminate (Hb eq_refl)|]. now apply Hbreak.
Qed.

Lemma collapseBlanks_keeps_lines (t : str) :
  noBulletLine true t = true -> noBulletLine true (collapseBlanks t) = true.
Proof.
  intros H. unfold collapseBlanks.
  apply (rep_noBulletLine fl_g re_blanks [SP]) with (good := fun _ => True)
                                                   (bIn := true); auto.
  - intros prev s M. rewrite matchLen_blanks in M.
    apply blanksLen_positive in M. lia.
  - intros prev s k M _ bIn bOut Hb _. apply spaces_at_match; auto.
    + rewrite matchLen_blanks in M. unfold blanksLen in M.
      destruct (1 <=? runLen isBlank s); [|discriminate M]. injection M as <-.
      generalize (firstn_runLen isBlank s). apply Forall_impl. exact blank_space.
    + repeat constructor.
    + intros K. discriminate K.
Qed.

Lemma dropIndent_keeps_lines (t : str) :
  noBulletLine true t = true -> noBulletLine true (dropIndent t) = true.
Proof.
  intros H. unfold dropIndent.
  apply (rep_noBulletLine fl_g re_nlBlanks [NL]) with (good := fun _ => True)
                                                     (bIn := true); auto.
  - intros prev s M. rewrite matchLen_nlBlanks in M.
    apply nlBlanksLen_positive in M. lia.
  - intros prev s k M _ bIn bOut Hb _.
    rewrite matchLen_nlBlanks in M. unfold nlBlanksLen in M.
    destruct s as [|c s]; [discriminate M|].
    destruct (isNL c) eqn:Ec; [|discriminate M]. cbn [andb] in M.
    destruct (1 <=? runLen isBlank s); [|discriminate M]. injection M as <-.
    cbn [firstn].
    assert (W : allSpace (firstn (runLen isBlank s) s)).
    { generalize (firstn_runLen isBlank s). apply Forall_impl. exact blank_space. }
    apply spaces_at_match; auto.
    + constructor; [now apply newline_space|exact W].
    + repeat constructor.
    + intros _. apply startAfter_newline; [now apply newline_terminator|exact W].
Qed.

Lemma capNewlines_keeps_lines (t : str) :
  noBulletLine true t = true -> noBulletLine true (capNewlines t) = true.
Proof.
  intros H. unfold capNewlines.
  apply (rep_noBulletLine fl_g re_nl3 [NL; NL]) with (good := fun _ => True)
                                                    (bIn := true); auto.
  - intros prev s M. rewrite matchLen_nl3 in M.
    apply nl3Len_positive in M. lia.
  - intros prev s k M _ bIn bOut Hb _.
    rewrite matchLen_nl3 in M. unfold nl3Len in M.
    destruct (Nat.leb_spec 3 (runLen isNL s)) as [L|]; [|discriminate M].
    injection M as <-.
    assert (W : Forall (fun c => isNL c = true) (firstn (runLen isNL s) s))
      by apply firstn_runLen.
    destruct (firstn (runLen isNL s) s) as [|c m] eqn:E.
    { apply (f_equal (@length _)) in E. rewrite length_firstn in E.
      pose proof (runLen_le isNL s). cbn [length] in E. lia. }
    inversion W as [|? ? Wc Wm]; subst.
    assert (Sm : allSpace m).
    { revert Wm. apply Forall_impl. exact newline_space. }
    apply spaces_at_match; auto.
    + constructor; [now apply newline_space|exact Sm].
    + repeat constructor.
    + intros _. apply startAfter_newline; [now apply newline_terminator|exact Sm].
Qed.

Lemma dropWhile_prefix (f : char -> bool) (x : str) :
  exists a, x = a ++ dropWhile f x /\ Forall (fun c => f c = true) a.
Proof.
  induction x as [|c x (a & IH & Ha)]; [now exists []|].
  cbn [dropWhile]. destruct (f c) eqn:E; [|now exists []].
  exists (c :: a). split; [cbn [app]; now f_equal|now constructor].
Qed.

Lemma trim_keeps_lines (t : str) :
  noBulletLine true t = true -> noBulletLine true (trim t) = true.
Proof.
  intros H. unfold trim.
  destruct (dropWhile_prefix isSpace t) as (a & Ea & Ha). fold (trimStart t) in Ea.
  rewrite Ea, noBulletLine_app, (startAfter_space a Ha) in H.
  apply andb_prop in H. destruct H as [_ H].
  destruct (dropWhile_suffix isSpace (rev (trimStart t))) as (b & Eb).
  assert (E : trimStart t = trimEnd (trimStart t) ++ rev b).
  { unfold trimEnd. rewrite <- rev_app_distr, <- Eb. now rewrite rev_involutive. }
  rewrite E, noBulletLine_app in H. apply andb_prop in H. apply H.
Qed.

Lemma tidy_keeps_lines (t : str) :
  noBulletLine true t = true -> noBulletLine true (tidy t) = true.
Proof.
  intros H. unfold tidy.
  now apply trim_keeps_lines, capNewlines_keeps_lines, dropIndent_keeps_lines,
    collapseBlanks_keeps_lines.
Qed.

(** *** Steps that bring no marker in *)

(** The text is empty or begins with a code unit that is not in the
    marker. *)
Definition edge (s : str) : Prop :=
  match s with
  | [] => True
  | z :: _ => existsb (N.eqb (canon z)) MARKER = false
  end.

(** The marker does not start inside [p] when [s] follows. *)
Definition noMarkerIn (p s : str) : Prop :=
  forall p1 p2, p = p1 ++ p2 -> p2 <> [] ->
    startsWith (List.map canon (p2 ++ s)) MARKER = false.

Section Removal.

Variable fl : flags.
Variable r : regex.
Hypothesis positive : forall prev s, matchLen fl r prev s <> Some 0.

(** Every match ends at the end of the text or before a code unit that is
    not in the marker. *)
Hypothesis ends :
  forall prev s k, matchLen fl r prev s = Some k -> edge (skipn k s).

Variable good : str -> Prop.
Hypothesis good_suffix : forall a s, good (a ++ s) -> good s.

(** Where the marker starts the pattern matches. *)
Hypothesis copied :
  forall prev s, good s -> matchLen fl r prev s = None ->
    startsWith (List.map canon s) MARKER = false.

Lemma rep_edge (s : str) (prev : option char) :
  edge s -> edge (rep fl r [] prev s).
Proof.
  apply (rep_ind fl r [] positive (fun prev s o => edge s -> edge o)).
  - auto.
  - intros p c s' _ _ H. exact H.
  - intros p s' k M _ _ IH _. cbn [app]. apply IH. exact (ends p s' k M).
Qed.

Lemma rep_noMarker (s : str) (prev : option char) :
  good s -> forall p, noMarkerIn p s -> noMarker (p ++ rep fl r [] prev s).
Proof.
  apply (rep_ind fl r [] positive
           (fun prev s o => good s -> forall p, noMarkerIn p s -> noMarker (p ++ o))).
  - intros _ _ p H a s' E. rewrite app_nil_r in E.
    destruct s' as [|c s']; [reflexivity|].
    specialize (H a (c :: s') E ltac:(discriminate)).
    now rewrite app_nil_r in H.
  - clear s prev. intros prev c s M IH G p H.
    change (p ++ c :: rep fl r [] (Some c) s)
      with (p ++ [c] ++ rep fl r [] (Some c) s).
    rewrite app_assoc. apply IH; [exact (good_suffix [c] s G)|].
    intros p1 p2 E Hp2.
    destruct (nil_or_snoc p2) as [->|(p2' & z & ->)]; [contradiction|].
    rewrite app_assoc in E. apply app_inj_tail in E. destruct E as [E <-].
    rewrite <- app_assoc. cbn [app].
    destruct p2' as [|d p2'].
    + cbn [app]. exact (copied prev (c :: s) G M).
    + apply (H p1 (d :: p2') E). discriminate.
  - clear s prev. intros prev s k M Hk Hl IH G p H. cbn [app].
    set (o := rep fl r [] (lastOr prev (firstn k s)) (skipn k s)) in *.
    assert (No : noMarker o).
    { apply (IH (good_suffix (firstn k s) (skipn k s)
                   ltac:(now rewrite firstn_skipn)) []).
      intros p1 p2 E Hp2. symmetry in E. apply app_eq_nil in E.
      destruct E as [_ ->]. contradiction. }
    assert (Eo : edge o) by (apply rep_edge; exact (ends prev s k M)).
    intros a s' E. apply app_eq_app in E.
    destruct E as (l & [(-> & ->)|(-> & ->)]).
    + destruct l as [|d l]; [rewrite app_nil_r in *; exact (No [] o eq_refl)|].
      destruct (startsWith (List.map canon ((d :: l) ++ o)) MARKER) eqn:S;
        [|reflexivity].
      rewrite map_app in S.
      destruct (startsWith_app_cases _ _ _ S) as [S'|(p2 & Hp & Ep & S')].
      * pose proof (H a (d :: l) eq_refl ltac:(discriminate)) as K.
        rewrite map_app, (startsWith_app_mono _ _ _ S') in K. discriminate K.
      * destruct o as [|z o'].
        -- destruct p2; [contradiction|discriminate S'].
        -- rewrite (offMarker_head z o' p2 Eo _ Ep Hp) in S'. discriminate S'.
    + exact (No l s' eq_refl).
Qed.

End Removal.

Lemma noMarkerIn_nil (s : str) : noMarkerIn [] s.
Proof.
  intros p1 p2 E Hp2. symmetry in E. apply app_eq_nil in E.
  destruct E as [_ ->]. contradiction.
Qed.

Lemma startsWith_map_split (P : str) :
  forall s, startsWith (List.map canon s) P = true ->
    exists m b, s = m ++ b /\ List.map canon m = P.
Proof.
  induction P as [|x P IH]; intros s H; [now exists [], s|].
  destruct s as [|y s]; [discriminate H|]. cbn [List.map startsWith] in H.
  apply andb_prop in H. destruct H as [E H]. apply N.eqb_eq in E.
  destruct (IH s H) as (m & b & -> & Em). exists (y :: m), b.
  split; [reflexivity|]. cbn [List.map]. now rewrite <- E, Em.
Qed.

Lemma reps_reaches_end (f : char -> bool) (s : str) :
  (forall c, f c = true) ->
  forall prev, exists p, In (p, []) (reps f None prev s).
Proof.
  intros Hf. induction s as [|c s IH]; intros prev.
  - exists prev. now left.
  - destruct (IH (Some c)) as (p & H). exists p. cbn [reps]. rewrite Hf.
    now right.
Qed.

(** Where the marker starts the boilerplate pattern matches. *)
Lemma usagov_hits (prev : option char) (s : str) :
  matchLen fl_gis re_usagov prev s = None ->
  startsWith (List.map canon s) MARKER = false.
Proof.
  intros M. destruct (startsWith (List.map canon s) MARKER) eqn:S; [|reflexivity].
  exfalso. apply matchLen_None in M. revert M.
  destruct (startsWith_map_split _ _ S) as (m & b & -> & Em).
  unfold re_usagov. cbn [seqs]. rewrite run_Seq. unfold word.
  destruct (run_chars_match (lit "usa.gov") ltac:(discriminate) m b prev Em)
    as (p & E).
  rewrite E. cbn [flat_map fst snd]. rewrite app_nil_r, run_Seq.
  destruct (reps_reaches_end (atomMatch fl_gis ADot) b ltac:(reflexivity) p)
    as (p' & H).
  apply (flat_map_nonempty _ _ _ _ (p', [])); [exact H|].
  cbn [fst snd]. discriminate.
Qed.

(** A match of the boilerplate pattern ends at the end of the text or
    before a newline. *)
Lemma usagov_ends (prev : option char) (s : str) (k : nat) :
  matchLen fl_gis re_usagov prev s = Some k -> edge (skipn k s).
Proof.
  intros M. destruct (matchLen_state _ _ _ _ _ M) as (p & H & _).
  unfold re_usagov in H. cbn [seqs] in H. revert H.
  apply (run_Seq_final fl_gis _ _ (fun st => edge (snd st))).
  apply run_Seq_final. intros q x st Hst.
  apply run_Ahead_final in Hst.
  destruct (snd st) as [|c rest]; [exact I|].
  destruct (N.eqb c NL) eqn:Ec.
  - apply N.eqb_eq in Ec. subst c. reflexivity.
  - exfalso. apply Hst. exact (ahead_fails (fst st) c rest Ec).
Qed.

Lemma usagov_cleared (t : str) :
  noMarker (replaceAll fl_gis re_usagov (const []) t).
Proof.
  apply (rep_noMarker fl_gis re_usagov usagov_positive usagov_ends
           (fun _ => True) (fun _ _ _ => I)
           (fun prev s _ => usagov_hits prev s) t None I []).
  apply noMarkerIn_nil.
Qed.

Lemma terminator_edge (s : str) : atEol fl_gm s = true -> edge s.
Proof.
  destruct s as [|z s]; [intros _; exact I|].
  cbn [atEol multiline fl_gm andb edge]. unfold isLineTerminator, oneOf.
  cbn [existsb]. intros H.
  repeat (apply orb_prop in H; destruct H as [H|H]);
    try discriminate H; apply N.eqb_eq in H; subst z; reflexivity.
Qed.

Lemma bulletLine_keeps_noMarker (t : str) :
  noMarker t -> noMarker (replaceAll fl_gm re_bulletLine (const []) t).
Proof.
  intros H.
  apply (rep_noMarker fl_gm re_bulletLine bulletLine_positive
           (fun prev s k M => terminator_edge _ (bulletLine_ends prev s k M))
           noMarker noMarker_suffix
           (fun prev s G _ => G [] s eq_refl) t None H []).
  apply noMarkerIn_nil.
Qed.

Lemma bullet_keeps_noMarker (t : str) :
  noMarker t -> noMarker (replaceAll fl_g re_bullet (const [SP]) t).
Proof.
  intros H.
  cut (forall p, noMarker (p ++ t) -> noMarker (p ++ rep fl_g re_bullet [SP] None t)).
  { intros C. exact (C [] H). }
  clear H.
  apply (rep_ind fl_g re_bullet [SP] bullet_positive
           (fun prev s o => forall p, noMarker (p ++ s) -> noMarker (p ++ o))).
  - auto.
  - intros prev c s _ IH p H.
    change (p ++ c :: rep fl_g re_bullet [SP] (Some c) s)
      with (p ++ [c] ++ rep fl_g re_bullet [SP] (Some c) s).
    rewrite app_assoc. apply IH. now rewrite <- app_assoc.
  - intros prev s k _ _ _ IH p H. apply noMarker_between.
    + now apply noMarker_prefix in H.
    + apply (IH []). apply (noMarker_suffix (p ++ firstn k s)).
      now rewrite <- app_assoc, firstn_skipn.
    + discriminate.
    + repeat constructor.
Qed.

(** *** The cleaned text, cleaned again *)

Lemma inlineFree_noop (t : str) :
  Forall (fun c => isInlineBullet c = false) t ->
  replaceAll fl_g re_bullet (const [SP]) t = t.
Proof.
  intros H. apply replaceAll_noMatch. intros a s' prev ->.
  apply Forall_app in H. destruct H as [_ H].
  unfold matchLen, re_bullet. cbn [seqs].
  rewrite run_blocked; [reflexivity|].
  revert H. apply Forall_impl.
  intros c Hc. exact (eq_trans (inlineBullet_match c) Hc).
Qed.

Lemma tidy_inlineFree (t : str) :
  Forall (fun c => isInlineBullet c = false)
         (tidy (replaceAll fl_g re_bullet (const [SP]) t)).
Proof.
  unfold tidy, capNewlines, dropIndent, collapseBlanks.
  assert (T : forall x, Forall (fun c => isInlineBullet c = false) x ->
                        Forall (fun c => isInlineBullet c = false) (trim x)).
  { intros x Hx. destruct (trim_substring x) as (a & b & E). rewrite E in Hx.
    apply Forall_app in Hx. destruct Hx as [_ Hx].
    apply Forall_app in Hx. apply Hx. }
  apply T.
  do 3 (apply replaceAll_Forall; [intros ? _; repeat constructor|]).
  unfold replaceAll. apply replaceFrom_clears.
  - intros m. repeat constructor.
  - exact inlineBullet_hit.
Qed.

(** What one pass of the cleaning achieves, when the text has neither of
    the two squares: no marker, no bullet first on a line, none of the
    bullets of line 127. *)
Lemma clean_achieves (text : str) :
  noSquares text ->
  noMarker (clean text)
  /\ noBulletLine true (clean text) = true
  /\ Forall (fun c => isInlineBullet c = false) (clean text).
Proof.
  intros Hs.
  set (x1 := replaceAll fl_gis re_usagov (const []) text).
  set (x2 := replaceAll fl_gm re_bulletLine (const []) x1).
  set (x3 := replaceAll fl_g re_bullet (const [SP]) x2).
  change (clean text) with (tidy x3).
  assert (S2 : noSquares x2).
  { unfold x2, x1. do 2 (apply replaceAll_Forall; [intros ? _; constructor|]).
    exact Hs. }
  split; [|split].
  - apply tidy_noMarker, bullet_keeps_noMarker, bulletLine_keeps_noMarker,
      usagov_cleared.
  - apply tidy_keeps_lines, bullet_keeps_lines; [exact S2|].
    apply bulletLine_cleared.
  - apply tidy_inlineFree.
Qed.

(** C8, amended: cleaning is idempotent on every text that has neither of
    the squares U+25AA and U+25AB.  One pass leaves no "usa.gov", no line
    that begins with a bullet, a hyphen or a star, and none of the bullets
    of line 127, and the white-space steps (lines 129-132) reach their
    fixed point in one pass on every text; so the second pass changes
    nothing. *)
Theorem clean_idempotent_without_squares (text : str) :
  noSquares text ->
  clean (clean text) = clean text
  /\ replaceAll fl_gis re_usagov (const []) (clean text) = clean text
  /\ replaceAll fl_gm re_bulletLine (const []) (clean text) = clean text
  /\ replaceAll fl_g re_bullet (const [SP]) (clean text) = clean text
  /\ tidy (clean text) = clean text.
Proof.
  intros Hs. destruct (clean_achieves text Hs) as (Hm & Hl & Hb).
  pose proof (usagov_noop (clean text) Hm) as E1.
  pose proof (noBulletLine_noop (clean text) Hl) as E2.
  pose proof (inlineFree_noop (clean text) Hb) as E3.
  assert (E4 : tidy (clean text) = clean text).
  { change (clean text)
      with (tidy (replaceAll fl_g re_bullet (const [SP])
                    (replaceAll fl_gm re_bulletLine (const [])
                       (replaceAll fl_gis re_usagov (const []) text)))).
    apply tidy_idempotent. }
  split; [|now repeat split].
  unfold clean at 1. rewrite E1, E2, E3. exact E4.
Qed.

Definition listed_sample : str :=
  lit "Marine zones:" ++ [NL] ++ lit "  - Cross Sound" ++ [NL]
  ++ lit "Winds 10-15 kt " ++ [BULLET] ++ lit " seas 4 ft" ++ [NL]
  ++ lit "See usa.gov for more".

Lemma noSquares_check (t : str) :
  forallb (fun c => negb (isSquare c)) t = true -> noSquares t.
Proof.
  intros H. apply Forall_forall. intros c Hc.
  rewrite forallb_forall in H. specialize (H c Hc).
  now destruct (isSquare c).
Qed.

Lemma clean_idempotent_without_squares_witness :
  noSquares listed_sample
  /\ clean listed_sample
     = lit "Marine zones:" ++ [NL; NL] ++ lit "Winds 10-15 kt seas 4 ft" ++ [NL]
       ++ lit "See"
  /\ clean (clean listed_sample) = clean listed_sample.
Proof.
  assert (H : noSquares listed_sample)
    by (apply noSquares_check; vm_compute; reflexivity).
  split; [exact H|]. split; [vm_compute; reflexivity|].
  exact (proj1 (clean_idempotent_without_squares listed_sample H)).
Defined.

Definition exposed_bullet : str := [SMALL_SQUARE] ++ lit "- b".

(** C8 as stated fails: the small square is replaced by a space after the
    bullet lines have been removed, which leaves a line that starts with a
    hyphen; cleaning again removes that line. *)
Lemma clean_not_idempotent :
  clean exposed_bullet = lit "- b"
  /\ clean (clean exposed_bullet) = []
  /\ clean (clean exposed_bullet) <> clean exposed_bullet.
Proof.
  split; [vm_compute; reflexivity|]. split; [vm_compute; reflexivity|].
  vm_compute. discriminate.
Qed.

End IdempotenceFacts.


(** ** A bullet line among other lines *)

Module BulletLineFacts.
Import JS Regex Discussion JSFacts RegexFacts RenderFacts FormatFacts.
Import CleanFacts BoilerplateFacts BulletFacts IdempotenceFacts.

Unset Implicit Arguments.

Lemma not_bol_none (prev : option char) (s : str) :
  atBol fl_gm prev = false -> matchLen fl_gm re_bulletLine prev s = None.
Proof.
  intros B. apply bulletLine_none. rewrite B. discriminate.
Qed.

(** The pattern does not match where the first code unit that is not white
    space is not one of its bullets. *)
Lemma bulletLine_first (prev : option char) (u t : str) (z : char) :
  allSpace u ->
  isSpace z = false ->
  isLineBullet z = false ->
  matchLen fl_gm re_bulletLine prev (u ++ z :: t) = None.
Proof.
  intros Hu Hz Lz. apply matchLen_None. rewrite re_bulletLine_terms, run_Seq.
  apply flat_map_all_nil. intros st Hst. cbn [run] in Hst.
  destruct (atBol fl_gm prev); [|contradiction]. destruct Hst as [<-|[]].
  cbn [fst snd]. rewrite run_Seq. apply flat_map_all_nil.
  intros st Hst. unfold star in Hst. cbn [run] in Hst.
  apply in_rev in Hst. cbn [skipn] in Hst.
  destruct (reps_before (atomMatch fl_gm space) z t) with (1 := eq_trans (space_match z) Hz)
    (2 := Hst) as (u1 & u2 & -> & E).
  rewrite E, run_Seq. cbn [run].
  destruct u2 as [|d u2']; cbn [app]; rewrite lineBullet_match.
  - now rewrite Lz.
  - apply Forall_app in Hu. destruct Hu as [_ Hu].
    inversion Hu as [|? ? Hd _]; subst.
    now rewrite (space_not_lineBullet d Hd).
Qed.

(** A text is white space only, or has a first code unit that is not. *)
Lemma first_solid (x : str) :
  allSpace x
  \/ exists u y t, x = u ++ y :: t /\ allSpace u /\ isSpace y = false.
Proof.
  induction x as [|c x IH]; [left; constructor|].
  destruct (isSpace c) eqn:E.
  - destruct IH as [H|(u & y & t & -> & Hu & Hy)].
    + left. now constructor.
    + right. exists (c :: u), y, t. split; [reflexivity|].
      split; [now constructor|exact Hy].
  - right. exists [], c, x. split; [reflexivity|]. split; [constructor|exact E].
Qed.

Lemma startAfter_bol (p : option char) (a : str) :
  atBol fl_gm (lastOr p a) = true -> a <> [] -> startAfter true a = true.
Proof.
  intros B Ha. destruct (nil_or_snoc a) as [->|(a' & z & ->)]; [contradiction|].
  rewrite lastOr_app in B. rewrite startAfter_app.
  cbn [lastOr fold_left atBol multiline fl_gm andb] in B.
  cbn [startAfter fold_left]. unfold nextStart. now rewrite B.
Qed.

(** Where no line begins with a bullet, the bullet-line pattern leaves the
    text as it is, whatever comes before. *)
Lemma noBulletLine_kept (t : str) (p : option char) :
  noBulletLine true t = true ->
  replaceFrom fl_gm re_bulletLine (const []) p 0 t = t.
Proof.
  intros H.
  assert (M : forall a1 a2, t = a1 ++ a2 ->
                matchLen fl_gm re_bulletLine (lastOr p a1) a2 = None).
  { intros a1 a2 E. apply bulletLine_none. intros B.
    rewrite E, noBulletLine_app in H. apply andb_prop in H. destruct H as [_ H].
    destruct a1 as [|c a1]; [exact H|].
    now rewrite (startAfter_bol p (c :: a1) B) in H by discriminate. }
  rewrite <- (app_nil_r t) at 1. rewrite replaceFrom_copied.
  - cbn [replaceFrom]. rewrite (M t []) by (now rewrite app_nil_r).
    apply app_nil_r.
  - intros a1 a2 E _. rewrite app_nil_r. now apply M.
Qed.

(** X22: a bullet line is removed with all it says: a line that begins, after
    white space or none, with a bullet, a hyphen or a star and has some
    text.  When no line before it and no line after it begins with such a
    character, white space aside, those lines are kept as they are,
    hyphens and stars inside them included; and when the text has no
    "usa.gov", its cleaned text is that of the text without the line. *)
Theorem bullet_line_removed (a ws ws2 body rest : str) (b c : char) :
  lineStart a -> noBulletLine true a = true ->
  allSpace ws -> isLineBullet b = true -> allSpace ws2 ->
  isSpace c = false ->
  Forall (fun d => N.eqb d NL = false) body ->
  rest = [] \/ (exists r', rest = NL :: r') -> noBulletLine true rest = true ->
  replaceAll fl_gm re_bulletLine (const [])
    (a ++ (ws ++ b :: ws2 ++ c :: body) ++ rest)
  = a ++ rest
  /\ (noMarker (a ++ (ws ++ b :: ws2 ++ c :: body) ++ rest) ->
      clean (a ++ (ws ++ b :: ws2 ++ c :: body) ++ rest) = clean (a ++ rest)).
Proof.
  intros Ha Na Hws Hb Hws2 Hc Hbody Hrest Nr.
  set (line := ws ++ b :: ws2 ++ c :: body).
  assert (Hline : line ++ rest = ws ++ b :: ws2 ++ c :: body ++ rest).
  { unfold line. rewrite <- app_assoc. cbn [app]. rewrite <- app_assoc.
    reflexivity. }
  assert (Lpos : 0 < length line).
  { unfold line. rewrite length_app. cbn [length]. lia. }
  assert (R2 : replaceAll fl_gm re_bulletLine (const []) (a ++ line ++ rest)
               = a ++ rest).
  { unfold replaceAll. rewrite replaceFrom_copied.
    - f_equal.
      pose proof (bulletLine_match (lastOr None a) ws ws2 body rest b c
                    (lineStart_bol a Ha) Hws Hb Hws2 Hc Hbody Hrest) as M.
      rewrite <- Hline in M. fold line in M.
      rewrite (replaceFrom_matched _ _ _ _ _ _ M Lpos)
        by (rewrite length_app; lia).
      rewrite skipn_app, skipn_all, Nat.sub_diag. cbn [const app skipn].
      now apply noBulletLine_kept.
    - intros a1 a2 E Ha2.
      destruct Ha as [->|(a0 & z & -> & Hz)].
      { symmetry in E. apply app_eq_nil in E. destruct E as [_ ->].
        contradiction. }
      destruct (atBol fl_gm (lastOr None a1)) eqn:B; [|now apply not_bol_none].
      assert (N2 : noBulletLine true a2 = true).
      { rewrite E, noBulletLine_app in Na. apply andb_prop in Na.
        destruct Na as [_ Na]. now rewrite (atBol_startAfter a1 B) in Na. }
      destruct (nil_or_snoc a2) as [->|(a2' & l & ->)]; [contradiction|].
      change (a0 ++ [z; NL]) with (a0 ++ [z] ++ [NL]) in E.
      rewrite !app_assoc in E. apply app_inj_tail in E. destruct E as [E <-].
      destruct (nil_or_snoc a2') as [->|(u & z' & ->)].
      + rewrite app_nil_r in E. subst a1. rewrite lastOr_app in B.
        cbn [lastOr fold_left atBol multiline fl_gm andb] in B.
        apply lineTerminator_space in B. rewrite B in Hz. discriminate Hz.
      + rewrite app_assoc in E. apply app_inj_tail in E. destruct E as [E <-].
        destruct (first_solid (u ++ [z])) as [W|(v & y & t & Ev & Hv & Hy)].
        { apply Forall_app in W. destruct W as [_ W].
          inversion W as [|? ? Wz _]; subst. rewrite Wz in Hz. discriminate Hz. }
        rewrite Ev in N2 |- *. rewrite <- !app_assoc. cbn [app].
        apply bulletLine_first; [exact Hv|exact Hy|].
        rewrite <- app_assoc, noBulletLine_app, (startAfter_space v Hv) in N2.
        apply andb_prop in N2. destruct N2 as [_ N2].
        cbn [app noBulletLine andb] in N2. apply andb_prop in N2.
        destruct N2 as [N2 _]. now destruct (isLineBullet y). }
  split; [exact R2|].
  intros M1.
  assert (Sa : startAfter true a = true).
  { apply atBol_startAfter. now apply lineStart_bol. }
  assert (Nar : noBulletLine true (a ++ rest) = true).
  { now rewrite noBulletLine_app, Na, Sa. }
  assert (M2 : noMarker (a ++ rest)).
  { pose proof (bulletLine_keeps_noMarker _ M1) as K. now rewrite R2 in K. }
  unfold clean.
  rewrite (usagov_noop _ M1), (usagov_noop _ M2), R2.
  now rewrite (noBulletLine_noop (a ++ rest) Nar).
Qed.

Definition bulletinWithList : str :=
  lit "Winds 10-15 KT:" ++ [NL] ++ lit "  - Cross Sound rough" ++ [NL]
  ++ lit "Rain tonight - late.".

Lemma bullet_line_removed_witness :
  replaceAll fl_gm re_bulletLine (const []) bulletinWithList
  = lit "Winds 10-15 KT:" ++ [NL] ++ [NL] ++ lit "Rain tonight - late."
  /\ clean bulletinWithList
     = clean (lit "Winds 10-15 KT:" ++ [NL] ++ [NL] ++ lit "Rain tonight - late.").
Proof.
  assert (H1 : lineStart (lit "Winds 10-15 KT:" ++ [NL])).
  { right. exists (lit "Winds 10-15 KT"), 58%N. split; reflexivity. }
  assert (H3 : allSpace (lit "  ")) by (repeat constructor).
  assert (H4 : allSpace (lit " ")) by (repeat constructor).
  assert (H5 : Forall (fun d => N.eqb d NL = false) (lit "ross Sound rough"))
    by (repeat constructor).
  assert (H7 : noMarker bulletinWithList)
    by (apply noMarker_intro; vm_compute; reflexivity).
  pose proof (bullet_line_removed
                (lit "Winds 10-15 KT:" ++ [NL]) (lit "  ") (lit " ")
                (lit "ross Sound rough") ([NL] ++ lit "Rain tonight - late.")
                45%N 67%N
                H1 eq_refl H3 eq_refl H4 eq_refl H5
                (or_intror (ex_intro _ (lit "Rain tonight - late.") eq_refl))
                eq_refl) as [K1 K2].
  split; [exact K1|exact (K2 H7)].
Defined.

End BulletLineFacts.


(** ** The visible text that is kept *)

Module VisibleTextFacts.
Import JS Regex Discussion JSFacts RegexFacts RenderFacts FormatFacts.
Import ParagraphFacts FallbackFacts IdempotenceFacts.

Unset Implicit Arguments.

(** *** Periods that stand alone *)

(** No period of [s] stands alone: none is followed by white space while
    it begins the text or follows white space.  [afterSolid] tells whether
    the code unit before [s] is there and is not white space. *)
Fixpoint noLoneDot (afterSolid : bool) (s : str) : bool :=
  match s with
  | [] => true
  | c :: s' =>
      negb (isDot c && headIsSpace s' && negb afterSolid)
      && noLoneDot (negb (isSpace c)) s'
  end.

(** The same with the end of the text counted as white space. *)
Fixpoint noLoneDotEnd (afterSolid : bool) (s : str) : bool :=
  match s with
  | [] => true
  | c :: s' =>
      negb (isDot c && (headIsSpace s' || isEmpty s') && negb afterSolid)
      && noLoneDotEnd (negb (isSpace c)) s'
  end.

Definition solidAfter (b : bool) (x : str) : bool :=
  fold_left (fun _ c => negb (isSpace c)) x b.

Lemma solidAfter_app (b : bool) (x y : str) :
  solidAfter b (x ++ y) = solidAfter (solidAfter b x) y.
Proof. apply fold_left_app. Qed.

Lemma solidAfter_last (b : bool) (x : str) (c : char) :
  solidAfter b (x ++ [c]) = negb (isSpace c).
Proof. now rewrite solidAfter_app. Qed.

Lemma solidAfter_space (w : str) : allSpace w -> solidAfter false w = false.
Proof.
  intros H. destruct (nil_or_snoc w) as [->|(w' & c & ->)]; [reflexivity|].
  rewrite solidAfter_last. apply Forall_app in H. destruct H as [_ H].
  inversion H as [|? ? Hc _]; subst. now rewrite Hc.
Qed.

Lemma solidAfter_ends_space (b : bool) (w : str) :
  allSpace w -> w <> [] -> solidAfter b w = false.
Proof.
  intros H Hw. destruct (nil_or_snoc w) as [->|(w' & c & ->)]; [contradiction|].
  rewrite solidAfter_last. apply Forall_app in H. destruct H as [_ H].
  inversion H as [|? ? Hc _]; subst. now rewrite Hc.
Qed.

Lemma noLoneDot_suffix (x : str) :
  forall b y, noLoneDot b (x ++ y) = true -> noLoneDot (solidAfter b x) y = true.
Proof.
  induction x as [|c x IH]; intros b y H; [exact H|].
  cbn [app noLoneDot] in H. apply andb_prop in H. destruct H as [_ H].
  exact (IH _ _ H).
Qed.

Lemma noLoneDot_prefix (x : str) :
  forall b y, noLoneDot b (x ++ y) = true -> noLoneDot b x = true.
Proof.
  induction x as [|c x IH]; intros b y H; [reflexivity|].
  cbn [app noLoneDot] in *. apply andb_prop in H. destruct H as [H1 H2].
  apply andb_true_intro. split; [|exact (IH _ _ H2)].
  destruct x as [|d x]; [|exact H1].
  cbn [headIsSpace]. now rewrite andb_false_r.
Qed.

Lemma noLoneDot_head (x : str) :
  startsWith x [46%N] = false -> noLoneDot true x = true -> noLoneDot false x = true.
Proof.
  destruct x as [|c x]; [reflexivity|]. cbn [startsWith noLoneDot].
  rewrite andb_true_r, N.eqb_sym. fold (isDot c). intros -> H.
  apply andb_prop in H. destruct H as [_ H]. exact H.
Qed.

(** Joining with a space. *)
Lemma lone_join (a : str) :
  forall b s,
    noLoneDotEnd b a = true -> noLoneDot false s = true ->
    noLoneDot b (a ++ SP :: s) = true.
Proof.
  induction a as [|c a IH]; intros b s Ha Hs.
  - cbn [app noLoneDot]. exact Hs.
  - cbn [app noLoneDot noLoneDotEnd] in *. apply andb_prop in Ha.
    destruct Ha as [H1 H2]. apply andb_true_intro. split; [|exact (IH _ _ H2 Hs)].
    destruct a as [|d a]; cbn [app headIsSpace isEmpty] in *.
    + rewrite orb_true_r in H1. exact H1.
    + rewrite orb_false_r in H1. exact H1.
Qed.

Lemma lone_join_end (a : str) :
  forall b s,
    noLoneDotEnd b a = true -> noLoneDotEnd false s = true ->
    noLoneDotEnd b (a ++ SP :: s) = true.
Proof.
  induction a as [|c a IH]; intros b s Ha Hs.
  - cbn [app noLoneDotEnd]. exact Hs.
  - cbn [app noLoneDotEnd] in *. apply andb_prop in Ha.
    destruct Ha as [H1 H2]. apply andb_true_intro. split; [|exact (IH _ _ H2 Hs)].
    destruct a as [|d a]; cbn [app headIsSpace isEmpty] in *.
    + rewrite orb_true_r in H1. exact H1.
    + exact H1.
Qed.

(** A sentence with its period put back. *)
Lemma token_end (t : str) :
  t <> [] -> headOk (rev t) -> countDS t = 0 ->
  forall b, noLoneDotEnd b (t ++ [46%N]) = true.
Proof.
  induction t as [|c t IH]; intros Hne He Hc b; [contradiction|].
  destruct t as [|d t].
  - cbn [rev app headOk] in He.
    cbn [app noLoneDotEnd headIsSpace isEmpty]. rewrite He.
    change (isSpace 46) with false. cbn [orb andb negb].
    now rewrite !andb_false_r.
  - assert (E : (isDot c && isSpace d) = false /\ countDS (d :: t) = 0).
    { change (countDS (c :: d :: t))
        with ((if isDot c && isSpace d then 1 else 0) + countDS (d :: t)) in Hc.
      destruct (isDot c && isSpace d); [lia|]. split; [reflexivity|lia]. }
    destruct E as [E1 E2].
    change ((c :: d :: t) ++ [46%N]) with (c :: (d :: t) ++ [46%N]).
    cbn [noLoneDotEnd]. apply andb_true_intro. split.
    + cbn [app headIsSpace isEmpty]. rewrite orb_false_r, E1. reflexivity.
    + apply IH; [discriminate| |exact E2].
      apply (headOk_rev_tail [c] (d :: t)); [discriminate|exact He].
Qed.

Lemma countDS_lone (s : str) :
  countDS s = 0 -> forall b, noLoneDot b s = true.
Proof.
  induction s as [|c s IH]; intros Hc b; [reflexivity|].
  destruct s as [|d s].
  - cbn [noLoneDot headIsSpace]. now rewrite andb_false_r.
  - change (countDS (c :: d :: s))
      with ((if isDot c && isSpace d then 1 else 0) + countDS (d :: s)) in Hc.
    cbn [noLoneDot headIsSpace]. destruct (isDot c && isSpace d); [lia|].
    cbn [andb negb]. apply IH. lia.
Qed.

(** What the loops append. *)
Lemma sentence_lone (raw : str) (rest : list str) (s : str) :
  countDS raw = 0 ->
  nextSentence raw rest = Some s ->
  noLoneDot false s = true /\ (rest <> [] -> noLoneDotEnd false s = true).
Proof.
  intros Hraw N. destruct (nextSentence_spec raw rest s Hraw N) as ((_ & _ & Hc) & E).
  split; [now apply countDS_lone|]. intros Hrest.
  destruct rest as [|r rest]; [contradiction|]. subst s.
  apply token_end.
  - unfold nextSentence in N. destruct (isEmpty (trim raw)) eqn:B; [discriminate N|].
    now apply isEmpty_false.
  - apply trim_noSpaceEnds.
  - pose proof (countDS_trim raw). lia.
Qed.

Lemma append_lone (cur s : str) :
  noLoneDotEnd false cur = true -> noLoneDot false s = true ->
  noLoneDot false (append cur s) = true.
Proof.
  intros Hc Hs. unfold append. destruct cur as [|c cur]; [exact Hs|].
  cbn [isEmpty]. now apply lone_join.
Qed.

Lemma append_lone_end (cur s : str) :
  noLoneDotEnd false cur = true -> noLoneDotEnd false s = true ->
  noLoneDotEnd false (append cur s) = true.
Proof.
  intros Hc Hs. unfold append. destruct cur as [|c cur]; [exact Hs|].
  cbn [isEmpty]. now apply lone_join_end.
Qed.

Lemma trim_lone (p : str) (b : bool) :
  noLoneDot b p = true ->
  (b = true -> startsWith p [46%N] = false) ->
  noLoneDot false (trim p) = true.
Proof.
  intros H Hb. unfold trim.
  assert (S : noLoneDot false (trimStart p) = true).
  { destruct (dropWhile_prefix isSpace p) as (a & Ea & Ha). fold (trimStart p) in Ea.
    destruct a as [|c a].
    - cbn [app] in Ea. rewrite <- Ea. destruct b; [|exact H].
      apply noLoneDot_head; [now apply Hb|exact H].
    - rewrite Ea in H. apply noLoneDot_suffix in H.
      now rewrite (solidAfter_ends_space b (c :: a) Ha) in H by discriminate. }
  destruct (dropWhile_suffix isSpace (rev (trimStart p))) as (z & Ez).
  assert (E : trimStart p = trimEnd (trimStart p) ++ rev z).
  { unfold trimEnd. rewrite <- rev_app_distr, <- Ez. now rewrite rev_involutive. }
  rewrite E in S. exact (noLoneDot_prefix _ _ _ S).
Qed.

(** No period of [p] stands alone. *)
Definition plain (p : str) : Prop := noLoneDot false p = true.

Lemma plain_pushTrimmed (ps : list str) (cur : str) :
  Forall plain ps -> plain cur -> Forall plain (pushTrimmed ps cur).
Proof.
  intros Hp Hc. unfold pushTrimmed. apply Forall_app. split; [exact Hp|].
  constructor; [|constructor]. apply (trim_lone cur false Hc). discriminate.
Qed.

Lemma plain_pushIfAny (ps : list str) (cur : str) :
  Forall plain ps -> plain cur -> Forall plain (pushIfAny ps cur).
Proof.
  intros Hp Hc. unfold pushIfAny. destruct (isEmpty (trim cur)); [exact Hp|].
  now apply plain_pushTrimmed.
Qed.

Section Built.

Variable toUpperCase : str -> str.

(** The paragraphs that the loops build have no period standing alone,
    whatever the text. *)
Lemma sentenceLoop_lone (l : list str) :
  forall ps cur,
    Forall (fun p => countDS p = 0) l ->
    Forall plain ps ->
    plain cur ->
    (l <> [] -> noLoneDotEnd false cur = true) ->
    Forall plain (fst (sentenceLoop toUpperCase l ps cur))
    /\ plain (snd (sentenceLoop toUpperCase l ps cur)).
Proof.
  induction l as [|raw rest IH]; intros ps cur Hl Hp Hc He; [now split|].
  inversion Hl as [|? ? Hraw Hrest]; subst.
  specialize (He ltac:(discriminate)).
  cbn [sentenceLoop].
  destruct (nextSentence raw rest) as [s|] eqn:N; [|now apply IH].
  destruct (sentence_lone raw rest s Hraw N) as [S1 S2].
  assert (N0 : plain []) by reflexivity.
  assert (E0 : rest <> [] -> noLoneDotEnd false [] = true) by reflexivity.
  destruct (shouldStartNewParagraph toUpperCase s cur).
  - destruct (3 <=? length (splitSentences s)).
    + apply IH; [exact Hrest| |exact N0|exact E0].
      apply plain_pushTrimmed; [now apply plain_pushIfAny|exact S1].
    + apply IH; [exact Hrest| |exact S1|exact S2].
      now apply plain_pushIfAny.
  - pose proof (append_lone cur s He S1) as A1.
    destruct (3 <=? length (splitSentences (append cur s))).
    + apply IH; [exact Hrest| |exact N0|exact E0].
      now apply plain_pushTrimmed.
    + apply IH; [exact Hrest|exact Hp|exact A1|].
      intros Hr. apply append_lone_end; [exact He|now apply S2].
Qed.

Lemma forceLoop_lone (l : list str) :
  forall ps cur,
    Forall (fun p => countDS p = 0) l ->
    Forall plain ps ->
    plain cur ->
    (l <> [] -> noLoneDotEnd false cur = true) ->
    Forall plain (fst (forceLoop l ps cur))
    /\ plain (snd (forceLoop l ps cur)).
Proof.
  induction l as [|raw rest IH]; intros ps cur Hl Hp Hc He; [now split|].
  inversion Hl as [|? ? Hraw Hrest]; subst.
  specialize (He ltac:(discriminate)).
  cbn [forceLoop].
  destruct (nextSentence raw rest) as [s|] eqn:N; [|now apply IH].
  destruct (sentence_lone raw rest s Hraw N) as [S1 S2].
  destruct (negb (isEmpty cur) && (2 <=? length (splitSentences cur))).
  - apply IH; [exact Hrest| |exact S1|exact S2].
    now apply plain_pushTrimmed.
  - apply IH; [exact Hrest|exact Hp|now apply append_lone|].
    intros Hr. apply append_lone_end; [exact He|now apply S2].
Qed.

Lemma sentenceParagraphs_lone (t : str) :
  Forall plain (sentenceParagraphs toUpperCase t).
Proof.
  unfold sentenceParagraphs.
  destruct (sentenceLoop_lone (splitSentences t) [] []
              (splitSentences_pieces t) (Forall_nil _) eq_refl (fun _ => eq_refl))
    as [H1 H2].
  destruct (sentenceLoop toUpperCase (splitSentences t) [] []) as [ps cur].
  now apply plain_pushIfAny.
Qed.

Lemma forceParagraphBreaks_lone (t : str) :
  Forall plain (forceParagraphBreaks t).
Proof.
  unfold forceParagraphBreaks.
  destruct (forceLoop_lone (splitSentences t) [] []
              (splitSentences_pieces t) (Forall_nil _) eq_refl (fun _ => eq_refl))
    as [H1 H2].
  destruct (forceLoop (splitSentences t) [] []) as [ps cur].
  now apply plain_pushIfAny.
Qed.

End Built.

(** *** Sentences put back together *)

Lemma nonSpace_nil_allSpace (x : str) : nonSpace x = [] -> allSpace x.
Proof.
  induction x as [|c x IH]; [constructor|]. unfold nonSpace. cbn [filter].
  destruct (isSpace c) eqn:E; cbn [negb]; [|discriminate].
  intros H. constructor; [exact E|now apply IH].
Qed.

(** Without a period standing alone, the sentences with their periods are
    the text, white space aside. *)
Lemma tokens_keep (pieces : list str) :
  forall seps,
    length pieces = S (length seps) ->
    Forall dotSpaces seps ->
    plain (interleave pieces seps) ->
    solid (tokens pieces) = nonSpace (interleave pieces seps).
Proof.
  induction pieces as [|raw ps IH]; intros seps L Hs H; [discriminate L|].
  cbn [tokens interleave]. rewrite nonSpace_app.
  destruct seps as [|sp ss].
  - destruct ps; [|discriminate L]. cbn [tokens].
    change (nonSpace []) with (@nil char). rewrite app_nil_r.
    destruct (nextSentence raw []) as [s|] eqn:N.
    + rewrite (nextSentence_Some raw [] s N), app_nil_r, solid_cons, nonSpace_trim.
      apply app_nil_r.
    + apply nextSentence_None, trim_nil_nonSpace in N. now rewrite N.
  - injection L as L. inversion Hs as [|? ? Hsp Hss]; subst.
    destruct ps as [|q ps]; [discriminate L|].
    unfold plain in H. cbn [interleave] in H.
    set (rest := interleave (q :: ps) ss) in *.
    assert (Hrest : plain rest).
    { unfold plain. rewrite app_assoc in H. apply noLoneDot_suffix in H.
      rewrite solidAfter_app in H.
      destruct Hsp as (w & -> & Hw & Sw).
      change (46%N :: w) with ([46%N] ++ w) in H. rewrite solidAfter_app in H.
      now rewrite (solidAfter_ends_space _ w Sw Hw) in H. }
    assert (T : trim raw <> []).
    { intros E. apply trim_nil_nonSpace, nonSpace_nil_allSpace in E.
      apply noLoneDot_suffix in H. rewrite (solidAfter_space raw E) in H.
      destruct Hsp as (w & -> & Hw & Sw).
      destruct w as [|d w]; [contradiction|].
      inversion Sw as [|? ? Sd _]; subst.
      cbn [app noLoneDot headIsSpace] in H. rewrite Sd in H.
      discriminate H. }
    assert (N : nextSentence raw (q :: ps) = Some (trim raw ++ lit ".")).
    { unfold nextSentence. destruct (trim raw); [contradiction|reflexivity]. }
    rewrite N, solid_cons, !nonSpace_app, nonSpace_trim,
      (nonSpace_dotSpaces sp Hsp), <- app_assoc.
    do 2 f_equal. now apply IH.
Qed.

Lemma sentences_keep (p : str) :
  plain p -> solid (tokens (splitSentences p)) = nonSpace p.
Proof.
  intros H. destruct (sentences_parts p) as (seps & L & I & F).
  rewrite <- I at 2. apply tokens_keep; [exact L|exact F|]. now rewrite I.
Qed.

(** *** The pieces of the first tier *)

(** A piece inherits from the text that no period stands alone: a run of
    dots is cut out whole, so no piece begins with a dot left over. *)
Lemma pieces_lone (pieces : list str) :
  forall seps b,
    cutAtRuns pieces seps ->
    noLoneDot b (interleave pieces seps) = true ->
    (b = true -> startsWith (interleave pieces seps) [46%N] = false) ->
    Forall (fun p => plain (trim p)) pieces.
Proof.
  induction pieces as [|p ps IH]; intros seps b C H Hb; [constructor|].
  cbn [interleave] in H, Hb.
  assert (P : plain (trim p)).
  { apply (trim_lone p b); [exact (noLoneDot_prefix _ _ _ H)|].
    intros B. specialize (Hb B). destruct p as [|c p]; [reflexivity|exact Hb]. }
  constructor; [exact P|].
  destruct seps as [|sp ss]; cbn [cutAtRuns] in C.
  - destruct C as [-> _]. constructor.
  - destruct C as (_ & W & C).
    rewrite app_assoc in H. apply noLoneDot_suffix in H.
    apply (IH ss (solidAfter b (p ++ sp)) C H).
    intros B. destruct W as [(L & F & _)|(_ & _ & K)]; [|exact K].
    exfalso. destruct (nil_or_snoc sp) as [->|(sp' & z & ->)];
      [cbn [length] in L; lia|].
    rewrite app_assoc, solidAfter_last in B.
    apply Forall_app in F. destruct F as [_ F].
    inversion F as [|? ? Fz _]; subst. discriminate B.
Qed.

Section Kept.

Variable toUpperCase : str -> str.

(** Cutting a paragraph again loses nothing when no period of it stands
    alone. *)
Lemma fragments_keep (ps : list str) :
  Forall plain ps -> solid (fragments toUpperCase ps) = solid ps.
Proof.
  induction 1 as [|p ps Hp _ IH]; [reflexivity|].
  unfold fragments. cbn [flat_map]. fold (fragments toUpperCase ps).
  rewrite solid_app, solid_cons, IH. f_equal.
  destruct (700 <? length p).
  - rewrite longParagraphChunks_solid. now apply sentences_keep.
  - rewrite solid_cons. apply app_nil_r.
Qed.

Lemma ensureBreaks_keep (ps : list str) :
  Forall plain ps ->
  solid (ensureBreaks ps) = solid ps /\ Forall plain (ensureBreaks ps).
Proof.
  intros H. unfold ensureBreaks. destruct ps as [|p [|q ps]]; try (now split).
  destruct (600 <? length p); [|now split].
  split; [|apply forceParagraphBreaks_lone].
  rewrite forceParagraphBreaks_solid, solid_cons.
  change (solid []) with (@nil char). rewrite app_nil_r.
  apply sentences_keep. now inversion H.
Qed.

(** After the first if/else nothing more is lost. *)
Lemma segment_keeps (t : str) :
  Forall plain (initialParagraphs toUpperCase t) ->
  solid (fragments toUpperCase (segment toUpperCase t))
  = solid (initialParagraphs toUpperCase t).
Proof.
  intros H. unfold segment.
  destruct (ensureBreaks_keep _ H) as [E F].
  now rewrite (fragments_keep _ F).
Qed.

Lemma kept_lone (t : str) :
  plain t ->
  Forall plain (filter (fun p => 15 <? length p)
                       (List.map trim (split fl_g re_break t))).
Proof.
  intros H. destruct (split_break_runs t) as (seps & I & C).
  assert (F : Forall (fun p => plain (trim p)) (split fl_g re_break t)).
  { apply (pieces_lone _ seps false C); [now rewrite I|discriminate]. }
  apply Forall_forall. intros x Hx. apply filter_In in Hx. destruct Hx as [Hx _].
  apply in_map_iff in Hx. destruct Hx as (p & <- & Hp).
  rewrite Forall_forall in F. now apply F.
Qed.

End Kept.

(** The sentences of [p] that are not empty, each with its period unless
    it is the last, white space aside: what a sentence loop keeps of [p]. *)
Definition sentencesOf (p : str) : str := solid (tokens (splitSentences p)).

(** What is kept, white space aside, of the paragraphs [ps] of the first
    tier: a single paragraph longer than 600 code units goes through the
    forced breaks, and any paragraph longer than 700 through the chunking;
    the others are kept as they are. *)
Definition afterRegrouping (ps : list str) : str :=
  match ps with
  | [p] => if 600 <? length p then sentencesOf p else nonSpace p
  | _ =>
      concat (List.map (fun p => if 700 <? length p then sentencesOf p
                                 else nonSpace p) ps)
  end.

Section Exact.

Variable toUpperCase : str -> str.

Lemma fragments_exact (ps : list str) :
  solid (fragments toUpperCase ps)
  = concat (List.map (fun p => if 700 <? length p then sentencesOf p
                               else nonSpace p) ps).
Proof.
  induction ps as [|p ps IH]; [reflexivity|].
  unfold fragments. cbn [flat_map List.map concat]. fold (fragments toUpperCase ps).
  rewrite solid_app, IH. f_equal.
  destruct (700 <? length p).
  - apply longParagraphChunks_solid.
  - rewrite solid_cons. apply app_nil_r.
Qed.

Lemma regrouped_exact (ps : list str) :
  solid (fragments toUpperCase (ensureBreaks ps)) = afterRegrouping ps.
Proof.
  unfold ensureBreaks, afterRegrouping.
  destruct ps as [|p [|q ps]]; try apply fragments_exact.
  destruct (Nat.ltb_spec 600 (length p)) as [L|L].
  - rewrite (fragments_keep toUpperCase _ (forceParagraphBreaks_lone p)).
    apply forceParagraphBreaks_solid.
  - rewrite fragments_exact. cbn [List.map concat].
    destruct (Nat.ltb_spec 700 (length p)); [lia|apply app_nil_r].
Qed.

End Exact.

(** C1, amended: the output is the markup [formatted] with the highlighting
    tags put in and nothing left out, and [formatted] is the emitted
    fragments, each in a p element.  When the fallback is taken the one
    fragment is the cleaned text with each newline replaced by a line
    break.  Otherwise the fragments, white space aside, are the cleaned text
    with code units left out and nothing added or moved, and what is left
    out is told exactly.  When the first split gives one piece the
    fragments are the sentences of the cleaned text that are not empty,
    each with its period: only the period of an empty sentence is left out.
    When it gives more, they are the trimmed pieces longer than 15 code
    units, those that are cut again (a single one longer than 600, any one
    longer than 700) without the periods of their empty sentences: the
    separators and the short pieces are left out as well.  So, when no
    period of the cleaned text stands alone (none is followed by white space
    while it begins the text or follows white space), the fragments are,
    white space aside, exactly the cleaned text in the first case and
    exactly the trimmed pieces longer than 15 code units in the second. *)
Theorem formatText_keeps_text (toUpperCase : str -> str) (text : str) :
  let cleaned := clean text in
  let formatted := assemble toUpperCase cleaned (segment toUpperCase cleaned) in
  let pieces := split fl_g re_break cleaned in
  let kept := filter (fun p => 15 <? length p) (List.map trim pieces) in
  let visible := solid (emitted toUpperCase cleaned) in
  formatText toUpperCase text = (if isEmpty text then [] else highlight formatted)
  /\ inserted highlightTags formatted (highlight formatted)
  /\ formatted = join [] (List.map wrapP (emitted toUpperCase cleaned))
  /\ (fallbackTaken toUpperCase cleaned = true ->
      emitted toUpperCase cleaned
      = [replaceAll fl_g re_nl (const (lit "<br>")) cleaned])
  /\ (fallbackTaken toUpperCase cleaned = false ->
      subseq visible (nonSpace cleaned)
      /\ (length pieces = 1 -> visible = sentencesOf cleaned)
      /\ (length pieces <> 1 -> visible = afterRegrouping kept)
      /\ (noLoneDot false cleaned = true ->
          (length pieces = 1 -> visible = nonSpace cleaned)
          /\ (length pieces <> 1 -> visible = solid kept))).
Proof.
  intros cleaned formatted pieces kept visible. split; [reflexivity|].
  split; [apply highlight_inserted|].
  split; [apply assemble_emitted|].
  unfold visible, emitted.
  split; [intros ->; reflexivity|]. intros ->.
  split; [apply fragments_segment_subseq|].
  assert (B : length pieces = 1 ->
              solid (fragments toUpperCase (segment toUpperCase cleaned))
              = sentencesOf cleaned).
  { intros L. rewrite segment_keeps; unfold initialParagraphs; fold pieces;
      rewrite L; cbn [Nat.eqb].
    - apply sentenceParagraphs_solid.
    - apply sentenceParagraphs_lone. }
  assert (E : length pieces <> 1 -> initialParagraphs toUpperCase cleaned = kept).
  { intros L. unfold initialParagraphs. fold pieces.
    destruct (Nat.eqb_spec (length pieces) 1); [contradiction|reflexivity]. }
  split; [exact B|]. split.
  { intros L. unfold segment. rewrite (E L). apply regrouped_exact. }
  intros H. split.
  - intros L. rewrite (B L). now apply sentences_keep.
  - intros L. rewrite segment_keeps; rewrite (E L); [reflexivity|].
    now apply kept_lone.
Qed.

Definition plain_sample : str :=
  lit "Gale warning. Seas 12 ft" ++ [NL] ++ lit "Rain likely.".

Definition pieces_sample : str :=
  lit "Gale warning in effect." ++ [NL; NL] ++ lit "ok..."
  ++ lit "Seas building to 12 ft late.".

Lemma formatText_keeps_text_witness :
  ((fallbackTaken toUpperCaseLatin (clean plain_sample) = false
    /\ noLoneDot false (clean plain_sample) = true
    /\ length (split fl_g re_break (clean plain_sample)) = 1)
   /\ solid (emitted toUpperCaseLatin (clean plain_sample))
      = nonSpace (clean plain_sample))
  /\ ((fallbackTaken toUpperCaseLatin (clean pieces_sample) = false
       /\ noLoneDot false (clean pieces_sample) = true
       /\ length (split fl_g re_break (clean pieces_sample)) <> 1)
      /\ solid (emitted toUpperCaseLatin (clean pieces_sample))
         = lit "Galewarningineffect.Seasbuildingto12ftlate.").
Proof.
  split.
  - assert (H1 : fallbackTaken toUpperCaseLatin (clean plain_sample) = false)
      by (vm_compute; reflexivity).
    assert (H2 : noLoneDot false (clean plain_sample) = true)
      by (vm_compute; reflexivity).
    assert (H3 : length (split fl_g re_break (clean plain_sample)) = 1)
      by (vm_compute; reflexivity).
    split; [exact (conj H1 (conj H2 H3))|].
    destruct (formatText_keeps_text toUpperCaseLatin plain_sample)
      as (_ & _ & _ & _ & K).
    exact (proj1 (proj2 (proj2 (proj2 (K H1))) H2) H3).
  - assert (H1 : fallbackTaken toUpperCaseLatin (clean pieces_sample) = false)
      by (vm_compute; reflexivity).
    assert (H2 : noLoneDot false (clean pieces_sample) = true)
      by (vm_compute; reflexivity).
    assert (H3 : length (split fl_g re_break (clean pieces_sample)) <> 1)
      by (vm_compute; discriminate).
    split; [exact (conj H1 (conj H2 H3))|].
    destruct (formatText_keeps_text toUpperCaseLatin pieces_sample)
      as (_ & _ & _ & _ & K).
    rewrite (proj2 (proj2 (proj2 (proj2 (K H1))) H2) H3).
    vm_compute. reflexivity.
Defined.

Definition two_pieces : str :=
  lit "Hello" ++ [NL; NL] ++ lit "This is a longer paragraph here.".

Definition lone_period : str := lit "Rain. . Wind".

(** C1 as stated fails, in the two ways the amended statement sets apart.
    The first split of [two_pieces] gives two pieces and the one of five
    code units is dropped, so "Hello" is missing from the output.  In
    [lone_period] the sentence between the two periods is empty and is
    passed over with its period, so a period is missing from the output. *)
Lemma visible_text_dropped :
  (clean two_pieces = two_pieces
   /\ formatText toUpperCaseLatin two_pieces
      = lit "<p>This is a longer paragraph here.</p>"
   /\ nonSpace (visibleText (formatText toUpperCaseLatin two_pieces))
      = lit "Thisisalongerparagraphhere."
   /\ nonSpace (clean two_pieces) = lit "HelloThisisalongerparagraphhere."
   /\ nonSpace (visibleText (formatText toUpperCaseLatin two_pieces))
      <> nonSpace (clean two_pieces))
  /\ (clean lone_period = lone_period
      /\ formatText toUpperCaseLatin lone_period
         = lit "<p><em>Rain</em>. <em>Wind</em></p>"
      /\ nonSpace (visibleText (formatText toUpperCaseLatin lone_period))
         = lit "Rain.Wind"
      /\ nonSpace (clean lone_period) = lit "Rain..Wind"
      /\ nonSpace (visibleText (formatText toUpperCaseLatin lone_period))
         <> nonSpace (clean lone_period)).
Proof.
  split.
  - repeat split; try (vm_compute; reflexivity). vm_compute. discriminate.
  - repeat split; try (vm_compute; reflexivity). vm_compute. discriminate.
Qed.

End VisibleTextFacts.
